(** * RavilBuy operator console: command construction and selection state

    A shallow embedding of the two scripts of the site: the console script
    (quoting, command assembly, command builders, catalog loader, selection
    state of the cleanup form) and [Site/add-ignore.js] (ignore-list
    maintenance).  Every definition follows the JavaScript function of the
    same name; the theorems at the end of each part relate them to the
    written specification. *)

From Stdlib Require Import ZArith NArith List String Ascii Bool Lia Permutation.
From Stdlib Require Import DecimalPos Sorted.
From stdpp Require Import gmap.
Import ListNotations.

Set Warnings "-register-all".
Local Open Scope N_scope.

(** ** JavaScript values shared by both scripts *)

Module JS.

(** A JavaScript string is a sequence of UTF-16 code units; a code unit is
    kept as its number. *)
Abbreviation jsstring := (list N).

(** Literals are written as Rocq strings (UTF-8 bytes) and decoded to code
    units; one, two and three byte sequences cover the Basic Multilingual
    Plane, which is all the literals of the scripts need. *)
Fixpoint utf8_decode (bs : list N) : jsstring :=
  match bs with
  | [] => []
  | b0 :: r0 =>
      if b0 <? 128 then b0 :: utf8_decode r0
      else if b0 <? 224 then
        match r0 with
        | b1 :: r1 => ((b0 - 192) * 64 + (b1 - 128)) :: utf8_decode r1
        | [] => [b0]
        end
      else
        match r0 with
        | b1 :: b2 :: r2 =>
            ((b0 - 224) * 4096 + (b1 - 128) * 64 + (b2 - 128)) :: utf8_decode r2
        | _ => b0 :: r0
        end
  end.

Definition lit (s : string) : jsstring :=
  utf8_decode (map N_of_ascii (list_ascii_of_string s)).

Arguments lit : simpl never.

(** Code units the scripts name. *)
Definition DQUOTE : N := 34.
Definition DOLLAR : N := 36.
Definition HYPHEN : N := 45.
Definition BACKSLASH : N := 92.
Definition BACKTICK : N := 96.
Definition SPACE : N := 32.
Definition NEWLINE : N := 10.

Definition in_range (lo hi c : N) : bool := (lo <=? c) && (c <=? hi).

Definition is_digit (c : N) : bool := in_range 48 57 c.

(** [===] on two strings. *)
Fixpoint str_eqb (a b : jsstring) : bool :=
  match a, b with
  | [], [] => true
  | x :: a', y :: b' => (x =? y) && str_eqb a' b'
  | _, _ => false
  end.

(** WhiteSpace and LineTerminator of ECMAScript: what [trim] strips and
    [parseInt] skips. *)
Definition is_line_terminator (c : N) : bool :=
  (c =? 10) || (c =? 13) || (c =? 8232) || (c =? 8233).

Definition is_white_space (c : N) : bool :=
  (c =? 9) || (c =? 11) || (c =? 12) || (c =? 32) || (c =? 160) ||
  (c =? 5760) || in_range 8192 8202 c || (c =? 8239) || (c =? 8287) ||
  (c =? 12288) || (c =? 65279) || is_line_terminator c.

Fixpoint trimStart (s : jsstring) : jsstring :=
  match s with
  | c :: s' => if is_white_space c then trimStart s' else s
  | [] => []
  end.

Definition trimEnd (s : jsstring) : jsstring := rev (trimStart (rev s)).

Definition trim (s : jsstring) : jsstring := trimEnd (trimStart s).

(** [Array.prototype.join] on an array of strings. *)
Fixpoint join (sep : jsstring) (l : list jsstring) : jsstring :=
  match l with
  | [] => []
  | [x] => x
  | x :: l' => x ++ sep ++ join sep l'
  end.

(** [s.replace(/[class]/g, r)] where the replacement depends on the matched
    code unit only (a one-character pattern with the [g] flag). *)
Definition replace_each (cls : N -> bool) (r : N -> jsstring) (s : jsstring)
  : jsstring :=
  flat_map (fun c => if cls c then r c else [c]) s.

(** [Number.MAX_SAFE_INTEGER].  Numbers are integers here, and the two
    functions below are those of JavaScript on the integers up to this
    magnitude: beyond it [Number.parseInt] rounds to the nearest double (and
    gives [Infinity] for very long runs of digits) and [String] changes to
    the exponent form from 10^21 on, neither of which is represented.  What
    is proved about the value of a number is proved within this range. *)
Definition MAX_SAFE_INTEGER : Z := (2 ^ 53 - 1)%Z.

Definition safe_integer (n : Z) : Prop := (Z.abs n <= MAX_SAFE_INTEGER)%Z.

(** [String(n)] for a number with an integer value: the decimal digits, with
    a minus sign when negative.  Numbers are integers here; the value is the
    one JavaScript prints as long as it is below 10^21 in magnitude. *)
Fixpoint uint_units (d : Decimal.uint) : jsstring :=
  match d with
  | Decimal.Nil => []
  | Decimal.D0 d => 48 :: uint_units d
  | Decimal.D1 d => 49 :: uint_units d
  | Decimal.D2 d => 50 :: uint_units d
  | Decimal.D3 d => 51 :: uint_units d
  | Decimal.D4 d => 52 :: uint_units d
  | Decimal.D5 d => 53 :: uint_units d
  | Decimal.D6 d => 54 :: uint_units d
  | Decimal.D7 d => 55 :: uint_units d
  | Decimal.D8 d => 56 :: uint_units d
  | Decimal.D9 d => 57 :: uint_units d
  end.

Definition String_of_number (n : Z) : jsstring :=
  match Z.to_int n with
  | Decimal.Pos d => uint_units d
  | Decimal.Neg d => HYPHEN :: uint_units d
  end.

(** [Number.parseInt(s, 10)]: skip leading white space, read an optional
    sign, then the longest run of decimal digits; [None] is NaN.  Minus zero
    is zero here (both are falsy and print as "0").  The value is the exact
    one, which is what JavaScript returns as long as it is a
    [safe_integer]. *)
Fixpoint digits_value (acc : Z) (s : jsstring) : Z :=
  match s with
  | c :: s' =>
      if is_digit c then digits_value (10 * acc + Z.of_N (c - 48)) s' else acc
  | [] => acc
  end.

Definition starts_with_digit (s : jsstring) : bool :=
  match s with
  | c :: _ => is_digit c
  | [] => false
  end.

Definition parseInt10 (s : jsstring) : option Z :=
  match trimStart s with
  | c :: r =>
      if c =? HYPHEN then
        if starts_with_digit r then Some (- digits_value 0 r)%Z else None
      else if c =? 43 then
        if starts_with_digit r then Some (digits_value 0 r) else None
      else if is_digit c then Some (digits_value 0 (c :: r))
      else None
  | [] => None
  end.

(** Parsed JSON, as [response.json()] yields it.  Numbers are integers. *)
Inductive json : Type :=
  | JNull
  | JBool (b : bool)
  | JNum (n : Z)
  | JStr (s : jsstring)
  | JArr (items : list json)
  | JObj (fields : list (jsstring * json)).

(** Property read [v.key] on a parsed JSON value that is not [null]; [None]
    is [undefined].  A key written twice in the JSON text keeps its last
    value.  None of the keys the scripts read is an own or inherited
    property of arrays, strings, numbers or booleans. *)
Fixpoint assoc_last (key : jsstring) (fields : list (jsstring * json))
  : option json :=
  match fields with
  | [] => None
  | (k, v) :: rest =>
      match assoc_last key rest with
      | Some v' => Some v'
      | None => if str_eqb k key then Some v else None
      end
  end.

Definition prop (v : json) (key : jsstring) : option json :=
  match v with
  | JObj fields => assoc_last key fields
  | _ => None
  end.

(** [a ?? b] *)
Definition nullish (a b : option json) : option json :=
  match a with
  | None | Some JNull => b
  | Some _ => a
  end.

(** Truthiness of a JSON value or [undefined]. *)
Definition truthy (v : option json) : bool :=
  match v with
  | None | Some JNull => false
  | Some (JBool b) => b
  | Some (JNum n) => negb (n =? 0)%Z
  | Some (JStr s) => match s with [] => false | _ => true end
  | Some (JArr _) | Some (JObj _) => true
  end.

(** [String(v)], also what a template literal does to [v]. *)
Fixpoint ToString (v : json) : jsstring :=
  match v with
  | JNull => lit "null"
  | JBool true => lit "true"
  | JBool false => lit "false"
  | JNum n => String_of_number n
  | JStr s => s
  | JArr items =>
      join (lit ",")
        (map (fun x => match x with JNull => [] | _ => ToString x end) items)
  | JObj _ => lit "[object Object]"
  end.

Definition ToString_opt (v : option json) : jsstring :=
  match v with
  | None => lit "undefined"
  | Some x => ToString x
  end.

(** What a [fetch] of a JSON resource can come to: the request itself is
    rejected, or there is a response, whose body parses as JSON or does not
    ([response.json()] rejects). *)
Inductive FetchOutcome : Type :=
  | FetchRejected
  | Response (ok : bool) (body : option json).

(** [fetch] then [response.ok] check then [response.json()]: the payload, or
    the thrown error. *)
Definition fetched_payload (o : FetchOutcome) : option json :=
  match o with
  | Response true (Some payload) => Some payload
  | _ => None
  end.

End JS.

Import JS.

(** ** The console script *)

Module Console.

(** [SAFE_VALUE = /^[0-9A-Za-z_.@%+=:,/\\-]+$/]: the character class, then
    the anchored, non-empty match. *)
Definition SAFE_VALUE_class (c : N) : bool :=
  in_range 48 57 c || in_range 65 90 c || in_range 97 122 c ||
  (c =? 95) || (c =? 46) || (c =? 64) || (c =? 37) || (c =? 43) ||
  (c =? 61) || (c =? 58) || (c =? 44) || (c =? 47) || (c =? 92) || (c =? 45).

Definition SAFE_VALUE_test (s : jsstring) : bool :=
  match s with
  | [] => false
  | _ => forallb SAFE_VALUE_class s
  end.

Definition DEFAULT_COMMANDS_killFabriks : jsstring := lit "python killFabriks.py".

Record Source : Type := { label : jsstring; path : jsstring }.

(** [FACTORY_SOURCES], in the order [Object.entries] lists it. *)
Definition FACTORY_SOURCES : list (jsstring * Source) :=
  [ (lit "JV_F_P", {| label := lit "JV_F_P — каталоги";
                      path := lit "../Fabriks/JV_F_P/factories.json" |});
    (lit "XL_F_P", {| label := lit "XL_F_P — каталоги";
                      path := lit "../Fabriks/XL_F_P/factories.json" |});
    (lit "JV_F_L", {| label := lit "JV_F_L — листер";
                      path := lit "../Fabriks/JV_F_L/collections.json" |});
    (lit "XL_F_L", {| label := lit "XL_F_L — листер";
                      path := lit "../Fabriks/XL_F_L/collections.json" |}) ].

(** [TYPE_LABELS[type] || type] *)
Fixpoint TYPE_LABELS (sources : list (jsstring * Source)) (type : jsstring)
  : option jsstring :=
  match sources with
  | [] => None
  | (t, src) :: rest =>
      if str_eqb t type then Some (label src) else TYPE_LABELS rest type
  end.

Definition label_or_type (type : jsstring) : jsstring :=
  match TYPE_LABELS FACTORY_SOURCES type with
  | Some (c :: l) => c :: l
  | _ => type
  end.

(** *** Quoting and assembly *)

(** Truthiness of a string. *)
Definition nonempty (s : jsstring) : bool :=
  match s with [] => false | _ => true end.

(** A raw command part: what the builders may hand to [joinCommand]. *)
Inductive Token : Type :=
  | TUndefined
  | TNull
  | TStr (s : jsstring)
  | TNum (n : Z).

(** [String(rawPart)] *)
Definition String_of_token (rawPart : Token) : jsstring :=
  match rawPart with
  | TUndefined => lit "undefined"
  | TNull => lit "null"
  | TStr s => s
  | TNum n => String_of_number n
  end.

Definition startsWith_hyphen (part : jsstring) : bool :=
  match part with
  | c :: _ => c =? HYPHEN
  | [] => false
  end.

(** The class of the pattern [shellQuote] replaces by: double quote,
    backslash, dollar sign, backtick. *)
Definition quote_special_class (c : N) : bool :=
  (c =? DQUOTE) || (c =? BACKSLASH) || (c =? DOLLAR) || (c =? BACKTICK).

Definition shellQuote (rawPart : Token) : jsstring :=
  match rawPart with
  | TUndefined | TNull => []
  | _ =>
      let part := String_of_token rawPart in
      if negb (nonempty part) then []
      else if startsWith_hyphen part then part
      else if SAFE_VALUE_test part then part
      else
        let escaped :=
          replace_each quote_special_class (fun c => [BACKSLASH; c]) part in
        [DQUOTE] ++ escaped ++ [DQUOTE]
  end.

Definition joinCommand (parts : list Token) : jsstring :=
  join [SPACE]
    (map shellQuote
       (List.filter
          (fun part =>
             match part with
             | TUndefined | TNull | TStr [] => false
             | _ => true
             end)
          (map (fun part =>
                  match part with
                  | TNum n => TStr (String_of_number n)
                  | _ => part
                  end)
               parts))).

(** *** Form extraction *)

(** The form as the builders read it: the raw value of the text input,
    textarea or select of a given name ([None] when there is no such field),
    the values of the checked inputs of a name, and whether the single
    checkbox of a name is there and checked. *)
Record Form : Type := {
  field_raw : string -> option jsstring;
  checked_values : string -> list jsstring;
  checkbox_checked : string -> bool
}.

Definition getFieldValue (form : Form) (name : string) : jsstring :=
  match field_raw form name with
  | None => []
  | Some v => trim v
  end.

Definition getCheckedValues (form : Form) (name : string) : list jsstring :=
  checked_values form name.

(** [value.split(/[\r\n,;]+/)]: cut at every run of separators. *)
Definition is_list_separator (c : N) : bool :=
  (c =? 13) || (c =? 10) || (c =? 44) || (c =? 59).

Fixpoint split_runs (sep : N -> bool) (s cur : jsstring) (in_run : bool)
  : list jsstring :=
  match s with
  | [] => [rev cur]
  | c :: s' =>
      if sep c then
        if in_run then split_runs sep s' cur true
        else rev cur :: split_runs sep s' [] true
      else split_runs sep s' (c :: cur) false
  end.

Definition parseList (value : jsstring) : list jsstring :=
  match value with
  | [] => []
  | _ => List.filter nonempty (map trim (split_runs is_list_separator value [] false))
  end.

Definition parseInteger (value : jsstring) : option Z :=
  match value with
  | [] => None
  | _ => parseInt10 value
  end.

Definition escapeDoubleQuotes (value : jsstring) : jsstring :=
  replace_each (fun c => c =? DQUOTE) (fun _ => [BACKSLASH; DQUOTE])
    (replace_each (fun c => c =? BACKSLASH) (fun _ => [BACKSLASH; BACKSLASH])
       value).

Definition buildKillAddCommand (type id name : jsstring) : jsstring :=
  match id with
  | [] => []
  | _ =>
      let safeType := escapeDoubleQuotes type in
      let safeId := escapeDoubleQuotes id in
      let safeName := escapeDoubleQuotes name in
      let snippet :=
        lit "from killFabriks import add_kill_fabriks; add_kill_fabriks(" ++
        [DQUOTE] ++ safeType ++ [DQUOTE] ++ lit ", " ++
        [DQUOTE] ++ safeId ++ [DQUOTE] ++ lit ", " ++
        [DQUOTE] ++ safeName ++ [DQUOTE] ++ lit ")" in
      lit "python -c " ++ [DQUOTE] ++ snippet ++ [DQUOTE]
  end.

(** *** Catalog loader *)

(** A catalog record; the fields are [type], [id], [name] and the optional
    [itemCount] of the script. *)
Record FactoryRecord : Type := {
  rec_type : jsstring;
  rec_id : jsstring;
  rec_name : jsstring;
  rec_itemCount : option Z
}.

Definition is_object (data : json) : bool :=
  match data with
  | JArr _ | JObj _ => true
  | _ => false
  end.

Definition normalizeFactoryRecord (type : jsstring) (data : json)
  : option FactoryRecord :=
  if negb (is_object data) then None
  else
    let rawId :=
      nullish (nullish (nullish (prop data (lit "id")) (prop data (lit "ID")))
                 (prop data (lit "factory_id")))
        (Some (JStr [])) in
    if negb (truthy rawId) then None
    else
      let countValue :=
        nullish
          (nullish
             (nullish
                (nullish (prop data (lit "item_count"))
                   (prop data (lit "itemCount")))
                (prop data (lit "count")))
             (prop data (lit "total")))
          (prop data (lit "itemTotal")) in
      Some {| rec_type := type;
              rec_id := ToString_opt rawId;
              rec_name :=
                if truthy (prop data (lit "name"))
                then ToString_opt (prop data (lit "name")) else [];
              rec_itemCount :=
                match countValue with
                | Some (JNum n) => Some n
                | Some (JStr s) =>
                    if nonempty (trim s) then parseInt10 s else None
                | _ => None
                end |}.

(** The records one source contributes: the [forEach] over its payload. *)
Definition normalized_entries (type : jsstring) (payload : list json)
  : list FactoryRecord :=
  flat_map
    (fun entry =>
       match normalizeFactoryRecord type entry with
       | Some record => [record]
       | None => []
       end)
    payload.

Section Loader.

(** [COLLATOR.compare] of the Russian, numeric, base-sensitivity collator is
    left open: a negative, zero or positive number. *)
Variable COLLATOR_compare : jsstring -> jsstring -> Z.

Definition compareFactories (a b : FactoryRecord) : Z :=
  if negb (str_eqb (rec_type a) (rec_type b))
  then COLLATOR_compare (rec_type a) (rec_type b)
  else
    let nameCompare := COLLATOR_compare (rec_name a) (rec_name b) in
    if negb (nameCompare =? 0)%Z then nameCompare
    else COLLATOR_compare (rec_id a) (rec_id b).

(** [Array.prototype.sort] with a comparator: a stable sort, written as
    insertion from the right. *)
Fixpoint sort_insert {A} (cmp : A -> A -> Z) (x : A) (l : list A) : list A :=
  match l with
  | [] => [x]
  | y :: l' =>
      if (cmp x y <=? 0)%Z then x :: y :: l' else y :: sort_insert cmp x l'
  end.

Fixpoint Array_sort {A} (cmp : A -> A -> Z) (l : list A) : list A :=
  match l with
  | [] => []
  | x :: l' => sort_insert cmp x (Array_sort cmp l')
  end.

(** One activation of the anonymous async function of [loadAllFactories]:
    the entries of [FACTORY_SOURCES] the loop has still to go through, the
    first of them being the one whose fetch it awaits, and the local array
    [collected]. *)
Record Sweep : Type := {
  sweep_id : nat;
  awaiting : list (jsstring * Source);
  collected : list FactoryRecord
}.

(** The module variables of the loader, with the activations that have not
    settled and, as a record of what happened, the paths passed to [fetch].
    [factoriesPromise] holds the number of the activation its promise comes
    from. *)
Record Loader : Type := {
  cachedFactories : list FactoryRecord;
  factoriesLoaded : bool;
  factoriesPromise : option nat;
  factoryLoadErrors : list jsstring;
  activations : list Sweep;
  fetch_log : list jsstring;
  activations_made : nat
}.

Definition initial_loader : Loader :=
  {| cachedFactories := []; factoriesLoaded := false;
     factoriesPromise := None; factoryLoadErrors := [];
     activations := []; fetch_log := []; activations_made := 0 |}.

Definition drop_activation (id : nat) (l : list Sweep) : list Sweep :=
  List.filter (fun s => negb (Nat.eqb (sweep_id s) id)) l.

(** The loop from the top of an iteration to its next [await], or through
    the sort and the memoization when no source is left. *)
Definition resume (id : nat) (todo : list (jsstring * Source))
    (collected : list FactoryRecord) (st : Loader) : Loader :=
  match todo with
  | (type, source) :: _ =>
      {| cachedFactories := cachedFactories st;
         factoriesLoaded := factoriesLoaded st;
         factoriesPromise := factoriesPromise st;
         factoryLoadErrors := factoryLoadErrors st;
         activations :=
           {| sweep_id := id; awaiting := todo; collected := collected |}
           :: drop_activation id (activations st);
         fetch_log := fetch_log st ++ [path source];
         activations_made := activations_made st |}
  | [] =>
      {| cachedFactories := Array_sort compareFactories collected;
         factoriesLoaded := true;
         factoriesPromise := factoriesPromise st;
         factoryLoadErrors := factoryLoadErrors st;
         activations := drop_activation id (activations st);
         fetch_log := fetch_log st;
         activations_made := activations_made st |}
  end.

(** What a caller of [loadAllFactories] gets: a promise already resolved
    with the catalog, or one that follows the promise of an activation. *)
Inductive LoadResult : Type :=
  | Resolved (catalog : list FactoryRecord)
  | Follows (id : nat).

Definition loadAllFactories (st : Loader) : Loader * LoadResult :=
  if factoriesLoaded st then (st, Resolved (cachedFactories st))
  else
    match factoriesPromise st with
    | Some id => (st, Follows id)
    | None =>
        let id := activations_made st in
        let st1 :=
          {| cachedFactories := cachedFactories st;
             factoriesLoaded := factoriesLoaded st;
             factoriesPromise := factoriesPromise st;
             factoryLoadErrors := [];
             activations := activations st;
             fetch_log := fetch_log st;
             activations_made := S id |} in
        let st2 := resume id FACTORY_SOURCES [] st1 in
        ({| cachedFactories := cachedFactories st2;
            factoriesLoaded := factoriesLoaded st2;
            factoriesPromise := Some id;
            factoryLoadErrors := factoryLoadErrors st2;
            activations := activations st2;
            fetch_log := fetch_log st2;
            activations_made := activations_made st2 |},
         Follows id)
    end.

Definition find_activation (id : nat) (st : Loader) : option Sweep :=
  List.find (fun s => Nat.eqb (sweep_id s) id) (activations st).

(** The awaited fetch of activation [id] comes to [o]: the rest of the [try]
    block or the [catch], then on to the next [await].  The two awaits of an
    iteration ([fetch], [response.json()]) are one step: nothing is written
    between them. *)
Definition fetch_settled (id : nat) (o : FetchOutcome) (st : Loader) : Loader :=
  match find_activation id st with
  | Some sw =>
      match awaiting sw with
      | (type, source) :: rest =>
          match fetched_payload o with
          | Some (JArr payload) =>
              resume id rest (collected sw ++ normalized_entries type payload) st
          | _ =>
              resume id rest (collected sw)
                {| cachedFactories := cachedFactories st;
                   factoriesLoaded := factoriesLoaded st;
                   factoriesPromise := factoriesPromise st;
                   factoryLoadErrors :=
                     factoryLoadErrors st ++ [label_or_type type];
                   activations := activations st;
                   fetch_log := fetch_log st;
                   activations_made := activations_made st |}
          end
      | [] => st
      end
  | None => st
  end.

(** Activation [id] ends by an exception that none of its [try] blocks
    holds: its promise is rejected and the [catch] callback chained on it
    runs. *)
Definition sweep_rejected (id : nat) (st : Loader) : Loader :=
  match find_activation id st with
  | Some _ =>
      {| cachedFactories := cachedFactories st;
         factoriesLoaded := factoriesLoaded st;
         factoriesPromise := None;
         factoryLoadErrors := factoryLoadErrors st;
         activations := drop_activation id (activations st);
         fetch_log := fetch_log st;
         activations_made := activations_made st |}
  | None => st
  end.

(** What can happen, one after the other, on the single thread. *)
Inductive Event : Type :=
  | CallLoadAll
  | FetchSettled (id : nat) (o : FetchOutcome)
  | SweepRejected (id : nat).

Definition step (st : Loader) (e : Event) : Loader :=
  match e with
  | CallLoadAll => fst (loadAllFactories st)
  | FetchSettled id o => fetch_settled id o st
  | SweepRejected id => sweep_rejected id st
  end.

Definition run (trace : list Event) (st : Loader) : Loader :=
  fold_left step trace st.

End Loader.

(** *** Selection state of the cleanup form *)

(** An entry of [killState.selections]. *)
Record Selection : Type := {
  sel_type : jsstring;
  sel_id : jsstring;
  sel_name : jsstring;
  sel_count : option Z
}.

Definition isFactorySelected (type id : jsstring) (selections : list Selection)
  : bool :=
  existsb (fun entry => str_eqb (sel_type entry) type && str_eqb (sel_id entry) id)
    selections.

(** The argument of [addFactorySelection] is [None] when it is [null] or
    [undefined]. *)
Definition addFactorySelection (factory : option FactoryRecord)
    (selections : list Selection) : list Selection * bool :=
  match factory with
  | None => (selections, false)
  | Some f =>
      if negb (nonempty (rec_id f)) || negb (nonempty (rec_type f))
      then (selections, false)
      else if isFactorySelected (rec_type f) (rec_id f) selections
      then (selections, false)
      else
        (selections ++
           [{| sel_type := rec_type f; sel_id := rec_id f;
               sel_name := rec_name f; sel_count := rec_itemCount f |}],
         true)
  end.

(** [findIndex] then [splice(index, 1)]. *)
Fixpoint remove_first (p : Selection -> bool) (l : list Selection)
  : option (list Selection) :=
  match l with
  | [] => None
  | entry :: l' =>
      if p entry then Some l'
      else option_map (cons entry) (remove_first p l')
  end.

Definition removeFactorySelection (type id : jsstring)
    (selections : list Selection) : list Selection * bool :=
  match
    remove_first
      (fun entry => str_eqb (sel_type entry) type && str_eqb (sel_id entry) id)
      selections
  with
  | None => (selections, false)
  | Some rest => (rest, true)
  end.

(** *** Command builders *)

Definition nonempty_list {A} (l : list A) : bool :=
  match l with [] => false | _ => true end.

Definition or_default (value default : jsstring) : jsstring :=
  if nonempty value then value else default.

Definition flag_pairs (flag : string) (values : list jsstring) : list jsstring :=
  flat_map (fun v => [lit flag; v]) values.

Definition when (b : bool) (tokens : list jsstring) : list jsstring :=
  if b then tokens else [].

(** The [limit] lines shared by four builders. *)
Definition limit_parts (form : Form) : list jsstring :=
  match parseInteger (getFieldValue form "limit") with
  | Some limit =>
      if negb (limit =? 0)%Z then [lit "--limit"; String_of_number limit] else []
  | None => []
  end.

Definition login_parts (form : Form) : list jsstring :=
  [lit "python"; lit "Login.py"] ++
  flag_pairs "--account" (getCheckedValues form "account") ++
  when (checkbox_checked form "verbose") [lit "--verbose"].

Definition login (form : Form) : jsstring :=
  joinCommand (map TStr (login_parts form)).

Definition fabrik_parts (form : Form) : list jsstring :=
  let account := getFieldValue form "account" in
  let target := or_default (getFieldValue form "target") (lit "all") in
  [lit "python"; lit "getFabrik.py"] ++
  when (nonempty account) [lit "--account"; account] ++
  when (nonempty target && negb (str_eqb target (lit "all")))
    [lit "--target"; target] ++
  when (checkbox_checked form "verbose") [lit "--verbose"].

Definition fabrik (form : Form) : jsstring :=
  joinCommand (map TStr (fabrik_parts form)).

Definition items_parts (form : Form) : list jsstring :=
  let account := getFieldValue form "account" in
  let dataset := or_default (getFieldValue form "dataset") (lit "all") in
  [lit "python"; lit "getItems.py"] ++
  when (nonempty account) [lit "--account"; account] ++
  when (nonempty dataset && negb (str_eqb dataset (lit "all")))
    [lit "--dataset"; dataset] ++
  limit_parts form ++
  when (checkbox_checked form "verbose") [lit "--verbose"].

Definition items (form : Form) : jsstring :=
  joinCommand (map TStr (items_parts form)).

Definition exportProducts_parts (form : Form) : list jsstring :=
  let outputDir := getFieldValue form "output-dir" in
  let definitionId := getFieldValue form "definition-id" in
  let exportFormatId := getFieldValue form "export-format-id" in
  let expprod := or_default (getFieldValue form "expprod") (lit "3") in
  let exportEncoding :=
    or_default (getFieldValue form "export-encoding") (lit "1") in
  let saveExportEncoding :=
    or_default (getFieldValue form "save-export-encoding") (lit "1") in
  [lit "python"; lit "exportProdukt.py"] ++
  flag_pairs "--account" (getCheckedValues form "account") ++
  flag_pairs "--factory-id" (parseList (getFieldValue form "factory-ids")) ++
  flag_pairs "--factory-name" (parseList (getFieldValue form "factory-names")) ++
  limit_parts form ++
  when (nonempty outputDir && negb (str_eqb outputDir (lit "CSVDATA")))
    [lit "--output-dir"; outputDir] ++
  when (nonempty definitionId) [lit "--definition-id"; definitionId] ++
  when (nonempty exportFormatId) [lit "--export-format-id"; exportFormatId] ++
  when (nonempty expprod && negb (str_eqb expprod (lit "3")))
    [lit "--expprod"; expprod] ++
  when (nonempty exportEncoding && negb (str_eqb exportEncoding (lit "1")))
    [lit "--export-encoding"; exportEncoding] ++
  when (nonempty saveExportEncoding &&
        negb (str_eqb saveExportEncoding (lit "1")))
    [lit "--save-export-encoding"; saveExportEncoding] ++
  when (checkbox_checked form "skip-existing") [lit "--skip-existing"] ++
  when (checkbox_checked form "dry-run") [lit "--dry-run"] ++
  when (checkbox_checked form "verbose") [lit "--verbose"].

Definition exportProducts (form : Form) : jsstring :=
  joinCommand (map TStr (exportProducts_parts form)).

Definition exportLister_parts (form : Form) : list jsstring :=
  let outputDir := getFieldValue form "output-dir" in
  let definitionId := getFieldValue form "definition-id" in
  let exportFormatId := getFieldValue form "export-format-id" in
  let expprod := or_default (getFieldValue form "expprod") (lit "3") in
  let exportEncoding :=
    or_default (getFieldValue form "export-encoding") (lit "1") in
  [lit "python"; lit "exportLister.py"] ++
  flag_pairs "--account" (getCheckedValues form "account") ++
  flag_pairs "--factory-id" (parseList (getFieldValue form "factory-ids")) ++
  flag_pairs "--factory-name" (parseList (getFieldValue form "factory-names")) ++
  limit_parts form ++
  when (nonempty outputDir && negb (str_eqb outputDir (lit "CSVDATA")))
    [lit "--output-dir"; outputDir] ++
  when (nonempty definitionId) [lit "--definition-id"; definitionId] ++
  when (nonempty exportFormatId) [lit "--export-format-id"; exportFormatId] ++
  when (nonempty expprod && negb (str_eqb expprod (lit "3")))
    [lit "--expprod"; expprod] ++
  when (nonempty exportEncoding && negb (str_eqb exportEncoding (lit "1")))
    [lit "--export-encoding"; exportEncoding] ++
  when (checkbox_checked form "skip-existing") [lit "--skip-existing"] ++
  when (checkbox_checked form "dry-run") [lit "--dry-run"] ++
  when (checkbox_checked form "verbose") [lit "--verbose"].

Definition exportLister (form : Form) : jsstring :=
  joinCommand (map TStr (exportLister_parts form)).

Definition makeHTML_parts (form : Form) : list jsstring :=
  let accounts := getCheckedValues form "account" in
  let inputBase := getFieldValue form "input-base" in
  let outputBase := getFieldValue form "output-base" in
  let delimiter := or_default (getFieldValue form "delimiter") (lit ";") in
  [lit "python"; lit "makeHTML.py"] ++
  when (nonempty_list accounts) (lit "--account" :: accounts) ++
  when (nonempty inputBase && negb (str_eqb inputBase (lit "CSVDATA")))
    [lit "--input-base"; inputBase] ++
  when (nonempty outputBase && negb (str_eqb outputBase (lit "readyhtml")))
    [lit "--output-base"; outputBase] ++
  when (nonempty delimiter && negb (str_eqb delimiter (lit ";")))
    [lit "--delimiter"; delimiter] ++
  limit_parts form ++
  when (checkbox_checked form "no-overwrite") [lit "--no-overwrite"] ++
  when (checkbox_checked form "verbose") [lit "--verbose"].

Definition makeHTML (form : Form) : jsstring :=
  joinCommand (map TStr (makeHTML_parts form)).

(** The lines [killFabriks] collects, then its result. *)
Definition killFabriks_commands (form : Form) (selections : list Selection)
  : list jsstring :=
  when (checkbox_checked form "run-cleanup") [DEFAULT_COMMANDS_killFabriks] ++
  flat_map
    (fun entry =>
       let command :=
         buildKillAddCommand (sel_type entry) (sel_id entry) (sel_name entry) in
       if nonempty command then [command] else [])
    selections.

Definition killFabriks (form : Form) (selections : list Selection) : jsstring :=
  match killFabriks_commands form selections with
  | [] => DEFAULT_COMMANDS_killFabriks
  | commands => join [NEWLINE] commands
  end.

(** *** The preview of a form *)

(** [DEFAULT_COMMANDS], by script name. *)
Definition DEFAULT_COMMANDS : list (string * jsstring) :=
  [ ("login", lit "python Login.py");
    ("fabrik", lit "python getFabrik.py");
    ("items", lit "python getItems.py");
    ("exportProducts", lit "python exportProdukt.py");
    ("exportLister", lit "python exportLister.py");
    ("makeHTML", lit "python makeHTML.py");
    ("killFabriks", DEFAULT_COMMANDS_killFabriks) ]%string.

(** [commandBuilders], by script name; only [killFabriks] reads the
    selection. *)
Definition commandBuilders
  : list (string * (Form -> list Selection -> jsstring)) :=
  [ ("login", fun form _ => login form);
    ("fabrik", fun form _ => fabrik form);
    ("items", fun form _ => items form);
    ("exportProducts", fun form _ => exportProducts form);
    ("exportLister", fun form _ => exportLister form);
    ("makeHTML", fun form _ => makeHTML form);
    ("killFabriks", killFabriks) ]%string.

Fixpoint own_property {A} (table : list (string * A)) (key : string) : option A :=
  match table with
  | [] => None
  | (k, v) :: rest => if String.eqb k key then Some v else own_property rest key
  end.

(** [updateCommand] of the form of a script that is an own key of
    [commandBuilders]: the text put in the preview.  [None] stands for every
    other script name, which is not followed here (no preview is installed
    for it, unless it names a member the object inherits).  The builders of
    this file do not throw, so the [catch] branch is not there. *)
Definition updateCommand (script : string) (form : Form)
    (selections : list Selection) : option jsstring :=
  match own_property commandBuilders script with
  | None => None
  | Some build =>
      let commandText := build form selections in
      Some (if nonempty commandText then commandText
            else match own_property DEFAULT_COMMANDS script with
                 | Some text => text
                 | None => []
                 end)
  end.

(** *** The add button of the picker *)

(** The [dataset] of an add button: [type], [id], [name] and [count];
    [None] for a member that was not set. *)
Record Dataset : Type := {
  dataset_type : option jsstring;
  dataset_id : option jsstring;
  dataset_name : option jsstring;
  dataset_count : option jsstring
}.

(** The [dataset] [renderPickerList] gives the add button of a factory of
    the catalog. *)
Definition addButton_dataset (factory : FactoryRecord) : Dataset :=
  {| dataset_type := Some (rec_type factory);
     dataset_id := Some (rec_id factory);
     dataset_name := Some (rec_name factory);
     dataset_count :=
       match rec_itemCount factory with
       | Some n => Some (String_of_number n)
       | None => None
       end |}.

(** [value || ""] of a [dataset] member. *)
Definition or_empty (value : option jsstring) : jsstring :=
  match value with
  | Some s => s
  | None => []
  end.

(** The click handler of the picker list, for a click on an add button:
    the new selection and whether it was added. *)
Definition pickerList_click (dataset : Dataset) (selections : list Selection)
  : list Selection * bool :=
  let type := or_empty (dataset_type dataset) in
  let id := or_empty (dataset_id dataset) in
  let name := or_empty (dataset_name dataset) in
  let countValue := or_empty (dataset_count dataset) in
  let count := if nonempty countValue then parseInt10 countValue else None in
  addFactorySelection
    (Some {| rec_type := type; rec_id := id; rec_name := name;
             rec_itemCount := count |})
    selections.

(** *** The modals and the picker *)

(** The page as far as the class [is-open] goes: the ids of the elements
    that carry it, whether the backdrop carries it, [activeModal] (an
    element, named by its id) and [isFactoryPickerOpen]. *)
Record ModalPage : Type := {
  open_elements : gset (list N);
  backdrop_open : bool;
  activeModal : option jsstring;
  isFactoryPickerOpen : bool
}.

(** The id of the picker element, which [setupKillFabriksUI] looks up. *)
Definition PICKER_ID : jsstring := lit "factory-picker".

Section Modals.

(** Whether [document.getElementById] finds an element, and whether the page
    has a backdrop. *)
Variable getElementById : jsstring -> bool.
Variable backdrop : bool.

Definition closeModal (page : ModalPage) : ModalPage :=
  match activeModal page with
  | None => page
  | Some modal =>
      {| open_elements := open_elements page ∖ {[ modal ]};
         backdrop_open := if backdrop then false else backdrop_open page;
         activeModal := None;
         isFactoryPickerOpen := isFactoryPickerOpen page |}
  end.

Definition openModal (id : jsstring) (page : ModalPage) : ModalPage :=
  if negb (getElementById id) then page
  else
    let page1 := closeModal page in
    {| open_elements := open_elements page1 ∪ {[ id ]};
       backdrop_open := if backdrop then true else backdrop_open page1;
       activeModal := Some id;
       isFactoryPickerOpen := isFactoryPickerOpen page1 |}.

(** [openPicker], as far as this state goes: the class on the picker and the
    flag; it also starts the catalog load, which is [loadAllFactories]
    above. *)
Definition openPicker (page : ModalPage) : ModalPage :=
  {| open_elements := open_elements page ∪ {[ PICKER_ID ]};
     backdrop_open := backdrop_open page;
     activeModal := activeModal page;
     isFactoryPickerOpen := true |}.

(** [closePicker], as far as this state goes. *)
Definition closePicker (page : ModalPage) : ModalPage :=
  if negb (isFactoryPickerOpen page) then page
  else
    {| open_elements := open_elements page ∖ {[ PICKER_ID ]};
       backdrop_open := backdrop_open page;
       activeModal := activeModal page;
       isFactoryPickerOpen := false |}.

(** The [keydown] handler of the document. *)
Definition keydown (escape : bool) (page : ModalPage) : ModalPage :=
  if negb escape then page
  else if isFactoryPickerOpen page then closePicker page
  else
    match activeModal page with
    | Some _ => closeModal page
    | None => page
    end.

End Modals.

End Console.

(** ** The ignore-list page, [Site/add-ignore.js] *)

Module AddIgnore.

(** [IGNORE_SOURCES], in the order [Object.entries] lists it. *)
Definition IGNORE_SOURCES : list (jsstring * jsstring) :=
  [ (lit "JV_F_P", lit "../Ignore/JV_P.json");
    (lit "XL_F_P", lit "../Ignore/XL_P.json");
    (lit "JV_F_L", lit "../Ignore/JV_L.json");
    (lit "XL_F_L", lit "../Ignore/XL_L.json") ].

(** A catalog record or an entry of [state.selections]: [type], [id],
    [name], [itemCount].  The [alreadyIgnored] member of a selection entry is
    a cache that [renderSelections] overwrites from [state.ignoreSet] before
    anything is shown; it is the function [alreadyIgnored] below. *)
Record Entry : Type := {
  entry_type : jsstring;
  entry_id : jsstring;
  entry_name : jsstring;
  entry_itemCount : option Z
}.

(** The members of [state]. [ignoreSet] is only ever asked [has] of a
    string, so it is kept as the set of the strings in it. *)
Record State : Type := {
  factories : list Entry;
  selections : list Entry;
  ignoreSet : gset (list N);
  loadErrors : list jsstring;
  isPickerOpen : bool;
  isApplying : bool
}.

Definition keyFor (type id : jsstring) : jsstring := type ++ lit "::" ++ id.

Definition alreadyIgnored (st : State) (type id : jsstring) : bool :=
  bool_decide (keyFor type id ∈ ignoreSet st).

Definition fetchJson (fetch : jsstring -> FetchOutcome) (path : jsstring)
  : option json :=
  fetched_payload (fetch path).

Definition with_ignoreSet (st : State) (next : gset (list N)) : State :=
  {| factories := factories st; selections := selections st;
     ignoreSet := next; loadErrors := loadErrors st;
     isPickerOpen := isPickerOpen st; isApplying := isApplying st |}.

Definition with_selections (st : State) (l : list Entry) : State :=
  {| factories := factories st; selections := l;
     ignoreSet := ignoreSet st; loadErrors := loadErrors st;
     isPickerOpen := isPickerOpen st; isApplying := isApplying st |}.

Definition with_isApplying (st : State) (b : bool) : State :=
  {| factories := factories st; selections := selections st;
     ignoreSet := ignoreSet st; loadErrors := loadErrors st;
     isPickerOpen := isPickerOpen st; isApplying := b |}.

(** The body of the [forEach] of [loadIgnoreLists]. *)
Definition add_ignore_item (type : jsstring) (next : gset (list N)) (item : json)
  : gset (list N) :=
  match item with
  | JArr _ | JObj _ =>
      let id := nullish (nullish (prop item (lit "id")) (prop item (lit "ID")))
                  (Some JNull) in
      if truthy id then next ∪ {[ keyFor type (ToString_opt id) ]} else next
  | _ => next
  end.

(** The set [loadIgnoreLists] builds, the sources being what [fetch] makes of
    them at that time. *)
Definition ignore_keys_of_sources (fetch : jsstring -> FetchOutcome)
  : gset (list N) :=
  fold_left
    (fun next '(type, path) =>
       match fetchJson fetch path with
       | Some (JArr payload) => fold_left (add_ignore_item type) payload next
       | _ => next
       end)
    IGNORE_SOURCES ∅.

Definition loadIgnoreLists (fetch : jsstring -> FetchOutcome) (st : State)
  : State :=
  with_ignoreSet st (ignore_keys_of_sources fetch).

Definition isSelected (st : State) (type id : jsstring) : bool :=
  existsb
    (fun entry => str_eqb (entry_type entry) type && str_eqb (entry_id entry) id)
    (selections st).

Definition addSelection (factory : Entry) (st : State) : State * bool :=
  if isSelected st (entry_type factory) (entry_id factory) then (st, false)
  else (with_selections st (selections st ++ [factory]), true).

(** [new Set(data.ignore_keys)], as far as [has] of a string can tell. *)
Definition new_Set (keys : list json) : gset (list N) :=
  list_to_set
    (flat_map (fun k => match k with JStr s => [s] | _ => [] end) keys).

Definition is_null (v : json) : bool :=
  match v with JNull => true | _ => false end.

Definition status_is_error (entry : json) : bool :=
  match prop entry (lit "status") with
  | Some (JStr s) => str_eqb s (lit "error")
  | _ => false
  end.

Definition result_key (entry : json) : jsstring :=
  keyFor (ToString_opt (prop entry (lit "type")))
         (ToString_opt (prop entry (lit "id"))).

(** [failedKeys]; [None] when reading [entry.status] of a [null] entry
    throws. *)
Definition failedKeys (results : list json) : option (gset (list N)) :=
  if existsb is_null results then None
  else Some (list_to_set (map result_key (List.filter status_is_error results))).

(** When [showResults] throws: the result panel is in the page and an entry
    of a non-empty [results] is [null]. *)
Definition showResults_throws (panel : bool) (results : list json) : bool :=
  panel && existsb is_null results.

(** [applySelections] up to the request: the guard, the flag, the payload
    ([overwrite] and the type, id and name of each selected entry). *)
Definition applySelections_request (overwrite : bool) (st : State)
  : option (State * (bool * list (jsstring * jsstring * jsstring))) :=
  if negb (Console.nonempty_list (selections st)) || isApplying st then None
  else
    Some (with_isApplying st true,
          (overwrite,
           map (fun entry => (entry_type entry, entry_id entry, entry_name entry))
             (selections st))).

(** The [try] block of [applySelections] from the response on; the state is
    the one at the time the last [await] returns.  [None] stands for the
    jump to [catch], which leaves what was assigned before. *)
Definition applySelections_try (response : FetchOutcome)
    (fetch : jsstring -> FetchOutcome) (panel : bool) (st : State) : State :=
  match fetched_payload response with
  | None => st
  | Some JNull => st
  | Some data =>
      let results :=
        match prop data (lit "results") with
        | Some (JArr l) => l
        | _ => []
        end in
      if showResults_throws panel results then st
      else
        let st1 :=
          match prop data (lit "ignore_keys") with
          | Some (JArr (k :: keys)) => with_ignoreSet st (new_Set (k :: keys))
          | _ => loadIgnoreLists fetch st
          end in
        match failedKeys results with
        | None => st1
        | Some failed =>
            with_selections st1
              (List.filter
                 (fun entry =>
                    bool_decide
                      (keyFor (entry_type entry) (entry_id entry) ∈ failed))
                 (selections st1))
        end
  end.

(** With the [finally] block. *)
Definition applySelections_response (response : FetchOutcome)
    (fetch : jsstring -> FetchOutcome) (panel : bool) (st : State) : State :=
  with_isApplying (applySelections_try response fetch panel st) false.

(** *** The catalog of the ignore page *)

Module Catalog.

(** [FACTORY_SOURCES] of this script, in the order [Object.entries] lists
    it. *)
Definition FACTORY_SOURCES : list (jsstring * Console.Source) :=
  [ (lit "JV_F_P", {| Console.label := lit "JV_F_P — каталоги";
                      Console.path := lit "../Fabriks/JV_F_P/factories.json" |});
    (lit "XL_F_P", {| Console.label := lit "XL_F_P — каталоги";
                      Console.path := lit "../Fabriks/XL_F_P/factories.json" |});
    (lit "JV_F_L", {| Console.label := lit "JV_F_L — листер";
                      Console.path := lit "../Fabriks/JV_F_L/collections.json" |});
    (lit "XL_F_L", {| Console.label := lit "XL_F_L — листер";
                      Console.path := lit "../Fabriks/XL_F_L/collections.json" |}) ].

(** [TYPE_LABELS[type] || type] *)
Definition label_or_type (type : jsstring) : jsstring :=
  match Console.TYPE_LABELS FACTORY_SOURCES type with
  | Some (c :: l) => c :: l
  | _ => type
  end.





Section LoadFactories.

(** The three [localeCompare] calls of the sort are left open: by type in
    the default locale, by name with the Russian, numeric, base-sensitivity
    options, by id with the Russian, numeric options. *)
Variables compare_type compare_name compare_id : jsstring -> jsstring -> Z.




End LoadFactories.

End Catalog.

(** [removeSelection]: [findIndex] then [splice(index, 1)]. *)
Fixpoint remove_first_entry (p : Entry -> bool) (l : list Entry)
  : option (list Entry) :=
  match l with
  | [] => None
  | entry :: l' =>
      if p entry then Some l'
      else option_map (cons entry) (remove_first_entry p l')
  end.

Definition removeSelection (type id : jsstring) (st : State) : State * bool :=
  match
    remove_first_entry
      (fun entry =>
         str_eqb (entry_type entry) type && str_eqb (entry_id entry) id)
      (selections st)
  with
  | None => (st, false)
  | Some rest => (with_selections st rest, true)
  end.

(** *** The picker of the ignore page *)

(** [s.includes(query)] *)
Fixpoint startsWith (query s : jsstring) : bool :=
  match query, s with
  | [], _ => true
  | q :: query', c :: s' => (q =? c) && startsWith query' s'
  | _ :: _, [] => false
  end.

Fixpoint includes (s query : jsstring) : bool :=
  startsWith query s ||
  match s with
  | [] => false
  | _ :: s' => includes s' query
  end.

Section Picker.

(** [String.prototype.toLowerCase] is left open. *)
Variable toLowerCase : jsstring -> jsstring.

(** The filter of [renderPickerList]; the three arguments are the values of
    the search box, the type select and the ignore select, [None] when the
    element is not in the page. *)
Definition picker_filter (search selectedType ignoreFilter : option jsstring)
    (st : State) : list Entry :=
  let query :=
    match search with
    | Some value => toLowerCase (trim value)
    | None => []
    end in
  let selectedType := default (lit "all") selectedType in
  let ignoreFilter := default (lit "all") ignoreFilter in
  List.filter
    (fun factory =>
       if negb (str_eqb selectedType (lit "all")) &&
          negb (str_eqb (entry_type factory) selectedType)
       then false
       else
         let alreadyIgnored :=
           bool_decide
             (keyFor (entry_type factory) (entry_id factory) ∈ ignoreSet st) in
         if str_eqb ignoreFilter (lit "new") && alreadyIgnored then false
         else if str_eqb ignoreFilter (lit "ignored") && negb alreadyIgnored
         then false
         else if negb (Console.nonempty query) then true
         else
           let lowerName := toLowerCase (entry_name factory) in
           includes lowerName query ||
           includes (toLowerCase (entry_id factory)) query)
    (factories st).

End Picker.

End AddIgnore.

(** ** What the specification says, in the terms of the scripts *)

Import Console AddIgnore.

Module Spec.

(** *** Quoting and assembly *)

Definition is_ascii_letter (c : N) : Prop := 65 <= c <= 90 \/ 97 <= c <= 122.
Definition is_ascii_digit (c : N) : Prop := 48 <= c <= 57.

(** The safe-character set of the specification. *)
Definition safe_char (c : N) : Prop :=
  is_ascii_letter c \/ is_ascii_digit c \/ In c (lit "_.@%+=:,/\-").

Definition quote_special (c : N) : Prop :=
  In c [DQUOTE; BACKSLASH; DOLLAR; BACKTICK].

Definition kill_special (c : N) : Prop := In c [BACKSLASH; DQUOTE].

(** [Escaped special s e]: [e] is [s] with one backslash put before each
    code unit of the set [special], and nothing else changed. *)
Inductive Escaped (special : N -> Prop) : jsstring -> jsstring -> Prop :=
  | Escaped_nil : Escaped special [] []
  | Escaped_special c s e :
      special c -> Escaped special s e ->
      Escaped special (c :: s) (BACKSLASH :: c :: e)
  | Escaped_plain c s e :
      ~ special c -> Escaped special s e ->
      Escaped special (c :: s) (c :: e).

(** The string form of a token that is there. *)
Definition token_text (t : Token) : option jsstring :=
  match t with
  | TUndefined | TNull => None
  | TStr s => Some s
  | TNum n => Some (String_of_number n)
  end.

(** The texts command assembly keeps, in order: the string forms of the
    tokens that are there and not empty. *)
Definition kept_texts (parts : list Token) : list jsstring :=
  flat_map
    (fun t => match token_text t with Some (c :: s) => [c :: s] | _ => [] end)
    parts.

(** *** Selection and the cleanup builder *)

(** A line of the cleanup command for one entry: the one-shot script with
    the escaped type, id and name between double quotes. *)
Definition kill_line_of (t i n : jsstring) : jsstring :=
  lit "python -c " ++ [DQUOTE] ++
  lit "from killFabriks import add_kill_fabriks; add_kill_fabriks(" ++
  [DQUOTE] ++ t ++ [DQUOTE] ++ lit ", " ++
  [DQUOTE] ++ i ++ [DQUOTE] ++ lit ", " ++
  [DQUOTE] ++ n ++ [DQUOTE] ++ lit ")" ++ [DQUOTE].

Definition KillLine (entry : Selection) (line : jsstring) : Prop :=
  exists t i n,
    Escaped kill_special (sel_type entry) t /\
    Escaped kill_special (sel_id entry) i /\
    Escaped kill_special (sel_name entry) n /\
    line = kill_line_of t i n.

(** What the page does to the selection, one click after the other. *)
Inductive SelectionOp : Type :=
  | Add (factory : option FactoryRecord)
  | Remove (type id : jsstring).

Definition apply_op (selections : list Selection) (op : SelectionOp)
  : list Selection :=
  match op with
  | Add factory => fst (addFactorySelection factory selections)
  | Remove type id => fst (removeFactorySelection type id selections)
  end.

Definition selections_after (ops : list SelectionOp) : list Selection :=
  fold_left apply_op ops [].

Definition identity (entry : Selection) : jsstring * jsstring :=
  (sel_type entry, sel_id entry).

Definition matches (type id : jsstring) (entry : Selection) : bool :=
  str_eqb (sel_type entry) type && str_eqb (sel_id entry) id.

(** Every entry of a selection the page can build has an id and a type, and
    no two share an identity. *)
Definition well_formed (selections : list Selection) : Prop :=
  Forall (fun e => sel_id e <> [] /\ sel_type e <> []) selections /\
  NoDup (map identity selections).

Definition entry_of (f : FactoryRecord) : Selection :=
  {| sel_type := rec_type f; sel_id := rec_id f;
     sel_name := rec_name f; sel_count := rec_itemCount f |}.

Definition cleanup_form (run : bool) : Form :=
  {| field_raw := fun _ => None;
     checked_values := fun _ => [];
     checkbox_checked := fun name => String.eqb name "run-cleanup" && run |}.

(** *** Integer fields *)

(** The form with the raw value of its [limit] field set ([None]: no such
    field). *)
Definition with_limit (form : Form) (raw : option jsstring) : Form :=
  {| field_raw := fun name => if String.eqb name "limit" then raw
                              else field_raw form name;
     checked_values := checked_values form;
     checkbox_checked := checkbox_checked form |}.

(** The four builders that have a [limit] field, by their token lists. *)
Definition limit_builders : list (Form -> list jsstring) :=
  [items_parts; exportProducts_parts; exportLister_parts; makeHTML_parts].

Definition empty_form : Form :=
  {| field_raw := fun _ => None;
     checked_values := fun _ => [];
     checkbox_checked := fun _ => false |}.

(** *** Catalog loader *)

(** A source succeeds when there is a 2xx response whose body is a JSON
    array; this is its payload. *)
Definition source_payload (o : FetchOutcome) : option (list json) :=
  match o with
  | Response true (Some (JArr payload)) => Some payload
  | _ => None
  end.

(** What a sweep over [sources] with the given outcomes should collect: the
    normalized entries of the sources that succeed, that is, for each
    element of a payload that normalizes to a record, that record, in
    payload order; and the labels of the sources that fail. *)
Fixpoint successful_entries (sources : list (jsstring * Source))
    (outcomes : list FetchOutcome) : list FactoryRecord :=
  match sources, outcomes with
  | (type, _) :: sources', o :: outcomes' =>
      match source_payload o with
      | Some payload => omap (normalizeFactoryRecord type) payload
      | None => []
      end ++ successful_entries sources' outcomes'
  | _, _ => []
  end.

Fixpoint failed_labels (sources : list (jsstring * Source))
    (outcomes : list FetchOutcome) : list jsstring :=
  match sources, outcomes with
  | (_, source) :: sources', o :: outcomes' =>
      match source_payload o with
      | Some _ => []
      | None => [label source]
      end ++ failed_labels sources' outcomes'
  | _, _ => []
  end.

Definition all_paths : list jsstring := map (fun s => path (snd s)) FACTORY_SOURCES.

Definition is_rejection (e : Event) : bool :=
  match e with SweepRejected _ => true | _ => false end.

(** The shape of every state the loader can be in. *)
Definition loader_ok (st : Loader) : Prop :=
  match activations st with
  | [] => factoriesLoaded st = true \/ factoriesPromise st = None
  | [sw] =>
      factoriesLoaded st = false /\
      factoriesPromise st = Some (sweep_id sw) /\
      awaiting sw <> [] /\
      (sweep_id sw < activations_made st)%nat
  | _ => False
  end.

(** The state a call leaves when it starts a sweep. *)
Definition sweep_started (st : Loader) : Loader :=
  {| cachedFactories := cachedFactories st;
     factoriesLoaded := factoriesLoaded st;
     factoriesPromise := Some (activations_made st);
     factoryLoadErrors := [];
     activations :=
       {| sweep_id := activations_made st; awaiting := FACTORY_SOURCES;
          collected := [] |}
       :: drop_activation (activations_made st) (activations st);
     fetch_log := fetch_log st ++ [lit "../Fabriks/JV_F_P/factories.json"];
     activations_made := S (activations_made st) |}.

(** One field changed and the rest kept. *)
Definition with_error (st : Loader) (l : jsstring) : Loader :=
  {| cachedFactories := cachedFactories st;
     factoriesLoaded := factoriesLoaded st;
     factoriesPromise := factoriesPromise st;
     factoryLoadErrors := factoryLoadErrors st ++ [l];
     activations := activations st;
     fetch_log := fetch_log st;
     activations_made := activations_made st |}.

(** The labels [fetch_settled] records, for any list of sources. *)
Fixpoint recorded_labels (sources : list (jsstring * Source))
    (outcomes : list FetchOutcome) : list jsstring :=
  match sources, outcomes with
  | (type, _) :: sources', o :: outcomes' =>
      match source_payload o with
      | Some _ => []
      | None => [label_or_type type]
      end ++ recorded_labels sources' outcomes'
  | _, _ => []
  end.

(** Every source is requested at most once as long as no sweep is
    rejected. *)
Definition fetched_once (st : Loader) : Prop :=
  match activations st with
  | [] =>
      (factoriesLoaded st = false /\ fetch_log st = []) \/
      (factoriesLoaded st = true /\ fetch_log st = all_paths)
  | [sw] =>
      fetch_log st ++ map (fun s => path (snd s)) (tl (awaiting sw)) = all_paths
  | _ => False
  end.

(** A comparator to run the loader with: code units, one after the other. *)
Fixpoint codeunit_compare (a b : jsstring) : Z :=
  match a, b with
  | [], [] => 0
  | [], _ :: _ => -1
  | _ :: _, [] => 1
  | x :: a', y :: b' =>
      if (x <? y)%N then -1 else if (y <? x)%N then 1 else codeunit_compare a' b'
  end%Z.

(** *** The ignore-list page *)

(** Identity of an entry of the ignore page and of an entry of the
    [results] array of the apply response. *)
Definition entry_identity (entry : Entry) : jsstring * jsstring :=
  (entry_type entry, entry_id entry).

Definition result_identity (r : json) : jsstring * jsstring :=
  (ToString_opt (prop r (lit "type")), ToString_opt (prop r (lit "id"))).

(** The results array of a response body. *)
Definition results_of (data : json) : list json :=
  match prop data (lit "results") with
  | Some (JArr l) => l
  | _ => []
  end.

(** A result whose status is the string error. *)
Definition error_status (r : json) : Prop :=
  prop r (lit "status") = Some (JStr (lit "error")).

(** An identity reported with status error. *)
Definition reported_failed (results : list json) (i : jsstring * jsstring) : Prop :=
  exists r, In r results /\ error_status r /\ result_identity r = i.






(** The ignore sources as one fetch function, and a page state to apply
    from. *)
Definition one_ignored (path : jsstring) : FetchOutcome :=
  if str_eqb path (lit "../Ignore/JV_P.json")
  then Response true (Some (JArr [JObj [(lit "id", JStr (lit "7"))]]))
  else Response false None.

Definition entry_a : Entry :=
  {| entry_type := lit "JV_F_P"; entry_id := lit "1";
     entry_name := lit "Alfa"; entry_itemCount := None |}.

Definition entry_b : Entry :=
  {| entry_type := lit "XL_F_P"; entry_id := lit "2";
     entry_name := lit "Beta"; entry_itemCount := Some 3%Z |}.

Definition entry_c : Entry :=
  {| entry_type := lit "XL_F_L"; entry_id := lit "3";
     entry_name := lit "Gamma"; entry_itemCount := None |}.

(** A response body: the first entry failed, the second was added, the
    third is not named. *)
Definition body_one_error : json :=
  JObj [(lit "results",
         JArr [JObj [(lit "type", JStr (lit "JV_F_P")); (lit "id", JStr (lit "1"));
                     (lit "status", JStr (lit "error"))];
               JObj [(lit "type", JStr (lit "XL_F_P")); (lit "id", JStr (lit "2"));
                     (lit "status", JStr (lit "added"))]])].



Definition page_with (l : list Entry) : State :=
  {| factories := []; selections := l; ignoreSet := ∅; loadErrors := [];
     isPickerOpen := false; isApplying := true |}.


(** *** Further properties: quoting and assembly *)

(** A reader of an escaped text: a backslash takes the next code unit with
    it; [true] when no code unit of the class is met outside such a pair and
    the text does not end on a lone backslash. *)
Fixpoint bare_free (special : N -> bool) (e : jsstring) : bool :=
  match e with
  | [] => true
  | c :: r =>
      if c =? BACKSLASH then
        match r with
        | [] => false
        | _ :: r' => bare_free special r'
        end
      else negb (special c) && bare_free special r
  end.

(** A token command assembly drops. *)
Definition absent (t : Token) : Prop :=
  t = TUndefined \/ t = TNull \/ t = TStr [].

(** *** Further properties: list and integer fields *)

(** An item as [parseList] gives it: not empty, trimmed, free of the
    separators. *)
Definition clean_item (x : jsstring) : Prop :=
  x <> [] /\ trim x = x /\ Forall (fun c => is_list_separator c = false) x.

(** White space that is not one of the list separators. *)
Definition blank_unit (c : N) : Prop :=
  is_white_space c = true /\ is_list_separator c = false.

(** *** Further properties: the cleanup builder and the selection *)

Definition is_dquote (c : N) : bool := c =? DQUOTE.

Definition backslash_or_dquote (c : N) : bool :=
  (c =? BACKSLASH) || (c =? DQUOTE).

(** A factory [addFactorySelection] accepts. *)
Definition addable (f : FactoryRecord) : Prop :=
  rec_id f <> [] /\ rec_type f <> [].

(** A factory whose item count, when it has one, is in the range in which
    numbers are exact. *)
Definition exact_count (f : FactoryRecord) : Prop :=
  match rec_itemCount f with
  | Some n => safe_integer n
  | None => True
  end.

(** *** Further properties: the builders *)

(** The form with one text field set ([None]: no such field), and with one
    checkbox set. *)
Definition with_field (form : Form) (field : string) (raw : option jsstring)
  : Form :=
  {| field_raw := fun name => if String.eqb name field then raw
                              else field_raw form name;
     checked_values := checked_values form;
     checkbox_checked := checkbox_checked form |}.

Definition with_checkbox (form : Form) (box : string) (checked : bool) : Form :=
  {| field_raw := field_raw form;
     checked_values := checked_values form;
     checkbox_checked := fun name => if String.eqb name box then checked
                                     else checkbox_checked form name |}.

(** The fields that have a default, by builder: the field and its
    default. *)
Definition defaulted_fields : list ((Form -> list jsstring) * string * jsstring) :=
  [ (fabrik_parts, "target", lit "all");
    (items_parts, "dataset", lit "all");
    (exportProducts_parts, "output-dir", lit "CSVDATA");
    (exportProducts_parts, "expprod", lit "3");
    (exportProducts_parts, "export-encoding", lit "1");
    (exportProducts_parts, "save-export-encoding", lit "1");
    (exportLister_parts, "output-dir", lit "CSVDATA");
    (exportLister_parts, "expprod", lit "3");
    (exportLister_parts, "export-encoding", lit "1");
    (makeHTML_parts, "input-base", lit "CSVDATA");
    (makeHTML_parts, "output-base", lit "readyhtml");
    (makeHTML_parts, "delimiter", lit ";") ]%string.

(** The checkboxes, by builder: the checkbox and its flag. *)
Definition toggles : list ((Form -> list jsstring) * string * jsstring) :=
  [ (login_parts, "verbose", lit "--verbose");
    (fabrik_parts, "verbose", lit "--verbose");
    (items_parts, "verbose", lit "--verbose");
    (exportProducts_parts, "skip-existing", lit "--skip-existing");
    (exportProducts_parts, "dry-run", lit "--dry-run");
    (exportProducts_parts, "verbose", lit "--verbose");
    (exportLister_parts, "skip-existing", lit "--skip-existing");
    (exportLister_parts, "dry-run", lit "--dry-run");
    (exportLister_parts, "verbose", lit "--verbose");
    (makeHTML_parts, "no-overwrite", lit "--no-overwrite");
    (makeHTML_parts, "verbose", lit "--verbose") ]%string.

(** The builders whose command is assembled from tokens. *)
Definition assembled_builders : list (string * (Form -> list jsstring)) :=
  [ ("login", login_parts); ("fabrik", fabrik_parts); ("items", items_parts);
    ("exportProducts", exportProducts_parts);
    ("exportLister", exportLister_parts); ("makeHTML", makeHTML_parts) ]%string.

(** A text that does not end in white space. *)
Definition tidy (s : jsstring) : Prop :=
  forall c, last s = Some c -> is_white_space c = false.

(** *** Further properties: the catalog loader *)

Definition source_type_names : list jsstring := map fst FACTORY_SOURCES.

Definition source_labels : list jsstring :=
  map (fun s => label (snd s)) FACTORY_SOURCES.

(** Records and labels that come from the configured sources, and a sweep
    that is somewhere along the list of sources. *)
Definition of_source (r : FactoryRecord) : Prop :=
  In (rec_type r) source_type_names.

Definition sweep_on_track (sw : Sweep) : Prop :=
  Forall of_source (collected sw) /\
  exists passed, FACTORY_SOURCES = passed ++ awaiting sw.

Definition loader_typed (st : Loader) : Prop :=
  Forall of_source (cachedFactories st) /\
  Forall sweep_on_track (activations st) /\
  Forall (fun l => In l source_labels) (factoryLoadErrors st).

(** A comparator that says the opposite when its arguments are swapped. *)
Definition sign_symmetric (cmp : jsstring -> jsstring -> Z) : Prop :=
  forall a b,
    ((0 < cmp a b)%Z -> (cmp b a < 0)%Z) /\ (cmp a b = 0%Z -> cmp b a = 0%Z).

(** The order of the catalog under a comparator. *)
Definition in_catalog_order (cmp : jsstring -> jsstring -> Z)
    (a b : FactoryRecord) : Prop :=
  (compareFactories cmp a b <= 0)%Z.

(** *** Further properties: the ignore page *)







(** What happens on the ignore page: a factory is picked, an entry is taken
    back, the apply button is clicked, the apply request is answered. *)
Inductive PageEvent : Type :=
  | Pick (factory : Entry)
  | Unpick (type id : jsstring)
  | ApplyClicked (overwrite : bool)
  | ApplyAnswered (response : FetchOutcome) (fetch : jsstring -> FetchOutcome)
      (panel : bool).

Definition page_step (st : State) (e : PageEvent) : State :=
  match e with
  | Pick factory => fst (addSelection factory st)
  | Unpick type id => fst (removeSelection type id st)
  | ApplyClicked overwrite =>
      match applySelections_request overwrite st with
      | Some (st', _) => st'
      | None => st
      end
  | ApplyAnswered response fetch panel =>
      if isApplying st
      then applySelections_response response fetch panel st
      else st
  end.

Definition page_run (events : list PageEvent) (st : State) : State :=
  fold_left page_step events st.

Definition is_answer (e : PageEvent) : bool :=
  match e with ApplyAnswered _ _ _ => true | _ => false end.

(** The payload entry of a selected entry. *)
Definition sent_entry (entry : Entry) : jsstring * jsstring * jsstring :=
  (entry_type entry, entry_id entry, entry_name entry).

(** A state of the ignore page with nothing selected and no request under
    way, and a lower-casing of the ASCII letters to run the picker with. *)
Definition idle_page (l : list Entry) (ignored : gset (list N)) : State :=
  {| factories := l; selections := []; ignoreSet := ignored; loadErrors := [];
     isPickerOpen := false; isApplying := false |}.

Definition ascii_lower (s : jsstring) : jsstring :=
  map (fun c => if (65 <=? c) && (c <=? 90) then c + 32 else c) s.

(** *** Further properties: the modals *)

(** What happens to the modals: an open button is clicked, a close button,
    the backdrop or the modal itself is clicked, a key goes down, the picker
    is opened or closed. *)
Inductive ModalEvent : Type :=
  | OpenClicked (id : jsstring)
  | CloseClicked
  | KeyDown (escape : bool)
  | PickerOpened
  | PickerClosed.

Definition modal_step (getElementById : jsstring -> bool) (backdrop : bool)
    (page : ModalPage) (e : ModalEvent) : ModalPage :=
  match e with
  | OpenClicked id => openModal getElementById backdrop id page
  | CloseClicked => closeModal backdrop page
  | KeyDown escape => keydown backdrop escape page
  | PickerOpened => openPicker page
  | PickerClosed => closePicker page
  end.

Definition modal_run (getElementById : jsstring -> bool) (backdrop : bool)
    (events : list ModalEvent) (page : ModalPage) : ModalPage :=
  fold_left (modal_step getElementById backdrop) events page.

(** The page as it is loaded: nothing open. *)
Definition closed_page : ModalPage :=
  {| open_elements := ∅; backdrop_open := false; activeModal := None;
     isFactoryPickerOpen := false |}.

(** The open class agrees with [activeModal] and the picker flag: an
    element that carries it is the active modal, or the picker while the
    picker flag is set; the active modal carries it, unless it is the picker
    element itself; the active modal is an element of the page, and the
    backdrop, when there is one, is open with it. *)
Definition modals_in_step (getElementById : jsstring -> bool) (backdrop : bool)
    (page : ModalPage) : Prop :=
  (forall x, x ∈ open_elements page ->
     activeModal page = Some x \/
     (x = PICKER_ID /\ isFactoryPickerOpen page = true)) /\
  (forall modal, activeModal page = Some modal -> modal <> PICKER_ID ->
     modal ∈ open_elements page) /\
  backdrop_open page =
    match activeModal page with
    | Some _ => backdrop
    | None => false
    end /\
  match activeModal page with
  | Some modal => getElementById modal = true
  | None => True
  end.

End Spec.

Import Spec.

(** ** The JavaScript primitives on small inputs *)

Example trim_both_ends : trim (lit "  a b	 ") = lit "a b".
Proof. vm_compute. reflexivity. Qed.

Example trim_no_break_space : trim [160; 120; 8233] = [120].
Proof. vm_compute. reflexivity. Qed.

Example parseInt10_samples :
  parseInt10 (lit " 42px") = Some 42%Z /\
  parseInt10 (lit "-17") = Some (-17)%Z /\
  parseInt10 (lit "+7.9") = Some 7%Z /\
  parseInt10 (lit "-0") = Some 0%Z /\
  parseInt10 (lit "abc") = None /\
  parseInt10 (lit "-") = None /\
  parseInt10 (lit "0x1F") = Some 0%Z /\
  parseInt10 [] = None.
Proof. vm_compute. repeat split; reflexivity. Qed.

Example String_of_number_samples :
  String_of_number 0 = lit "0" /\ String_of_number 1050 = lit "1050" /\
  String_of_number (-3) = lit "-3".
Proof. vm_compute. repeat split; reflexivity. Qed.

Example parseList_samples :
  parseList (lit "a, b;;c") = [lit "a"; lit "b"; lit "c"] /\
  parseList (lit ",x , ,y,") = [lit "x"; lit "y"] /\
  parseList ([10] ++ lit "one" ++ [13; 10] ++ lit "two") = [lit "one"; lit "two"] /\
  parseList [] = [].
Proof. vm_compute. repeat split; reflexivity. Qed.

Example ToString_samples :
  ToString (JArr [JNum 1; JNull; JStr (lit "x"); JArr []]) = lit "1,,x," /\
  ToString (JObj []) = lit "[object Object]" /\
  ToString_opt None = lit "undefined".
Proof. vm_compute. repeat split; reflexivity. Qed.

Example normalizeFactoryRecord_samples :
  normalizeFactoryRecord (lit "JV_F_P")
    (JObj [(lit "id", JNull); (lit "ID", JNum 15); (lit "name", JStr (lit "Orion"));
           (lit "total", JStr (lit " 40 pcs"))]) =
    Some {| rec_type := lit "JV_F_P"; rec_id := lit "15";
            rec_name := lit "Orion"; rec_itemCount := Some 40%Z |} /\
  normalizeFactoryRecord (lit "JV_F_P")
    (JObj [(lit "id", JStr []); (lit "ID", JNum 15)]) = None /\
  normalizeFactoryRecord (lit "JV_F_P") (JObj [(lit "name", JStr (lit "x"))]) = None /\
  normalizeFactoryRecord (lit "JV_F_P") (JStr (lit "15")) = None /\
  normalizeFactoryRecord (lit "JV_F_P")
    (JObj [(lit "id", JStr (lit "7")); (lit "count", JStr (lit "many"))]) =
    Some {| rec_type := lit "JV_F_P"; rec_id := lit "7";
            rec_name := []; rec_itemCount := None |}.
Proof. vm_compute. repeat split; reflexivity. Qed.

Example login_sample :
  login {| field_raw := fun _ => None;
           checked_values := fun name =>
             if String.eqb name "account" then [lit "bob"; lit "ann lee"] else [];
           checkbox_checked := fun name => String.eqb name "verbose" |} =
  lit "python Login.py --account bob --account " ++ [DQUOTE] ++ lit "ann lee" ++
  [DQUOTE] ++ lit " --verbose".
Proof. vm_compute. reflexivity. Qed.

(** ** Quoting *)


Lemma SAFE_VALUE_class_iff c : SAFE_VALUE_class c = true <-> safe_char c.
Proof.
  unfold SAFE_VALUE_class, safe_char, is_ascii_letter, is_ascii_digit, in_range.
  replace (lit "_.@%+=:,/\-") with [95; 46; 64; 37; 43; 61; 58; 44; 47; 92; 45]
    by (vm_compute; reflexivity).
  cbn [In].
  rewrite !orb_true_iff, !andb_true_iff, !N.leb_le, !N.eqb_eq.
  intuition (subst; auto; try lia).
Qed.

Lemma SAFE_VALUE_test_iff s :
  SAFE_VALUE_test s = true <-> s <> [] /\ Forall safe_char s.
Proof.
  unfold SAFE_VALUE_test. destruct s as [|c s].
  - split; [discriminate | intros [H _]; congruence].
  - rewrite forallb_forall, Forall_forall. split.
    + intros H. split; [discriminate|]. intros x Hx.
      apply SAFE_VALUE_class_iff, H, list_elem_of_In, Hx.
    + intros [_ H] x Hx. apply SAFE_VALUE_class_iff, H, list_elem_of_In, Hx.
Qed.

Lemma quote_special_class_iff c :
  quote_special_class c = true <-> quote_special c.
Proof.
  unfold quote_special_class, quote_special. cbn [In].
  rewrite !orb_true_iff, !N.eqb_eq. intuition congruence.
Qed.

Lemma replace_each_Escaped (cls : N -> bool) (special : N -> Prop) :
  (forall c, cls c = true <-> special c) ->
  forall s, Escaped special s (replace_each cls (fun c => [BACKSLASH; c]) s).
Proof.
  intros Hcls. induction s as [|c s IH]; cbn.
  - constructor.
  - destruct (cls c) eqn:E; cbn.
    + apply Escaped_special; [apply Hcls, E | exact IH].
    + apply Escaped_plain; [rewrite <- Hcls, E; discriminate | exact IH].
Qed.

Lemma startsWith_hyphen_iff s :
  startsWith_hyphen s = true <-> exists r, s = HYPHEN :: r.
Proof.
  destruct s as [|c r]; cbn.
  - split; [discriminate | intros [? ?]; discriminate].
  - rewrite N.eqb_eq. split; [intros ->; eauto | intros [? [= -> _]]; reflexivity].
Qed.

Lemma shellQuote_text t s :
  token_text t = Some s ->
  shellQuote t =
    if negb (nonempty s) then []
    else if startsWith_hyphen s then s
    else if SAFE_VALUE_test s then s
    else [DQUOTE] ++
         replace_each quote_special_class (fun c => [BACKSLASH; c]) s ++ [DQUOTE].
Proof. destruct t; cbn; intros [= <-]; reflexivity. Qed.

(** C1. Shell quoting: an absent or empty token gives the empty string; a
    token whose string form starts with a hyphen is returned as it is,
    whatever else it holds; a non-empty token made of safe characters only is
    returned as it is; every other token comes back between double quotes,
    with one backslash before each double quote, backslash, dollar sign and
    backtick and nothing else changed. *)
Theorem shellQuote_spec :
  shellQuote TUndefined = [] /\ shellQuote TNull = [] /\ shellQuote (TStr []) = [] /\
  forall (t : Token) (s : jsstring), token_text t = Some s ->
    (forall r, s = HYPHEN :: r -> shellQuote t = s) /\
    (s <> [] -> Forall safe_char s -> shellQuote t = s) /\
    (s <> [] -> (forall r, s <> HYPHEN :: r) -> ~ Forall safe_char s ->
     exists e, Escaped quote_special s e /\
               shellQuote t = [DQUOTE] ++ e ++ [DQUOTE]).
Proof.
  do 3 (split; [reflexivity|]).
  intros t s Ht. rewrite (shellQuote_text t s Ht). repeat split.
  - intros r ->. reflexivity.
  - intros Hne Hsafe.
    destruct s as [|c s]; [congruence|]. cbn [nonempty negb].
    destruct (startsWith_hyphen (c :: s)); [reflexivity|].
    rewrite (proj2 (SAFE_VALUE_test_iff (c :: s))); [reflexivity | now split].
  - intros Hne Hflag Hunsafe.
    destruct s as [|c s]; [congruence|]. cbn [nonempty negb].
    destruct (startsWith_hyphen (c :: s)) eqn:Eh.
    { apply startsWith_hyphen_iff in Eh as [r Hr]. destruct (Hflag r Hr). }
    destruct (SAFE_VALUE_test (c :: s)) eqn:Es.
    { apply SAFE_VALUE_test_iff in Es as [_ Hs]. destruct (Hunsafe Hs). }
    eexists. split; [|reflexivity].
    apply replace_each_Escaped, quote_special_class_iff.
Qed.

Lemma shellQuote_spec_witness :
  exists e, Escaped quote_special (lit "it's " ++ [DQUOTE] ++ lit "quoted" ++ [DQUOTE]) e /\
    shellQuote (TStr (lit "it's " ++ [DQUOTE] ++ lit "quoted" ++ [DQUOTE])) =
      [DQUOTE] ++ e ++ [DQUOTE].
Proof.
  apply (proj2 (proj2
           (proj2 (proj2 (proj2 shellQuote_spec))
              (TStr (lit "it's " ++ [DQUOTE] ++ lit "quoted" ++ [DQUOTE])) _
              eq_refl))).
  - discriminate.
  - intros r; discriminate.
  - intros H. apply Forall_inv_tail in H. apply Forall_inv_tail in H.
    apply Forall_inv in H. apply SAFE_VALUE_class_iff in H. discriminate H.
Defined.

Example shellQuote_quoted :
  shellQuote (TStr (lit "it's " ++ [DQUOTE] ++ lit "quoted" ++ [DQUOTE])) =
  [DQUOTE] ++ lit "it's \" ++ [DQUOTE] ++ lit "quoted\" ++ [DQUOTE; DQUOTE].
Proof. reflexivity. Qed.

(** *** Command assembly *)

Lemma uint_units_digits d : Forall (fun c => is_digit c = true) (uint_units d).
Proof. induction d; cbn; constructor; auto. Qed.

Lemma uint_units_nonnil d : d <> Decimal.Nil -> uint_units d <> [].
Proof. destruct d; cbn; congruence. Qed.

Lemma is_digit_safe c : is_digit c = true -> SAFE_VALUE_class c = true.
Proof. unfold SAFE_VALUE_class, is_digit. intros ->. reflexivity. Qed.

Lemma safe_not_white_space c :
  SAFE_VALUE_class c = true -> is_white_space c = false.
Proof.
  unfold SAFE_VALUE_class, is_white_space, is_line_terminator, in_range.
  rewrite !orb_true_iff, !andb_true_iff, !N.leb_le, !N.eqb_eq. intros H.
  repeat (apply orb_false_intro); try apply andb_false_iff;
    rewrite ?N.eqb_neq, ?N.leb_gt; lia.
Qed.

Lemma safe_not_line_terminator c :
  SAFE_VALUE_class c = true -> is_line_terminator c = false.
Proof.
  intros H. apply safe_not_white_space in H. unfold is_white_space in H.
  apply orb_false_elim in H. tauto.
Qed.

Lemma join_cons sep x y l : join sep (x :: y :: l) = x ++ sep ++ join sep (y :: l).
Proof. reflexivity. Qed.

Lemma joinCommand_pipeline parts :
  joinCommand parts =
  join [SPACE] (map (fun s => shellQuote (TStr s)) (kept_texts parts)).
Proof.
  unfold joinCommand, kept_texts. f_equal.
  induction parts as [|t parts IH]; [reflexivity|].
  cbn [map flat_map List.filter]. rewrite map_app, <- IH.
  destruct t as [| |s|n]; cbn [token_text]; try reflexivity.
  - destruct s; reflexivity.
  - destruct (String_of_number n); reflexivity.
Qed.

Lemma kept_texts_nonempty parts s : In s (kept_texts parts) -> s <> [].
Proof.
  unfold kept_texts. rewrite in_flat_map. intros (t & _ & H).
  destruct (token_text t) as [[|c r]|]; cbn in H; try tauto.
  destruct H as [<-|[]]. discriminate.
Qed.

(** What a quoted text begins and ends with. *)
Lemma shellQuote_head s c :
  head (shellQuote (TStr s)) = Some c -> is_white_space c = false.
Proof.
  rewrite (shellQuote_text (TStr s) s eq_refl).
  destruct s as [|c0 s]; [discriminate|]. cbn [nonempty negb].
  destruct (startsWith_hyphen (c0 :: s)) eqn:Eh.
  - cbn in Eh. apply N.eqb_eq in Eh. subst. intros [= <-]. reflexivity.
  - destruct (SAFE_VALUE_test (c0 :: s)) eqn:Es.
    + cbn in Es. apply andb_true_iff in Es as [Es _].
      intros [= <-]. now apply safe_not_white_space.
    + intros [= <-]. reflexivity.
Qed.

Lemma shellQuote_last s c :
  last (shellQuote (TStr s)) = Some c -> is_white_space c = true ->
  startsWith_hyphen s = true /\ last s = Some c.
Proof.
  rewrite (shellQuote_text (TStr s) s eq_refl).
  destruct s as [|c0 s]; [discriminate|]. cbn [nonempty negb].
  destruct (startsWith_hyphen (c0 :: s)) eqn:Eh; [now split|].
  destruct (SAFE_VALUE_test (c0 :: s)) eqn:Es.
  - intros Hl Hw. exfalso.
    apply SAFE_VALUE_test_iff in Es as [_ Hs].
    rewrite Forall_forall in Hs.
    assert (Hin : In c (c0 :: s)).
    { apply list_elem_of_In. apply last_Some_elem_of. exact Hl. }
    apply list_elem_of_In, Hs, SAFE_VALUE_class_iff, safe_not_white_space in Hin.
    congruence.
  - rewrite app_assoc, last_snoc. intros [= <-]. discriminate.
Qed.

Lemma shellQuote_nonempty s : s <> [] -> shellQuote (TStr s) <> [].
Proof.
  rewrite (shellQuote_text (TStr s) s eq_refl).
  destruct s as [|c0 s]; [congruence|]. intros _. cbn [nonempty negb].
  destruct (startsWith_hyphen (c0 :: s)); [discriminate|].
  destruct (SAFE_VALUE_test (c0 :: s)); discriminate.
Qed.

Lemma shellQuote_units s c :
  In c (shellQuote (TStr s)) -> c = DQUOTE \/ c = BACKSLASH \/ In c s.
Proof.
  rewrite (shellQuote_text (TStr s) s eq_refl).
  destruct (negb (nonempty s)); [intros []|].
  destruct (startsWith_hyphen s); [tauto|].
  destruct (SAFE_VALUE_test s); [tauto|].
  rewrite !in_app_iff. cbn [In]. unfold replace_each. rewrite in_flat_map.
  intros [[<-|[]]|[(x & Hx & Hc)|[<-|[]]]]; auto.
  destruct (quote_special_class x); cbn in Hc; intuition (subst; auto).
Qed.

Lemma head_join sep (l : list jsstring) :
  Forall (fun x => x <> []) l ->
  head (join sep l) = match l with x :: _ => head x | [] => None end.
Proof.
  destruct l as [|x [|y l]]; [reflexivity..|].
  intros H. apply Forall_inv in H. rewrite join_cons.
  destruct x; [congruence | reflexivity].
Qed.

Lemma last_join sep (l : list jsstring) :
  Forall (fun x => x <> []) l ->
  last (join sep l) = match last l with Some x => last x | None => None end.
Proof.
  induction l as [|x [|y l] IH]; [reflexivity..|].
  intros H. rewrite join_cons, !last_app, IH by (eapply Forall_inv_tail, H).
  change (last (x :: y :: l)) with (last (y :: l)).
  assert (Hl : exists z, last (y :: l) = Some z /\ z <> []).
  { apply Forall_inv_tail in H.
    destruct (last (y :: l)) as [z|] eqn:E.
    - exists z. split; [reflexivity|].
      rewrite Forall_forall in H. apply H, last_Some_elem_of, E.
    - apply last_None in E. discriminate. }
  destruct Hl as (z & -> & Hz).
  destruct (last z) eqn:E; [reflexivity|]. apply last_None in E. congruence.
Qed.

Lemma last_map {A B} (f : A -> B) (l : list A) :
  last (map f l) = option_map f (last l).
Proof.
  induction l as [|x [|y l] IH]; [reflexivity..|].
  change (last (map f (x :: y :: l))) with (last (map f (y :: l))).
  rewrite IH. reflexivity.
Qed.

Lemma join_units sep (l : list jsstring) c :
  In c (join sep l) -> In c sep \/ exists x, In x l /\ In c x.
Proof.
  induction l as [|x [|y l] IH].
  - intros [].
  - cbn. eauto.
  - rewrite join_cons, !in_app_iff. intros [H|[H|H]]; [right|left|].
    + exists x. split; [left|]; auto.
    + exact H.
    + destruct (IH H) as [|(z & Hz & Hc)]; [auto|].
      right. exists z. split; [right|]; auto.
Qed.

(** C2, as amended. Command assembly turns numbers into their decimal text,
    drops absent and empty entries, quotes every remaining text and joins
    them with single spaces.  The line never begins with white space; it
    ends with white space only when the last remaining text begins with a
    hyphen and itself ends with that white space; it holds a line break
    only when a remaining text does.  The login example of the
    specification comes out as written. *)
Theorem joinCommand_spec :
  (forall parts : list Token,
     joinCommand parts =
       join [SPACE] (map (fun s => shellQuote (TStr s)) (kept_texts parts)) /\
     (forall c, head (joinCommand parts) = Some c -> is_white_space c = false) /\
     (forall c, last (joinCommand parts) = Some c -> is_white_space c = true ->
        exists s, last (kept_texts parts) = Some s /\
                  startsWith_hyphen s = true /\ last s = Some c) /\
     (forall c, In c (joinCommand parts) -> is_line_terminator c = true ->
        exists s, In s (kept_texts parts) /\ In c s)) /\
  joinCommand
    [TStr (lit "python"); TStr (lit "Login.py"); TStr (lit "--account");
     TStr (lit "bob"); TStr (lit "--verbose")] =
  lit "python Login.py --account bob --verbose".
Proof.
  split; [|reflexivity].
  intros parts. rewrite joinCommand_pipeline.
  assert (Hne : Forall (fun x : jsstring => x <> [])
                  (map (fun s => shellQuote (TStr s)) (kept_texts parts))).
  { rewrite Forall_forall. intros x Hx.
    apply list_elem_of_In, in_map_iff in Hx as (s & <- & Hs).
    eapply shellQuote_nonempty, kept_texts_nonempty, Hs. }
  repeat split.
  - intros c. rewrite head_join by exact Hne.
    destruct (kept_texts parts) as [|s l]; [discriminate|].
    apply shellQuote_head.
  - intros c. rewrite last_join by exact Hne.
    rewrite last_map.
    destruct (last (kept_texts parts)) as [s|]; [|discriminate].
    cbn. intros Hl Hw. exists s. split; [reflexivity|].
    now apply shellQuote_last.
  - intros c Hc Ht. apply join_units in Hc as [[<-|[]]|(x & Hx & Hc)].
    + discriminate Ht.
    + apply in_map_iff in Hx as (s & <- & Hs).
      apply shellQuote_units in Hc as [->|[->|Hc]]; try discriminate Ht.
      eauto.
Qed.

Lemma joinCommand_spec_witness :
  last (joinCommand [TStr (lit "ls"); TStr (lit "-l ")]) = Some SPACE /\
  exists s, last (kept_texts [TStr (lit "ls"); TStr (lit "-l ")]) = Some s /\
            startsWith_hyphen s = true /\ last s = Some SPACE.
Proof.
  split; [reflexivity|].
  apply (proj1 (proj2 (proj2
           (proj1 joinCommand_spec [TStr (lit "ls"); TStr (lit "-l ")])))
           SPACE); reflexivity.
Defined.

(** C2 as first written fails: a flag-like token is never quoted, so white
    space at its end stays at the end of the line. *)
Lemma joinCommand_trailing_space :
  ~ (forall parts c,
       last (joinCommand parts) = Some c -> is_white_space c = false).
Proof.
  intros H.
  specialize (H [TStr (lit "ls"); TStr (lit "-l ")] SPACE eq_refl).
  discriminate H.
Qed.

Example joinCommand_flag_with_space :
  joinCommand [TStr (lit "ls"); TStr (lit "-l ")] = lit "ls -l ".
Proof. reflexivity. Qed.

Example joinCommand_numbers_and_gaps :
  joinCommand [TStr (lit "run"); TNull; TNum 25; TStr []; TUndefined;
               TNum (-3); TStr (lit "a b")] =
  lit "run 25 -3 " ++ [DQUOTE] ++ lit "a b" ++ [DQUOTE].
Proof. reflexivity. Qed.

(** *** Selection state: what every reachable selection satisfies *)

Lemma str_eqb_eq a b : str_eqb a b = true <-> a = b.
Proof.
  revert b. induction a as [|x a IH]; intros [|y b]; cbn;
    try (split; [discriminate | congruence]); [tauto|].
  rewrite andb_true_iff, N.eqb_eq, IH. split; [intros [-> ->] | intros [= -> ->]]; auto.
Qed.

Lemma str_eqb_refl a : str_eqb a a = true.
Proof. now apply str_eqb_eq. Qed.

Lemma str_eqb_neq a b : str_eqb a b = false <-> a <> b.
Proof.
  rewrite <- str_eqb_eq. destruct (str_eqb a b); split; congruence.
Qed.

Lemma nonempty_iff s : nonempty s = true <-> s <> [].
Proof. destruct s; cbn; split; congruence. Qed.

Lemma isFactorySelected_iff type id selections :
  isFactorySelected type id selections = true <->
  In (type, id) (map identity selections).
Proof.
  unfold isFactorySelected. rewrite existsb_exists, in_map_iff.
  split; intros (e & H1 & H2); exists e.
  - apply andb_true_iff in H2 as [Ht Hi].
    apply str_eqb_eq in Ht, Hi. unfold identity. now subst.
  - injection H1 as <- <-. rewrite !str_eqb_refl. auto.
Qed.

Lemma matches_iff type id entry :
  matches type id entry = true <-> identity entry = (type, id).
Proof.
  unfold matches, identity. rewrite andb_true_iff, !str_eqb_eq.
  split; [intros [-> ->] | intros [= -> ->]]; auto.
Qed.

Lemma remove_first_None p l :
  remove_first p l = None <-> Forall (fun e => p e = false) l.
Proof.
  induction l as [|e l IH]; cbn.
  - split; auto.
  - destruct (p e) eqn:E.
    + split; [discriminate|]. intros H. apply Forall_inv in H. congruence.
    + destruct (remove_first p l); cbn.
      * split; [discriminate|]. intros H. apply Forall_inv_tail, IH in H.
        discriminate.
      * split; [|reflexivity]. intros _. constructor; [exact E | now apply IH].
Qed.

Lemma remove_first_Some p l rest :
  remove_first p l = Some rest ->
  exists before entry after,
    l = before ++ entry :: after /\ rest = before ++ after /\
    p entry = true /\ Forall (fun e => p e = false) before.
Proof.
  revert rest. induction l as [|e l IH]; cbn; [discriminate|]. intros rest.
  destruct (p e) eqn:E.
  - intros [= <-]. exists [], e, l. auto.
  - destruct (remove_first p l) as [r|]; cbn; [|discriminate].
    intros [= <-]. destruct (IH r eq_refl) as (b & x & a & -> & -> & Hx & Hb).
    exists (e :: b), x, a. repeat split; auto.
Qed.

Lemma not_matching_iff type id l :
  Forall (fun e => matches type id e = false) l <->
  ~ In (type, id) (map identity l).
Proof.
  rewrite Forall_forall, in_map_iff. split.
  - intros H (e & He & Hin). apply matches_iff in He.
    rewrite (H e) in He by (apply list_elem_of_In, Hin). discriminate.
  - intros H e He. destruct (matches type id e) eqn:E; [|reflexivity].
    destruct H. exists e. split; [now apply matches_iff | now apply list_elem_of_In].
Qed.

Lemma addFactorySelection_well_formed factory selections :
  well_formed selections ->
  well_formed (fst (addFactorySelection factory selections)).
Proof.
  intros [Hf Hn]. unfold addFactorySelection.
  destruct factory as [f|]; [|now split].
  destruct (nonempty (rec_id f)) eqn:Ei; [|now split].
  destruct (nonempty (rec_type f)) eqn:Et; [|now split].
  cbn [negb orb].
  destruct (isFactorySelected (rec_type f) (rec_id f) selections) eqn:Es;
    [now split|].
  cbn [fst]. split.
  - apply Forall_app. split; [exact Hf|].
    constructor; [|constructor]. cbn. split; now apply nonempty_iff.
  - rewrite map_app. cbn [map]. apply NoDup_app. repeat split; auto.
    + intros x Hx. unfold identity at 1. cbn. intros Hx'.
      apply list_elem_of_In in Hx'. destruct Hx' as [<-|[]].
      apply list_elem_of_In, isFactorySelected_iff in Hx. congruence.
    + apply NoDup_singleton.
Qed.

Lemma removeFactorySelection_well_formed type id selections :
  well_formed selections ->
  well_formed (fst (removeFactorySelection type id selections)).
Proof.
  intros [Hf Hn]. unfold removeFactorySelection.
  fold (matches type id).
  destruct (remove_first (matches type id) selections) as [rest|] eqn:E;
    [|now split].
  apply remove_first_Some in E as (b & x & a & -> & -> & _ & _). cbn [fst].
  split.
  - apply Forall_app in Hf as [Hb Ha]. apply Forall_app. split; [exact Hb|].
    eapply Forall_inv_tail, Ha.
  - rewrite map_app in *. cbn [map] in Hn.
    apply NoDup_app in Hn as (Hb & Hd & Ha). apply NoDup_app.
    repeat split; auto.
    + intros y Hy Hy'. apply (Hd y Hy). now right.
    + now apply NoDup_cons in Ha as [_ Ha].
Qed.

Lemma selections_after_well_formed ops : well_formed (selections_after ops).
Proof.
  unfold selections_after.
  assert (H : well_formed []) by (split; constructor).
  revert H. generalize (@nil Selection).
  induction ops as [|op ops IH]; intros l Hl; [exact Hl|].
  cbn [fold_left]. apply IH. destruct op; cbn [apply_op].
  - now apply addFactorySelection_well_formed.
  - now apply removeFactorySelection_well_formed.
Qed.

(** C6, as amended. Adding an entry whose identity is already selected, or
    one without an id or without a type, is refused and leaves the selection
    as it is; adding an entry that has an id and a type and a fresh identity
    puts it at the end and reports it added; adding the same entry a second
    time is always refused and changes nothing. *)
Theorem addFactorySelection_spec (f : FactoryRecord) (selections : list Selection) :
  (In (rec_type f, rec_id f) (map identity selections) ->
   addFactorySelection (Some f) selections = (selections, false)) /\
  (rec_id f = [] \/ rec_type f = [] ->
   addFactorySelection (Some f) selections = (selections, false)) /\
  (rec_id f <> [] -> rec_type f <> [] ->
   ~ In (rec_type f, rec_id f) (map identity selections) ->
   addFactorySelection (Some f) selections = (selections ++ [entry_of f], true)) /\
  (let after := fst (addFactorySelection (Some f) selections) in
   addFactorySelection (Some f) after = (after, false)).
Proof.
  unfold addFactorySelection. repeat split.
  - intros H. apply isFactorySelected_iff in H. rewrite H.
    destruct (_ || _); reflexivity.
  - intros [-> | ->]; cbn; [reflexivity|]. now rewrite orb_true_r.
  - intros Hi Ht Hfresh.
    apply nonempty_iff in Hi, Ht. rewrite Hi, Ht. cbn [negb orb].
    destruct (isFactorySelected _ _ selections) eqn:E; [|reflexivity].
    apply isFactorySelected_iff in E. tauto.
  - cbv zeta.
    destruct (negb (nonempty (rec_id f)) || negb (nonempty (rec_type f)));
      cbn [fst]; [reflexivity|].
    destruct (isFactorySelected _ _ selections) eqn:E; cbn [fst].
    + now rewrite E.
    + replace (isFactorySelected (rec_type f) (rec_id f) (selections ++ _))
        with true; [reflexivity|].
      symmetry. apply isFactorySelected_iff. rewrite map_app, in_app_iff.
      right. now left.
Qed.

Lemma addFactorySelection_spec_witness :
  addFactorySelection
    (Some {| rec_type := lit "JV_F_P"; rec_id := lit "17";
             rec_name := lit "Alfa"; rec_itemCount := Some 4%Z |}) [] =
  ([{| sel_type := lit "JV_F_P"; sel_id := lit "17";
       sel_name := lit "Alfa"; sel_count := Some 4%Z |}], true).
Proof.
  apply (proj1 (proj2 (proj2
           (addFactorySelection_spec
              {| rec_type := lit "JV_F_P"; rec_id := lit "17";
                 rec_name := lit "Alfa"; rec_itemCount := Some 4%Z |} [])))).
  - discriminate.
  - discriminate.
  - intros [].
Defined.

(** C6 as first written fails: an entry without an id has a fresh identity
    and is still not added. *)
Lemma addFactorySelection_empty_id_refused :
  ~ (forall (f : FactoryRecord) (selections : list Selection),
       ~ In (rec_type f, rec_id f) (map identity selections) ->
       addFactorySelection (Some f) selections =
         (selections ++ [entry_of f], true)).
Proof.
  intros H.
  specialize (H {| rec_type := lit "JV_F_P"; rec_id := [];
                   rec_name := lit "Alfa"; rec_itemCount := None |} []
                (fun x => x)).
  discriminate H.
Qed.

(** C7. Removing an identity that is not selected is reported as not found
    and changes nothing; removing one that is selected takes out the first
    entry of that identity, which is the only one in every selection the
    page can build, keeps the others in their order, and is reported as
    removed; names and counts play no part. *)
Theorem removeFactorySelection_spec (type id : jsstring)
    (selections : list Selection) :
  (~ In (type, id) (map identity selections) ->
   removeFactorySelection type id selections = (selections, false)) /\
  (In (type, id) (map identity selections) ->
   exists before entry after,
     selections = before ++ entry :: after /\
     identity entry = (type, id) /\
     ~ In (type, id) (map identity before) /\
     removeFactorySelection type id selections = (before ++ after, true) /\
     (NoDup (map identity selections) ->
      ~ In (type, id) (map identity (before ++ after)))) /\
  (forall relabel : Selection -> Selection,
     (forall e, identity (relabel e) = identity e) ->
     removeFactorySelection type id (map relabel selections) =
       (map relabel (fst (removeFactorySelection type id selections)),
        snd (removeFactorySelection type id selections))).
Proof.
  unfold removeFactorySelection. fold (matches type id). repeat split.
  - intros H. apply not_matching_iff, remove_first_None in H. now rewrite H.
  - intros H.
    destruct (remove_first (matches type id) selections) as [rest|] eqn:E.
    + apply remove_first_Some in E as (b & x & a & -> & -> & Hx & Hb).
      exists b, x, a. repeat split; auto.
      * now apply matches_iff.
      * now apply not_matching_iff.
      * intros Hn Hin. rewrite map_app in *. cbn [map] in Hn.
        apply matches_iff in Hx. rewrite Hx in Hn.
        apply NoDup_app in Hn as (_ & Hd & Ha).
        apply NoDup_cons in Ha as [Ha _].
        apply in_app_iff in Hin as [Hin|Hin].
        -- apply list_elem_of_In in Hin. apply (Hd _ Hin). now left.
        -- now apply list_elem_of_In in Hin.
    + apply remove_first_None, not_matching_iff in E. tauto.
  - intros relabel Hr.
    assert (Hm : forall e, matches type id (relabel e) = matches type id e).
    { intros e. specialize (Hr e). unfold identity in Hr. injection Hr as Ht Hi.
      unfold matches. now rewrite Ht, Hi. }
    assert (H : remove_first (matches type id) (map relabel selections) =
                option_map (map relabel)
                  (remove_first (matches type id) selections)).
    { induction selections as [|e l IH]; [reflexivity|]. cbn.
      rewrite Hm. destruct (matches type id e); [reflexivity|].
      rewrite IH. now destruct (remove_first (matches type id) l). }
    rewrite H. now destruct (remove_first (matches type id) selections).
Qed.

Lemma removeFactorySelection_spec_witness :
  removeFactorySelection (lit "JV_F_P") (lit "99")
    [{| sel_type := lit "JV_F_P"; sel_id := lit "17";
        sel_name := lit "Alfa"; sel_count := None |}] =
  ([{| sel_type := lit "JV_F_P"; sel_id := lit "17";
       sel_name := lit "Alfa"; sel_count := None |}], false).
Proof.
  apply (proj1 (removeFactorySelection_spec (lit "JV_F_P") (lit "99")
                  [{| sel_type := lit "JV_F_P"; sel_id := lit "17";
                      sel_name := lit "Alfa"; sel_count := None |}])).
  intros [H|[]]. discriminate H.
Defined.

Example removeFactorySelection_middle :
  removeFactorySelection (lit "XL_F_P") (lit "2")
    [{| sel_type := lit "JV_F_P"; sel_id := lit "2";
        sel_name := lit "A"; sel_count := None |};
     {| sel_type := lit "XL_F_P"; sel_id := lit "2";
        sel_name := lit "B"; sel_count := Some 3%Z |};
     {| sel_type := lit "XL_F_P"; sel_id := lit "5";
        sel_name := lit "C"; sel_count := None |}] =
  ([{| sel_type := lit "JV_F_P"; sel_id := lit "2";
       sel_name := lit "A"; sel_count := None |};
    {| sel_type := lit "XL_F_P"; sel_id := lit "5";
       sel_name := lit "C"; sel_count := None |}], true).
Proof. reflexivity. Qed.

(** *** The cleanup builder *)

Lemma replace_each_app cls r a b :
  replace_each cls r (a ++ b) = replace_each cls r a ++ replace_each cls r b.
Proof. unfold replace_each. apply flat_map_app. Qed.

Lemma escapeDoubleQuotes_one_pass s :
  escapeDoubleQuotes s =
  replace_each (fun c => (c =? BACKSLASH) || (c =? DQUOTE))
    (fun c => [BACKSLASH; c]) s.
Proof.
  unfold escapeDoubleQuotes. induction s as [|c s IH]; [reflexivity|].
  change (c :: s) with ([c] ++ s).
  rewrite !(replace_each_app _ _ [c] s), replace_each_app, IH. f_equal.
  cbn. destruct (c =? BACKSLASH) eqn:Eb.
  - apply N.eqb_eq in Eb. subst. reflexivity.
  - cbn. destruct (c =? DQUOTE) eqn:Eq; [|reflexivity].
    apply N.eqb_eq in Eq. subst. reflexivity.
Qed.

Lemma escapeDoubleQuotes_Escaped s :
  Escaped kill_special s (escapeDoubleQuotes s).
Proof.
  rewrite escapeDoubleQuotes_one_pass. apply replace_each_Escaped.
  intros c. unfold kill_special. cbn [In].
  rewrite orb_true_iff, !N.eqb_eq. intuition congruence.
Qed.

Lemma buildKillAddCommand_line type id name :
  id <> [] ->
  buildKillAddCommand type id name =
  kill_line_of (escapeDoubleQuotes type) (escapeDoubleQuotes id)
    (escapeDoubleQuotes name).
Proof.
  intros H. unfold buildKillAddCommand, kill_line_of.
  destruct id as [|c id]; [congruence|].
  repeat rewrite <- app_assoc. reflexivity.
Qed.

Lemma kill_line_of_nonempty t i n : nonempty (kill_line_of t i n) = true.
Proof. reflexivity. Qed.

Lemma kill_lines selections :
  Forall (fun e => sel_id e <> [] /\ sel_type e <> []) selections ->
  exists lines,
    Forall2 KillLine selections lines /\
    flat_map
      (fun entry =>
         if nonempty
              (buildKillAddCommand (sel_type entry) (sel_id entry)
                 (sel_name entry))
         then [buildKillAddCommand (sel_type entry) (sel_id entry)
                 (sel_name entry)]
         else [])
      selections = lines.
Proof.
  induction 1 as [|e l [Hi _] _ (lines & Hl & IH)].
  - exists []. split; [constructor | reflexivity].
  - exists (kill_line_of (escapeDoubleQuotes (sel_type e))
              (escapeDoubleQuotes (sel_id e)) (escapeDoubleQuotes (sel_name e))
            :: lines).
    split.
    + constructor; [|exact Hl].
      do 3 eexists. repeat split; apply escapeDoubleQuotes_Escaped.
    + cbn [flat_map].
      rewrite buildKillAddCommand_line by exact Hi.
      rewrite kill_line_of_nonempty. cbn [app]. f_equal. exact IH.
Qed.

(** C3. With nothing selected and the toggle off, the cleanup builder gives
    the fixed default command.  Otherwise it gives the default command first
    exactly when the toggle is on, then one line for each selected entry in
    insertion order, the type, id and name in it with a backslash before
    each backslash and double quote and nothing else changed, all joined by
    newlines.  This holds for every selection the page can build. *)
Theorem killFabriks_spec (form : Form) (ops : list SelectionOp) :
  let selections := selections_after ops in
  DEFAULT_COMMANDS_killFabriks = lit "python killFabriks.py" /\
  (checkbox_checked form "run-cleanup" = false -> selections = [] ->
   killFabriks form selections = DEFAULT_COMMANDS_killFabriks) /\
  exists lines,
    Forall2 KillLine selections lines /\
    (checkbox_checked form "run-cleanup" = true \/ selections <> [] ->
     killFabriks form selections =
       join [NEWLINE]
         ((if checkbox_checked form "run-cleanup"
           then [DEFAULT_COMMANDS_killFabriks] else []) ++ lines)).
Proof.
  intros selections. split; [reflexivity|]. split.
  - intros Hc ->. unfold killFabriks, killFabriks_commands. now rewrite Hc.
  - destruct (selections_after_well_formed ops) as [Hf _].
    fold selections in Hf.
    destruct (kill_lines selections Hf) as (lines & Hl & Heq).
    exists lines. split; [exact Hl|].
    intros Hsome. unfold killFabriks, killFabriks_commands. cbv zeta.
    rewrite Heq.
    unfold when.
    destruct (checkbox_checked form "run-cleanup"); [reflexivity|].
    destruct Hsome as [|Hs]; [discriminate|].
    destruct Hl; [congruence | reflexivity].
Qed.

Lemma killFabriks_spec_witness :
  killFabriks (cleanup_form false) (selections_after []) =
  lit "python killFabriks.py".
Proof.
  apply (proj1 (proj2 (killFabriks_spec (cleanup_form false) []))); reflexivity.
Defined.

Example killFabriks_two_lines :
  killFabriks (cleanup_form true)
    (selections_after
       [Add (Some {| rec_type := lit "JV_F_P"; rec_id := lit "17";
                     rec_name := lit "A\B"; rec_itemCount := None |})]) =
  lit "python killFabriks.py" ++ [NEWLINE] ++
  lit "python -c " ++ [DQUOTE] ++
  lit "from killFabriks import add_kill_fabriks; add_kill_fabriks(" ++
  [DQUOTE] ++ lit "JV_F_P" ++ [DQUOTE] ++ lit ", " ++
  [DQUOTE] ++ lit "17" ++ [DQUOTE] ++ lit ", " ++
  [DQUOTE] ++ lit "A\\B" ++ [DQUOTE] ++ lit ")" ++ [DQUOTE].
Proof. reflexivity. Qed.

(** *** Integer fields *)

Lemma digits_value_acc d p :
  digits_value (Z.pos p) (uint_units d) = Z.pos (Pos.of_uint_acc d p).
Proof.
  revert p. induction d; intros p; cbn [uint_units Pos.of_uint_acc];
    [reflexivity | unfold digits_value; fold digits_value; cbn [is_digit in_range N.leb N.compare Pos.compare Pos.compare_cont andb];
      rewrite <- IHd; f_equal; cbn; lia ..].
Qed.

Lemma digits_value_of_uint d :
  digits_value 0 (uint_units d) = Z.of_N (Pos.of_uint d).
Proof.
  induction d; cbn [uint_units Pos.of_uint]; [reflexivity|..];
    unfold digits_value; fold digits_value;
    cbn [is_digit in_range N.leb N.compare Pos.compare Pos.compare_cont andb];
    first [ exact IHd | apply digits_value_acc ].
Qed.

Lemma uint_units_head d :
  d <> Decimal.Nil ->
  exists c r, uint_units d = c :: r /\ is_digit c = true.
Proof. destruct d; [congruence|..]; intros _; cbn; eauto. Qed.

Lemma digit_facts c :
  is_digit c = true ->
  is_white_space c = false /\ (c =? HYPHEN) = false /\ (c =? 43) = false.
Proof.
  intros H. split; [apply safe_not_white_space, is_digit_safe, H|].
  unfold is_digit, in_range in H. apply andb_true_iff in H as [H1 H2].
  apply N.leb_le in H1, H2. split; apply N.eqb_neq; unfold HYPHEN; lia.
Qed.

(** The decimal text of an integer reads back as that integer. *)
Lemma parseInt10_String_of_number n : parseInt10 (String_of_number n) = Some n.
Proof.
  unfold String_of_number. destruct n as [|p|p]; cbn [Z.to_int]; [reflexivity| |].
  - pose proof (digits_value_of_uint (Pos.to_uint p)) as Hv.
    destruct (uint_units_head _ (Unsigned.to_uint_nonnil p)) as (c & r & E & Hc).
    rewrite E in *. destruct (digit_facts c Hc) as (Hw & Hh & Hp).
    unfold parseInt10. cbn [trimStart]. rewrite Hw, Hh, Hp, Hc, Hv.
    now rewrite DecimalPos.Unsigned.of_to.
  - pose proof (digits_value_of_uint (Pos.to_uint p)) as Hv.
    destruct (uint_units_head _ (Unsigned.to_uint_nonnil p)) as (c & r & E & Hc).
    rewrite E in *. unfold parseInt10. cbn [trimStart].
    change (is_white_space HYPHEN) with false. cbn iota.
    rewrite N.eqb_refl. cbn [starts_with_digit]. rewrite Hc, Hv.
    now rewrite DecimalPos.Unsigned.of_to.
Qed.

Lemma getFieldValue_with_limit_other form raw name :
  String.eqb name "limit" = false ->
  getFieldValue (with_limit form raw) name = getFieldValue form name.
Proof. intros H. unfold getFieldValue, with_limit. cbn. now rewrite H. Qed.

Lemma limit_parts_with_limit form raw :
  limit_parts (with_limit form raw) =
  match parseInteger (match raw with Some v => trim v | None => [] end) with
  | Some limit =>
      if negb (limit =? 0)%Z then [lit "--limit"; String_of_number limit] else []
  | None => []
  end.
Proof. unfold limit_parts, getFieldValue. cbn. now destruct raw. Qed.

Lemma app_assoc3 {A} (a b c x : list A) : a ++ b ++ c ++ x = (a ++ b ++ c) ++ x.
Proof. now rewrite <- !app_assoc. Qed.

Lemma app_assoc4 {A} (a b c d x : list A) :
  a ++ b ++ c ++ d ++ x = (a ++ b ++ c ++ d) ++ x.
Proof. now rewrite <- !app_assoc. Qed.

Lemma app_assoc5 {A} (a b c d e x : list A) :
  a ++ b ++ c ++ d ++ e ++ x = (a ++ b ++ c ++ d ++ e) ++ x.
Proof. now rewrite <- !app_assoc. Qed.

(** Each of the four builders lays its tokens out around the limit tokens,
    and nothing around them depends on the limit field. *)
Lemma limit_builders_layout (form : Form) :
  Forall
    (fun builder =>
       exists before after, forall raw,
         builder (with_limit form raw) =
         before ++ limit_parts (with_limit form raw) ++ after)
    limit_builders.
Proof.
  repeat constructor.
  - do 2 eexists. intros raw. unfold items_parts.
    rewrite !getFieldValue_with_limit_other by reflexivity.
    cbn [with_limit checkbox_checked]. rewrite app_assoc3. reflexivity.
  - do 2 eexists. intros raw. unfold exportProducts_parts.
    rewrite !getFieldValue_with_limit_other by reflexivity.
    unfold getCheckedValues. cbn [with_limit checkbox_checked checked_values].
    rewrite app_assoc4. reflexivity.
  - do 2 eexists. intros raw. unfold exportLister_parts.
    rewrite !getFieldValue_with_limit_other by reflexivity.
    unfold getCheckedValues. cbn [with_limit checkbox_checked checked_values].
    rewrite app_assoc4. reflexivity.
  - do 2 eexists. intros raw. unfold makeHTML_parts.
    rewrite !getFieldValue_with_limit_other by reflexivity.
    unfold getCheckedValues. cbn [with_limit checkbox_checked checked_values].
    rewrite app_assoc5. reflexivity.
Qed.

(** C8, as amended. In the items, both export and the makeHTML builders,
    whatever stands before and after the limit tokens does not depend on the
    limit field.  A limit that is absent, empty or not numeric puts no token
    there, and so does a limit that reads as zero; a limit that reads as a
    non-zero integer of magnitude up to 2^53 - 1, the range in which the
    reading is exact, puts the flag and the decimal text of that integer
    there.  An export builder given the limit abc gives the bare command. *)
Theorem limit_flag_spec (form : Form) :
  Forall
    (fun builder : Form -> list jsstring =>
       exists before after, forall raw : option jsstring,
         let text := match raw with Some v => trim v | None => [] end in
         (text = [] \/ parseInt10 text = None ->
          builder (with_limit form raw) = before ++ after) /\
         (parseInt10 text = Some 0%Z ->
          builder (with_limit form raw) = before ++ after) /\
         (forall n, parseInt10 text = Some n -> n <> 0%Z -> safe_integer n ->
          builder (with_limit form raw) =
            before ++ [lit "--limit"; String_of_number n] ++ after /\
          parseInt10 (String_of_number n) = Some n))
    limit_builders /\
  exportProducts (with_limit empty_form (Some (lit "abc"))) =
    lit "python exportProdukt.py".
Proof.
  split; [|reflexivity].
  eapply Forall_impl; [apply limit_builders_layout|].
  intros builder (before & after & H). exists before, after. intros raw text.
  rewrite H, limit_parts_with_limit. fold text. unfold parseInteger.
  repeat split.
  - intros [-> | E]; [reflexivity|]. rewrite E. now destruct text.
  - intros E. rewrite E. now destruct text.
  - rewrite H0. destruct text; [discriminate H0|].
    apply Z.eqb_neq in H1. now rewrite H1.
  - apply parseInt10_String_of_number.
Qed.

Lemma limit_flag_spec_witness :
  parseInt10 (trim (lit " 25 ")) = Some 25%Z /\ safe_integer 25 /\
  exists before after,
    exportProducts_parts (with_limit empty_form (Some (lit " 25 "))) =
    before ++ [lit "--limit"; lit "25"] ++ after.
Proof.
  split; [reflexivity|]. split; [now vm_compute|].
  pose proof (proj1 (limit_flag_spec empty_form)) as H.
  apply Forall_inv_tail, Forall_inv in H.
  destruct H as (before & after & H). exists before, after.
  destruct (H (Some (lit " 25 "))) as (_ & _ & H25).
  destruct (H25 25%Z eq_refl) as [E _];
    [discriminate | now vm_compute |]. exact E.
Defined.

(** C8 as first written fails: a limit of 0 reads as the integer zero and
    the flag is still left out. *)
Lemma limit_zero_omitted :
  ~ (forall (form : Form) (raw : jsstring) (n : Z),
       parseInt10 (trim raw) = Some n ->
       In (lit "--limit") (exportProducts_parts (with_limit form (Some raw)))).
Proof.
  intros H. specialize (H empty_form (lit "0") 0%Z eq_refl).
  vm_compute in H. intuition discriminate.
Qed.

Example exportProducts_limit_zero :
  parseInteger (lit "0") = Some 0%Z /\
  exportProducts (with_limit empty_form (Some (lit "0"))) =
    lit "python exportProdukt.py".
Proof. split; reflexivity. Qed.

Example items_limit_prefix :
  items (with_limit empty_form (Some (lit "12abc"))) =
    lit "python getItems.py --limit 12".
Proof. reflexivity. Qed.

(** *** Catalog loader *)

(** The loop over a payload keeps the record of every element that has
    one, in order. *)
Lemma normalized_entries_omap type payload :
  normalized_entries type payload = omap (normalizeFactoryRecord type) payload.
Proof.
  unfold normalized_entries.
  induction payload as [|entry payload IH]; [reflexivity|].
  cbn [flat_map omap list_omap]. fold (omap (normalizeFactoryRecord type) payload).
  rewrite IH. now destruct (normalizeFactoryRecord type entry).
Qed.

Section LoaderFacts.

Variable cmp : jsstring -> jsstring -> Z.

Lemma sort_insert_permutation {A} (f : A -> A -> Z) x l :
  Permutation (sort_insert f x l) (x :: l).
Proof.
  induction l as [|y l IH]; cbn; [reflexivity|].
  destruct (f x y <=? 0)%Z; [reflexivity|].
  rewrite IH. apply perm_swap.
Qed.

Lemma Array_sort_permutation {A} (f : A -> A -> Z) l :
  Permutation (Array_sort f l) l.
Proof.
  induction l as [|x l IH]; cbn; [reflexivity|].
  now rewrite sort_insert_permutation, IH.
Qed.

Lemma drop_activation_self sw :
  drop_activation (sweep_id sw) [sw] = [].
Proof. unfold drop_activation. cbn. now rewrite Nat.eqb_refl. Qed.

Lemma loadAllFactories_loaded st :
  factoriesLoaded st = true ->
  loadAllFactories cmp st = (st, Resolved (cachedFactories st)).
Proof. unfold loadAllFactories. now intros ->. Qed.

Lemma loadAllFactories_pending st id :
  factoriesLoaded st = false -> factoriesPromise st = Some id ->
  loadAllFactories cmp st = (st, Follows id).
Proof. unfold loadAllFactories. now intros -> ->. Qed.

Lemma loadAllFactories_fresh st :
  factoriesLoaded st = false -> factoriesPromise st = None ->
  loadAllFactories cmp st = (sweep_started st, Follows (activations_made st)).
Proof.
  intros Hl Hp. unfold loadAllFactories, sweep_started. rewrite Hl, Hp.
  reflexivity.
Qed.

Lemma loadAllFactories_ok st :
  loader_ok st -> loader_ok (fst (loadAllFactories cmp st)).
Proof.
  intros H.
  destruct (factoriesLoaded st) eqn:El;
    [now rewrite loadAllFactories_loaded|].
  destruct (factoriesPromise st) as [id|] eqn:Ep;
    [now rewrite (loadAllFactories_pending st id)|].
  rewrite loadAllFactories_fresh by assumption. cbn [fst].
  unfold loader_ok in *. cbn.
  destruct (activations st) as [|sw [|sw' l]] eqn:Ea.
  - cbn. repeat split; [exact El | discriminate | lia].
  - destruct H as (_ & H & _). congruence.
  - destruct H.
Qed.

Lemma find_activation_cases st id :
  loader_ok st ->
  find_activation id st = None \/
  exists sw, activations st = [sw] /\ sweep_id sw = id /\
             find_activation id st = Some sw.
Proof.
  unfold loader_ok, find_activation.
  destruct (activations st) as [|sw [|sw' l]]; [now left | | intros []].
  intros _. cbn. destruct (Nat.eqb (sweep_id sw) id) eqn:E; [|now left].
  apply Nat.eqb_eq in E. right. now exists sw.
Qed.

Lemma fetch_settled_active id o st sw type source rest :
  find_activation id st = Some sw ->
  awaiting sw = (type, source) :: rest ->
  fetch_settled cmp id o st =
  match source_payload o with
  | Some payload =>
      resume cmp id rest (collected sw ++ normalized_entries type payload) st
  | None => resume cmp id rest (collected sw) (with_error st (label_or_type type))
  end.
Proof.
  intros Hf Ha. unfold fetch_settled. rewrite Hf, Ha.
  destruct o as [|[|] [[| | | |payload|]|]]; reflexivity.
Qed.

Lemma resume_ok sw rest collected st :
  activations st = [sw] -> factoriesLoaded st = false ->
  factoriesPromise st = Some (sweep_id sw) ->
  (sweep_id sw < activations_made st)%nat ->
  loader_ok (resume cmp (sweep_id sw) rest collected st).
Proof.
  intros Ha Hl Hp Hm. unfold loader_ok, resume.
  destruct rest as [|[t s] rest]; cbn; rewrite Ha, drop_activation_self.
  - now left.
  - repeat split; auto; discriminate.
Qed.

Lemma fetch_settled_ok id o st :
  loader_ok st -> loader_ok (fetch_settled cmp id o st).
Proof.
  intros H. destruct (find_activation_cases st id H) as [Hn|(sw & Ha & <- & Hf)].
  - unfold fetch_settled. now rewrite Hn.
  - unfold loader_ok in H. rewrite Ha in H. destruct H as (Hl & Hp & Hw & Hm).
    destruct (awaiting sw) as [|[type source] rest] eqn:Ew; [congruence|].
    rewrite (fetch_settled_active _ o st sw type source rest Hf Ew).
    destruct (source_payload o); now apply resume_ok.
Qed.

Lemma sweep_rejected_ok id st :
  loader_ok st -> loader_ok (sweep_rejected id st).
Proof.
  intros H. unfold sweep_rejected.
  destruct (find_activation_cases st id H) as [Hn|(sw & Ha & <- & Hf)].
  - now rewrite Hn.
  - rewrite Hf. unfold loader_ok. cbn. rewrite Ha, drop_activation_self. now right.
Qed.

Lemma step_ok st e : loader_ok st -> loader_ok (step cmp st e).
Proof.
  destruct e; cbn.
  - apply loadAllFactories_ok.
  - apply fetch_settled_ok.
  - apply sweep_rejected_ok.
Qed.

Lemma run_ok trace st : loader_ok st -> loader_ok (run cmp trace st).
Proof.
  unfold run. revert st. induction trace as [|e trace IH]; intros st H; [exact H|].
  cbn. apply IH, step_ok, H.
Qed.

Lemma initial_loader_ok : loader_ok initial_loader.
Proof. now right. Qed.

Lemma find_activation_single st sw :
  activations st = [sw] -> find_activation (sweep_id sw) st = Some sw.
Proof. unfold find_activation. intros ->. cbn. now rewrite Nat.eqb_refl. Qed.

Lemma run_cons e trace st :
  run cmp (e :: trace) st = run cmp trace (step cmp st e).
Proof. reflexivity. Qed.

Lemma run_app t1 t2 st : run cmp (t1 ++ t2) st = run cmp t2 (run cmp t1 st).
Proof. unfold run. apply fold_left_app. Qed.

(** A sweep that is alone in flight, fed one outcome for each source it has
    still to fetch, goes through all of them and memoizes. *)
Lemma run_sweep todo : forall outcomes st sw,
  activations st = [sw] -> awaiting sw = todo -> todo <> [] ->
  length outcomes = length todo ->
  forall st', st' = run cmp (map (FetchSettled (sweep_id sw)) outcomes) st ->
  cachedFactories st' =
    Array_sort (compareFactories cmp)
      (collected sw ++ successful_entries todo outcomes) /\
  factoriesLoaded st' = true /\
  factoriesPromise st' = factoriesPromise st /\
  factoryLoadErrors st' = factoryLoadErrors st ++ recorded_labels todo outcomes /\
  activations st' = [] /\
  fetch_log st' = fetch_log st ++ map (fun s => path (snd s)) (tl todo) /\
  activations_made st' = activations_made st.
Proof.
  induction todo as [|[type source] rest IH]; [congruence|].
  intros [|o outcomes] st sw Ha Hw _ Hlen st' ->; [discriminate|].
  cbn [map]. rewrite run_cons. cbn [step].
  rewrite (fetch_settled_active _ o st sw type source rest
             (find_activation_single st sw Ha) Hw).
  cbn [successful_entries recorded_labels tl].
  destruct rest as [|[type' source'] rest'].
  - destruct outcomes; [|discriminate]. cbn [map]. unfold run at 1 2 3 4 5 6 7.
    cbn [fold_left].
    destruct (source_payload o) as [payload|];
      rewrite <- ?normalized_entries_omap; unfold resume;
      cbn [cachedFactories factoriesLoaded factoriesPromise factoryLoadErrors
           activations fetch_log activations_made with_error map];
      rewrite Ha, drop_activation_self, !app_nil_r; repeat split; auto.
  - set (rest := (type', source') :: rest') in *.
    assert (Hstep : forall collected' st1,
              activations st1 = [sw] ->
              exists sw1,
                sweep_id sw1 = sweep_id sw /\
                awaiting sw1 = rest /\ collected sw1 = collected' /\
                activations (resume cmp (sweep_id sw) rest collected' st1) = [sw1] /\
                factoriesPromise (resume cmp (sweep_id sw) rest collected' st1) =
                  factoriesPromise st1 /\
                factoryLoadErrors (resume cmp (sweep_id sw) rest collected' st1) =
                  factoryLoadErrors st1 /\
                fetch_log (resume cmp (sweep_id sw) rest collected' st1) =
                  fetch_log st1 ++ [path source'] /\
                activations_made (resume cmp (sweep_id sw) rest collected' st1) =
                  activations_made st1).
    { intros collected' st1 Ha1.
      exists {| sweep_id := sweep_id sw; awaiting := rest;
                collected := collected' |}.
      unfold resume, rest.
      cbn [cachedFactories factoriesLoaded factoriesPromise factoryLoadErrors
           activations fetch_log activations_made sweep_id awaiting collected].
      rewrite Ha1, drop_activation_self. repeat split; reflexivity. }
    injection Hlen as Hlen.
    destruct (source_payload o) as [payload|].
    + rewrite <- normalized_entries_omap.
      destruct (Hstep (collected sw ++ normalized_entries type payload) st Ha)
        as (sw1 & Hid & Hw1 & Hc1 & Ha1 & Hp1 & He1 & Hf1 & Hm1).
      destruct (IH outcomes _ sw1 Ha1 Hw1 ltac:(discriminate) Hlen _ eq_refl)
        as (Rc & Rl & Rp & Re & Ra & Rf & Rm).
      rewrite Hid in Rc, Rl, Rp, Re, Ra, Rf, Rm.
      rewrite Rc, Rl, Rp, Re, Ra, Rf, Rm, Hc1, Hp1, He1, Hf1, Hm1.
      rewrite <- !app_assoc. repeat split; reflexivity.
    + assert (Ha' : activations (with_error st (label_or_type type)) = [sw])
        by exact Ha.
      destruct (Hstep (collected sw) _ Ha')
        as (sw1 & Hid & Hw1 & Hc1 & Ha1 & Hp1 & He1 & Hf1 & Hm1).
      destruct (IH outcomes _ sw1 Ha1 Hw1 ltac:(discriminate) Hlen _ eq_refl)
        as (Rc & Rl & Rp & Re & Ra & Rf & Rm).
      rewrite Hid in Rc, Rl, Rp, Re, Ra, Rf, Rm.
      rewrite Rc, Rl, Rp, Re, Ra, Rf, Rm, Hc1, Hp1, He1, Hf1, Hm1.
      cbn [with_error factoriesPromise factoryLoadErrors fetch_log
           activations_made].
      rewrite <- !app_assoc. repeat split; reflexivity.
Qed.

Lemma recorded_labels_sources outcomes :
  recorded_labels FACTORY_SOURCES outcomes = failed_labels FACTORY_SOURCES outcomes.
Proof.
  assert (H : Forall (fun s => label_or_type (fst s) = label (snd s))
                FACTORY_SOURCES)
    by (unfold FACTORY_SOURCES;
        repeat (constructor; [vm_compute; reflexivity|]); constructor).
  revert outcomes. induction H as [|[t s] l Hx _ IH]; intros [|o os];
    try reflexivity.
  cbn [recorded_labels failed_labels]. cbn in Hx. now rewrite Hx, IH.
Qed.

Lemma all_paths_eq :
  all_paths = map (fun s => path (snd s)) FACTORY_SOURCES.
Proof. reflexivity. Qed.

Lemma run_first_sweep outcomes :
  length outcomes = length FACTORY_SOURCES ->
  forall st,
    st = run cmp (CallLoadAll :: map (FetchSettled 0) outcomes) initial_loader ->
    cachedFactories st =
      Array_sort (compareFactories cmp)
        (successful_entries FACTORY_SOURCES outcomes) /\
    factoriesLoaded st = true /\
    factoriesPromise st = Some 0%nat /\
    factoryLoadErrors st = failed_labels FACTORY_SOURCES outcomes /\
    activations st = [] /\
    fetch_log st = all_paths.
Proof.
  intros Hlen st ->. rewrite run_cons. cbn [step].
  rewrite loadAllFactories_fresh by reflexivity. cbn [fst].
  pose (sw := {| sweep_id := 0%nat; awaiting := FACTORY_SOURCES;
                 collected := [] |}).
  destruct (run_sweep FACTORY_SOURCES outcomes (sweep_started initial_loader) sw
              eq_refl eq_refl ltac:(discriminate) Hlen _ eq_refl)
    as (Rc & Rl & Rp & Re & Ra & Rf & _).
  change (sweep_id sw) with 0%nat in *.
  rewrite Rc, Rl, Rp, Re, Ra, Rf, recorded_labels_sources.
  split; [reflexivity|]. split; [reflexivity|]. split; [reflexivity|].
  split; [reflexivity|]. split; [reflexivity|].
  vm_compute. reflexivity.
Qed.


Lemma step_fetched_once st e :
  is_rejection e = false -> loader_ok st -> fetched_once st ->
  fetched_once (step cmp st e).
Proof.
  intros He Hok Hf. destruct e as [|id o|id]; [| |discriminate]; cbn [step].
  - destruct (factoriesLoaded st) eqn:El;
      [now rewrite loadAllFactories_loaded|].
    destruct (factoriesPromise st) as [id|] eqn:Ep;
      [now rewrite (loadAllFactories_pending st id)|].
    rewrite loadAllFactories_fresh by assumption. cbn [fst].
    unfold fetched_once, loader_ok in *.
    destruct (activations st) as [|sw [|sw' l]] eqn:Ea.
    + unfold sweep_started. cbn [activations fetch_log awaiting].
      rewrite Ea. cbn [drop_activation List.filter].
      destruct Hf as [[_ ->]|[Hf _]]; [vm_compute; reflexivity | congruence].
    + destruct Hok as (_ & Hok & _). congruence.
    + destruct Hf.
  - destruct (find_activation_cases st id Hok) as [Hn|(sw & Ha & <- & Hfind)].
    + unfold fetch_settled. now rewrite Hn.
    + unfold fetched_once in Hf. rewrite Ha in Hf.
      destruct (awaiting sw) as [|[type source] rest] eqn:Ew.
      { unfold loader_ok in Hok. rewrite Ha in Hok.
        destruct Hok as (_ & _ & Hok & _). congruence. }
      rewrite (fetch_settled_active _ o st sw type source rest Hfind Ew).
      assert (Hr : forall collected' st1,
                activations st1 = [sw] -> fetch_log st1 = fetch_log st ->
                fetched_once (resume cmp (sweep_id sw) rest collected' st1)).
      { intros collected' st1 Ha1 Hl1. unfold fetched_once, resume.
        destruct rest as [|[t s] rest];
          cbn [activations fetch_log factoriesLoaded awaiting];
          rewrite Ha1, drop_activation_self, Hl1.
        - right. split; [reflexivity|]. cbn [tl map] in Hf.
          now rewrite app_nil_r in Hf.
        - cbn [tl map snd] in *. now rewrite <- app_assoc. }
      destruct (source_payload o); now apply Hr.
Qed.

Lemma run_fetched_once trace : forall st,
  forallb (fun e => negb (is_rejection e)) trace = true ->
  loader_ok st -> fetched_once st -> fetched_once (run cmp trace st).
Proof.
  induction trace as [|e trace IH]; intros st Ht Hok Hf; [exact Hf|].
  cbn in Ht. apply andb_true_iff in Ht as [He Ht].
  apply negb_true_iff in He. rewrite run_cons.
  apply IH; [exact Ht | now apply step_ok | now apply step_fetched_once].
Qed.

Lemma initial_fetched_once : fetched_once initial_loader.
Proof. left. now split. Qed.

(** C5. At any point of any run of calls, fetch completions and sweep
    rejections: at most one sweep is in flight; a call made while one is in
    flight changes nothing, requests nothing and gets a promise that follows
    that same sweep, the one the call that started it got; a call made once
    the catalog is memoized changes nothing, requests nothing and gets the
    memoized catalog; as long as no sweep was rejected every source path has
    been requested at most once, in source order, and all of them once the
    catalog is memoized, so that two calls before the first sweep ends make
    one request for each source; and when the sweep in flight is rejected the
    marker is cleared and the next call starts a new sweep. *)
Theorem loadAllFactories_single_flight (trace : list Event) :
  let st := run cmp trace initial_loader in
  (length (activations st) <= 1)%nat /\
  (factoriesLoaded st = false -> factoriesPromise st = None ->
   loadAllFactories cmp st = (sweep_started st, Follows (activations_made st)) /\
   activations (sweep_started st) =
     [{| sweep_id := activations_made st; awaiting := FACTORY_SOURCES;
         collected := [] |}]) /\
  (forall sw, activations st = [sw] ->
     loadAllFactories cmp st = (st, Follows (sweep_id sw))) /\
  (factoriesLoaded st = true ->
   loadAllFactories cmp st = (st, Resolved (cachedFactories st))) /\
  (forallb (fun e => negb (is_rejection e)) trace = true ->
   exists rest, fetch_log st ++ rest = all_paths /\
                (factoriesLoaded st = true -> rest = [])) /\
  (forall o1 o2 o3 o4,
     fetch_log
       (run cmp (CallLoadAll :: CallLoadAll ::
                 map (FetchSettled 0) [o1; o2; o3; o4]) initial_loader) =
     all_paths) /\
  (forall sw, activations st = [sw] ->
     let st1 := sweep_rejected (sweep_id sw) st in
     factoriesPromise st1 = None /\ factoriesLoaded st1 = false /\
     activations st1 = [] /\
     loadAllFactories cmp st1 =
       (sweep_started st1, Follows (activations_made st)) /\
     activations_made st <> sweep_id sw).
Proof.
  intros st.
  pose proof (run_ok trace initial_loader initial_loader_ok) as Hok.
  fold st in Hok.
  assert (Hsw : forall sw, activations st = [sw] ->
            factoriesLoaded st = false /\
            factoriesPromise st = Some (sweep_id sw) /\
            (sweep_id sw < activations_made st)%nat).
  { intros sw Ha. unfold loader_ok in Hok. rewrite Ha in Hok. tauto. }
  repeat split.
  - unfold loader_ok in Hok.
    destruct (activations st) as [|sw [|sw' l]]; cbn; [lia | lia | destruct Hok].
  - now apply loadAllFactories_fresh.
  - unfold loader_ok in Hok. unfold sweep_started. cbn [activations].
    destruct (activations st) as [|sw [|sw' l]]; [reflexivity | | destruct Hok].
    destruct Hok as (_ & Hp & _). congruence.
  - intros sw Ha. destruct (Hsw sw Ha) as (Hl & Hp & _).
    now apply loadAllFactories_pending.
  - apply loadAllFactories_loaded.
  - intros Ht.
    pose proof (run_fetched_once trace initial_loader Ht initial_loader_ok
                  initial_fetched_once) as Hf.
    fold st in Hf. unfold fetched_once in Hf.
    destruct (activations st) as [|sw [|sw' l]] eqn:Ea; [| |destruct Hf].
    + destruct Hf as [[Hl ->]|[Hl ->]].
      * exists all_paths. split; [reflexivity | congruence].
      * exists []. split; [apply app_nil_r | reflexivity].
    + eexists. split; [exact Hf|]. destruct (Hsw sw eq_refl) as (Hl & _).
      congruence.
  - intros o1 o2 o3 o4. rewrite run_cons. cbn [step].
    rewrite loadAllFactories_fresh by reflexivity. cbn [fst].
    rewrite run_cons. cbn [step].
    rewrite (loadAllFactories_pending (sweep_started initial_loader) 0%nat)
      by reflexivity.
    cbn [fst].
    pose (sw := {| sweep_id := 0%nat; awaiting := FACTORY_SOURCES;
                   collected := [] |}).
    destruct (run_sweep FACTORY_SOURCES [o1; o2; o3; o4]
                (sweep_started initial_loader) sw
                eq_refl eq_refl ltac:(discriminate) eq_refl _ eq_refl)
      as (_ & _ & _ & _ & _ & Rf & _).
    change (sweep_id sw) with 0%nat in Rf. rewrite Rf.
    vm_compute. reflexivity.
  - unfold sweep_rejected.
    rewrite (find_activation_single st sw H). reflexivity.
  - unfold sweep_rejected.
    rewrite (find_activation_single st sw H). cbn [factoriesLoaded].
    now destruct (Hsw sw H).
  - unfold sweep_rejected.
    rewrite (find_activation_single st sw H). cbn [activations].
    rewrite H. apply drop_activation_self.
  - destruct (Hsw sw H) as (Hl & _).
    assert (E : activations_made (sweep_rejected (sweep_id sw) st) =
                activations_made st).
    { unfold sweep_rejected. now rewrite (find_activation_single st sw H). }
    rewrite <- E. apply loadAllFactories_fresh.
    + unfold sweep_rejected. now rewrite (find_activation_single st sw H).
    + unfold sweep_rejected. now rewrite (find_activation_single st sw H).
  - destruct (Hsw sw H) as (_ & _ & Hm). lia.
Qed.

End LoaderFacts.

Lemma loadAllFactories_single_flight_witness :
  loadAllFactories codeunit_compare
    (run codeunit_compare [CallLoadAll] initial_loader) =
  (run codeunit_compare [CallLoadAll] initial_loader, Follows 0%nat).
Proof.
  apply (proj1 (proj2 (proj2
           (loadAllFactories_single_flight codeunit_compare [CallLoadAll])))
           {| sweep_id := 0%nat; awaiting := FACTORY_SOURCES; collected := [] |}).
  vm_compute. reflexivity.
Defined.

Example loadAllFactories_one_source_down :
  let st :=
    run codeunit_compare
      [CallLoadAll;
       FetchSettled 0 (Response true (Some (JArr
         [JObj [(lit "id", JNum 7); (lit "name", JStr (lit "b"))];
          JObj [(lit "name", JStr (lit "no id"))];
          JObj [(lit "ID", JStr (lit "3")); (lit "name", JStr (lit "a"));
                (lit "count", JStr (lit "12"))]])));
       CallLoadAll;
       FetchSettled 0 (Response false None);
       FetchSettled 0 (Response true (Some (JObj [])));
       FetchSettled 0 (Response true (Some (JArr [])))]
      initial_loader in
  cachedFactories st =
    [{| rec_type := lit "JV_F_P"; rec_id := lit "3"; rec_name := lit "a";
        rec_itemCount := Some 12%Z |};
     {| rec_type := lit "JV_F_P"; rec_id := lit "7"; rec_name := lit "b";
        rec_itemCount := None |}] /\
  factoryLoadErrors st = [lit "XL_F_P — каталоги"; lit "JV_F_L — листер"] /\
  fetch_log st = all_paths /\
  snd (loadAllFactories codeunit_compare st) = Resolved (cachedFactories st).
Proof. vm_compute. repeat split; reflexivity. Qed.


(** *** The ignore-list page *)











(** The same happens when the 2xx answer is not JSON; and two colons in a
    type or an id can make the key of an entry that of a result reported
    for another identity. *)
Example applySelections_not_json :
  selections
    (applySelections_response (Response true None) one_ignored true
       (page_with [entry_a; entry_b])) = [entry_a; entry_b].
Proof. vm_compute. reflexivity. Qed.

Example applySelections_colon_collision :
  let e := {| entry_type := lit "JV_F_P"; entry_id := lit "1::x";
              entry_name := lit "Alfa"; entry_itemCount := None |} in
  let data :=
    JObj [(lit "results",
           JArr [JObj [(lit "type", JStr (lit "JV_F_P::1"));
                       (lit "id", JStr (lit "x"));
                       (lit "status", JStr (lit "error"))]])] in
  selections
    (applySelections_response (Response true (Some data)) one_ignored true
       (page_with [e])) = [e] /\
  ~ reported_failed (results_of data) (entry_identity e).
Proof.
  intros e data. split; [vm_compute; reflexivity|].
  intros (r & Hin & _ & Hid). vm_compute in Hin. destruct Hin as [<-|[]].
  vm_compute in Hid. discriminate Hid.
Qed.

Example applySelections_one_error :
  selections
    (applySelections_response (Response true (Some body_one_error))
       one_ignored true (page_with [entry_a; entry_b; entry_c])) = [entry_a].
Proof. vm_compute. reflexivity. Qed.





(** ** Further properties of the console script *)

(** *** Quoting and assembly *)

Lemma replace_each_escape_inj (cls : N -> bool) :
  cls BACKSLASH = true ->
  forall a b,
    replace_each cls (fun c => [BACKSLASH; c]) a =
    replace_each cls (fun c => [BACKSLASH; c]) b -> a = b.
Proof.
  intros Hb. unfold replace_each.
  induction a as [|x a IH]; intros [|y b]; cbn [flat_map].
  - reflexivity.
  - destruct (cls y); discriminate.
  - destruct (cls x); discriminate.
  - destruct (cls x) eqn:Ex, (cls y) eqn:Ey; cbn [app].
    + intros [= -> E]. f_equal. now apply IH.
    + intros [= <- _]. congruence.
    + intros [= -> _]. congruence.
    + intros [= -> E]. f_equal. now apply IH.
Qed.

Lemma replace_each_bare_free (cls : N -> bool) :
  cls BACKSLASH = true ->
  forall s, bare_free cls (replace_each cls (fun c => [BACKSLASH; c]) s) = true.
Proof.
  intros Hb. unfold replace_each. induction s as [|c s IH]; [reflexivity|].
  cbn [flat_map]. destruct (cls c) eqn:Ec; cbn [app bare_free].
  - now rewrite N.eqb_refl.
  - destruct (c =? BACKSLASH) eqn:E.
    + apply N.eqb_eq in E. congruence.
    + now rewrite Ec, IH.
Qed.

Lemma shellQuote_cases s :
  (shellQuote (TStr s) = s /\
   (s = [] \/ startsWith_hyphen s = true \/ SAFE_VALUE_test s = true)) \/
  (shellQuote (TStr s) =
     [DQUOTE] ++ replace_each quote_special_class (fun c => [BACKSLASH; c]) s ++
     [DQUOTE] /\
   s <> [] /\ startsWith_hyphen s = false /\ SAFE_VALUE_test s = false).
Proof.
  rewrite (shellQuote_text (TStr s) s eq_refl).
  destruct s as [|c s]; [left; auto|]. cbn [nonempty negb].
  destruct (startsWith_hyphen (c :: s)); [left; auto|].
  destruct (SAFE_VALUE_test (c :: s)); [left; auto|].
  right. repeat split. discriminate.
Qed.

Lemma shellQuote_inj a b : shellQuote (TStr a) = shellQuote (TStr b) -> a = b.
Proof.
  assert (Hmix : forall s e,
            (s = [] \/ startsWith_hyphen s = true \/ SAFE_VALUE_test s = true) ->
            s = [DQUOTE] ++ e -> False).
  { intros s e [->|[H|H]] E; [discriminate E | |]; subst s; cbn in H;
      discriminate H. }
  destruct (shellQuote_cases a) as [[-> Ha]|(-> & Ha)],
           (shellQuote_cases b) as [[-> Hb]|(-> & Hb)]; intros E.
  - exact E.
  - destruct (Hmix a _ Ha E).
  - destruct (Hmix b _ Hb (eq_sym E)).
  - injection E as E. apply app_inv_tail in E.
    now apply (replace_each_escape_inj quote_special_class eq_refl).
Qed.

(** X1. Two different strings never get the same quoted form. *)
Theorem shellQuote_injective (a b : jsstring) :
  a <> b -> shellQuote (TStr a) <> shellQuote (TStr b).
Proof. intros H E. apply H. now apply shellQuote_inj. Qed.

Lemma shellQuote_injective_witness :
  shellQuote (TStr (lit "a b")) <> shellQuote (TStr ([DQUOTE] ++ lit "a b" ++ [DQUOTE])).
Proof.
  apply (shellQuote_injective (lit "a b") ([DQUOTE] ++ lit "a b" ++ [DQUOTE])).
  discriminate.
Defined.

(** X2. A token comes back either as it is or between double quotes, and
    then no double quote, backslash, dollar sign or backtick stands inside
    the quotes without a backslash before it, and no backslash is left
    alone at the end. *)
Theorem shellQuote_quoted_body (s : jsstring) :
  shellQuote (TStr s) = s \/
  exists e, shellQuote (TStr s) = [DQUOTE] ++ e ++ [DQUOTE] /\
            bare_free quote_special_class e = true.
Proof.
  destruct (shellQuote_cases s) as [[H _]|(H & _)]; [now left|].
  right. eexists. split; [exact H|].
  now apply replace_each_bare_free.
Qed.

Lemma join_nil_iff sep (l : list jsstring) :
  Forall (fun x => x <> []) l -> (join sep l = [] <-> l = []).
Proof.
  intros H. split; [|now intros ->].
  destruct l as [|x [|y l]]; [reflexivity| |].
  - cbn. intros ->. apply Forall_inv in H. congruence.
  - rewrite join_cons. apply Forall_inv in H. destruct x; [congruence|discriminate].
Qed.

Lemma join_app sep (l1 l2 : list jsstring) :
  l1 <> [] -> l2 <> [] ->
  join sep (l1 ++ l2) = join sep l1 ++ sep ++ join sep l2.
Proof.
  intros H1 H2. induction l1 as [|x [|y l1] IH]; [congruence| |].
  - destruct l2; [congruence|]. reflexivity.
  - change ((x :: y :: l1) ++ l2) with (x :: y :: (l1 ++ l2)).
    rewrite !join_cons. change (y :: l1 ++ l2) with ((y :: l1) ++ l2).
    rewrite IH by discriminate. now rewrite <- !app_assoc.
Qed.

Lemma kept_texts_app a b : kept_texts (a ++ b) = kept_texts a ++ kept_texts b.
Proof. unfold kept_texts. apply flat_map_app. Qed.

Lemma quoted_kept_nonempty parts :
  Forall (fun x : jsstring => x <> [])
    (map (fun s => shellQuote (TStr s)) (kept_texts parts)).
Proof.
  rewrite Forall_forall. intros x Hx.
  apply list_elem_of_In, in_map_iff in Hx as (s & <- & Hs).
  eapply shellQuote_nonempty, kept_texts_nonempty, Hs.
Qed.

Lemma joinCommand_nil_kept parts :
  joinCommand parts = [] <-> kept_texts parts = [].
Proof.
  rewrite joinCommand_pipeline, join_nil_iff by apply quoted_kept_nonempty.
  destruct (kept_texts parts); [tauto | split; discriminate].
Qed.

Lemma joinCommand_app_eq (a b : list Token) :
  joinCommand (a ++ b) =
  match joinCommand a, joinCommand b with
  | [], y => y
  | x, [] => x
  | x, y => x ++ [SPACE] ++ y
  end.
Proof.
  destruct (joinCommand a) as [|ca xa] eqn:Ea.
  - apply joinCommand_nil_kept in Ea.
    now rewrite !joinCommand_pipeline, kept_texts_app, Ea.
  - destruct (joinCommand b) as [|cb xb] eqn:Eb.
    + apply joinCommand_nil_kept in Eb.
      now rewrite <- Ea, !joinCommand_pipeline, kept_texts_app, Eb, app_nil_r.
    + rewrite <- Ea, <- Eb, !joinCommand_pipeline, kept_texts_app, map_app.
      apply join_app.
      * intros H. apply map_eq_nil in H. apply joinCommand_nil_kept in H.
        congruence.
      * intros H. apply map_eq_nil in H. apply joinCommand_nil_kept in H.
        congruence.
Qed.

(** X3. Assembling two token lists one after the other gives the two
    commands with one space between them, and just the other command when
    one of them is empty. *)
Theorem joinCommand_app (a b : list Token) :
  joinCommand (a ++ b) =
  match joinCommand a, joinCommand b with
  | [], y => y
  | x, [] => x
  | x, y => x ++ [SPACE] ++ y
  end.
Proof. apply joinCommand_app_eq. Qed.

(** X4. The assembled command is empty exactly when every token is
    undefined, null or the empty string. *)
Theorem joinCommand_empty_iff (parts : list Token) :
  joinCommand parts = [] <-> Forall absent parts.
Proof.
  rewrite joinCommand_nil_kept. unfold kept_texts.
  induction parts as [|t parts IH]; [split; auto|].
  cbn [flat_map]. rewrite Forall_cons, <- IH. split.
  - intros H. apply app_eq_nil in H as [Ht Hp]. split; [|exact Hp].
    unfold absent. destruct t as [| |[|c s]|n]; cbn in Ht; auto; try discriminate.
    exfalso. destruct (String_of_number n) eqn:E; [|discriminate].
    unfold String_of_number in E.
    destruct n as [|p|p]; cbn in E; try discriminate.
    now apply uint_units_nonnil in E; [|apply Unsigned.to_uint_nonnil].
  - intros [[-> | [-> | ->]] ->]; reflexivity.
Qed.

(** *** Lists typed into a field *)

Lemma trimStart_idem s : trimStart (trimStart s) = trimStart s.
Proof.
  induction s as [|c s IH]; [reflexivity|]. cbn.
  destruct (is_white_space c) eqn:E; [exact IH|]. cbn. now rewrite E.
Qed.

Lemma trimStart_In s c : In c (trimStart s) -> In c s.
Proof.
  induction s as [|x s IH]; [tauto|]. cbn [trimStart].
  destruct (is_white_space x); [right; auto | tauto].
Qed.

Lemma trimStart_snoc s c :
  is_white_space c = false -> trimStart (s ++ [c]) = trimStart s ++ [c].
Proof.
  intros Hc. induction s as [|x s IH]; cbn; [now rewrite Hc|].
  destruct (is_white_space x); [exact IH | reflexivity].
Qed.

Lemma trimStart_blank_app pre s :
  Forall (fun c => is_white_space c = true) pre ->
  trimStart (pre ++ s) = trimStart s.
Proof. induction 1 as [|c pre Hc _ IH]; [reflexivity|]. cbn. now rewrite Hc. Qed.

Lemma trimEnd_idem s : trimEnd (trimEnd s) = trimEnd s.
Proof. unfold trimEnd. now rewrite rev_involutive, trimStart_idem. Qed.

Lemma trimEnd_cons c s :
  is_white_space c = false -> trimEnd (c :: s) = c :: trimEnd s.
Proof.
  intros Hc. unfold trimEnd. cbn [rev].
  now rewrite trimStart_snoc, rev_app_distr.
Qed.

Lemma trimStart_trimEnd s :
  trimStart (trimEnd (trimStart s)) = trimEnd (trimStart s).
Proof.
  induction s as [|c s IH]; [reflexivity|]. cbn [trimStart].
  destruct (is_white_space c) eqn:E; [exact IH|].
  rewrite trimEnd_cons by exact E. cbn. now rewrite E.
Qed.

Lemma trim_idem s : trim (trim s) = trim s.
Proof. unfold trim. now rewrite trimStart_trimEnd, trimEnd_idem. Qed.

Lemma trim_In s c : In c (trim s) -> In c s.
Proof.
  unfold trim, trimEnd. rewrite <- in_rev. intros H.
  apply trimStart_In in H. rewrite <- in_rev in H. now apply trimStart_In.
Qed.

Lemma split_runs_pieces sep s : forall cur in_run piece,
  Forall (fun c => sep c = false) cur ->
  In piece (split_runs sep s cur in_run) ->
  Forall (fun c => sep c = false) piece.
Proof.
  induction s as [|c s IH]; intros cur in_run piece Hc; cbn [split_runs].
  - intros [<-|[]]. rewrite Forall_forall in *. intros x Hx.
    apply Hc. apply list_elem_of_In. apply list_elem_of_In in Hx.
    now apply in_rev.
  - destruct (sep c) eqn:E.
    + destruct in_run; [now apply IH|].
      intros [<-|H]; [|now apply (IH [] true)].
      rewrite Forall_forall in *. intros x Hx.
      apply Hc. apply list_elem_of_In. apply list_elem_of_In in Hx.
      now apply in_rev.
    + apply IH. now constructor.
Qed.

(** X5. Every item of a parsed list is non-empty, has no white space at
    either end and holds none of the separators (comma, semicolon, carriage
    return, line feed); the empty text gives no item. *)
Theorem parseList_items (value : jsstring) :
  Forall clean_item (parseList value) /\ parseList [] = [].
Proof.
  split; [|reflexivity]. unfold parseList.
  destruct value as [|c0 v0]; [constructor|].
  rewrite Forall_forall. intros x Hx.
  apply list_elem_of_In, filter_In in Hx as [Hx Hne].
  apply in_map_iff in Hx as (piece & <- & Hp).
  repeat split.
  - now apply nonempty_iff.
  - apply trim_idem.
  - apply (split_runs_pieces _ _ [] false piece ltac:(constructor)) in Hp.
    rewrite Forall_forall in *. intros c Hc. apply Hp.
    apply list_elem_of_In. apply list_elem_of_In in Hc. now apply trim_In.
Qed.

Lemma split_runs_plain sep x : forall t cur in_run,
  Forall (fun c => sep c = false) x -> x <> [] ->
  split_runs sep (x ++ t) cur in_run = split_runs sep t (rev x ++ cur) false.
Proof.
  induction x as [|c x IH]; intros t cur in_run Hx Hne; [congruence|].
  apply Forall_cons in Hx as [Hc Hx]. cbn [app split_runs]. rewrite Hc.
  destruct x as [|d x]; [reflexivity|].
  rewrite IH by (auto; discriminate). cbn [rev]. now rewrite <- !app_assoc.
Qed.

Lemma split_runs_last sep x cur in_run :
  Forall (fun c => sep c = false) x ->
  split_runs sep x cur in_run = [rev cur ++ x].
Proof.
  revert cur in_run. induction x as [|c x IH]; intros cur in_run Hx; cbn.
  - now rewrite app_nil_r.
  - apply Forall_cons in Hx as [Hc Hx]. rewrite Hc, IH by exact Hx.
    cbn [rev]. now rewrite <- app_assoc.
Qed.

Lemma trim_blank_clean pre x :
  Forall blank_unit pre -> clean_item x -> trim (pre ++ x) = x.
Proof.
  intros Hp (_ & Hx & _). unfold trim in *.
  rewrite trimStart_blank_app; [exact Hx|].
  eapply Forall_impl; [exact Hp|]. now intros c [H _].
Qed.

Lemma parse_joined c w items : forall pre in_run,
  is_list_separator c = true -> Forall blank_unit w -> Forall blank_unit pre ->
  Forall clean_item items -> items <> [] ->
  List.filter nonempty
    (map trim
       (split_runs is_list_separator (pre ++ join (c :: w) items) [] in_run)) =
  items.
Proof.
  intros pre in_run Hc Hw Hpre Hitems. revert pre in_run Hpre.
  induction Hitems as [|x items Hx Hitems IH]; intros pre in_run Hpre Hne;
    [congruence|].
  assert (Hplain : Forall (fun u => is_list_separator u = false) (pre ++ x)).
  { apply Forall_app. split.
    - eapply Forall_impl; [exact Hpre|]. now intros u [_ H].
    - apply Hx. }
  assert (Hnn : pre ++ x <> []).
  { destruct Hx as [Hx _]. destruct pre, x; try discriminate. congruence. }
  destruct items as [|y items].
  - cbn [join]. rewrite split_runs_last by exact Hplain.
    cbn [rev app map List.filter].
    rewrite trim_blank_clean by assumption.
    destruct Hx as [Hx _]. apply nonempty_iff in Hx. now rewrite Hx.
  - rewrite join_cons. rewrite app_assoc, split_runs_plain by assumption.
    cbn [app split_runs]. rewrite Hc, app_nil_r, rev_involutive.
    cbn [map List.filter]. rewrite trim_blank_clean by assumption.
    destruct Hx as [Hx _]. apply nonempty_iff in Hx. rewrite Hx. f_equal.
    apply (IH w true Hw). discriminate.
Qed.

(** X6. A list of clean items written out with a separator between them -
    a comma, a semicolon or a line break, with blanks after it if one likes -
    parses back to the same items in the same order. *)
Theorem parseList_join (c : N) (w : jsstring) (items : list jsstring) :
  is_list_separator c = true -> Forall blank_unit w ->
  Forall clean_item items ->
  parseList (join (c :: w) items) = items.
Proof.
  intros Hc Hw Hitems. destruct items as [|x items]; [reflexivity|].
  unfold parseList.
  destruct (join (c :: w) (x :: items)) as [|u v] eqn:E.
  - exfalso. apply join_nil_iff in E; [discriminate|].
    eapply Forall_impl; [exact Hitems|]. now intros y [Hy _].
  - rewrite <- E.
    apply (parse_joined c w (x :: items) [] false Hc Hw); auto; discriminate.
Qed.

Lemma parseList_join_witness :
  parseList (join (lit ", ") [lit "A 12"; lit "b-7"; lit "c"]) =
  [lit "A 12"; lit "b-7"; lit "c"].
Proof.
  apply (parseList_join 44 [32] [lit "A 12"; lit "b-7"; lit "c"]).
  - reflexivity.
  - repeat constructor.
  - repeat constructor; try discriminate; vm_compute; reflexivity.
Defined.

(** *** Integers typed into a field *)

Lemma digits_value_app u r : forall acc,
  Forall (fun c => is_digit c = true) u -> starts_with_digit r = false ->
  digits_value acc (u ++ r) = digits_value acc u.
Proof.
  induction u as [|c u IH]; intros acc Hu Hr.
  - destruct r as [|d r]; [reflexivity|]. cbn in *. now rewrite Hr.
  - apply Forall_cons in Hu as [Hc Hu]. cbn. rewrite Hc. now apply IH.
Qed.

Lemma parseInt10_units_app d r :
  d <> Decimal.Nil -> starts_with_digit r = false ->
  parseInt10 (uint_units d ++ r) = Some (Z.of_N (Pos.of_uint d)) /\
  parseInt10 (HYPHEN :: uint_units d ++ r) = Some (- Z.of_N (Pos.of_uint d))%Z.
Proof.
  intros Hd Hr.
  pose proof (digits_value_app (uint_units d) r 0 (uint_units_digits d) Hr) as Hv.
  rewrite digits_value_of_uint in Hv.
  destruct (uint_units_head d Hd) as (c & u & E & Hc).
  rewrite E in *. destruct (digit_facts c Hc) as (Hw & Hh & Hp).
  unfold parseInt10. cbn [app trimStart].
  change (is_white_space HYPHEN) with false. cbn iota.
  rewrite Hw, Hh, Hp, Hc, N.eqb_refl. cbn [starts_with_digit app].
  rewrite Hc. cbn [app] in Hv. now rewrite Hv.
Qed.

(** X7. The decimal text of an integer of magnitude up to 2^53 - 1, the
    range in which numbers are exact, reads back as that integer, also when
    anything that does not begin with a digit follows it. *)
Theorem parseInteger_decimal_prefix (n : Z) (rest : jsstring) :
  safe_integer n ->
  starts_with_digit rest = false ->
  parseInteger (String_of_number n ++ rest) = Some n.
Proof.
  intros _ Hr. unfold parseInteger, String_of_number.
  destruct n as [|p|p]; cbn [Z.to_int].
  - destruct (parseInt10_units_app (Decimal.D0 Decimal.Nil) rest
                ltac:(discriminate) Hr) as [H _].
    exact H.
  - destruct (parseInt10_units_app (Pos.to_uint p) rest
                (Unsigned.to_uint_nonnil p) Hr) as [H _].
    rewrite DecimalPos.Unsigned.of_to in H.
    destruct (uint_units_head _ (Unsigned.to_uint_nonnil p)) as (c & u & E & _).
    rewrite E in *. exact H.
  - destruct (parseInt10_units_app (Pos.to_uint p) rest
                (Unsigned.to_uint_nonnil p) Hr) as [_ H].
    rewrite DecimalPos.Unsigned.of_to in H. exact H.
Qed.

Lemma parseInteger_decimal_prefix_witness :
  parseInteger (String_of_number (-250) ++ lit " pcs") = Some (-250)%Z.
Proof.
  apply (parseInteger_decimal_prefix (-250) (lit " pcs"));
    [now vm_compute | reflexivity].
Defined.

(** *** The cleanup builder *)

Lemma bare_free_weaken (p q : N -> bool) :
  (forall c, q c = true -> p c = true) ->
  forall e, bare_free p e = true -> bare_free q e = true.
Proof.
  intros Hpq.
  assert (Hc : forall c, negb (p c) = true -> negb (q c) = true).
  { intros c H. destruct (q c) eqn:E; [|reflexivity].
    apply Hpq in E. now rewrite E in H. }
  assert (H : forall e,
            (bare_free p e = true -> bare_free q e = true) /\
            (forall c, bare_free p (c :: e) = true ->
                       bare_free q (c :: e) = true)).
  { induction e as [|d e [IH1 IH2]].
    - split; [auto|]. intros c. cbn.
      destruct (c =? BACKSLASH); [auto|]. rewrite !andb_true_r. apply Hc.
    - split; [apply IH2|]. intros c. cbn [bare_free].
      destruct (c =? BACKSLASH); [exact IH1|].
      rewrite !andb_true_iff. intros [H1 H2]. split; [now apply Hc|].
      now apply IH2. }
  intros e. apply H.
Qed.

(** X8. Escaping for the script literal loses nothing: two different texts
    never escape to the same text; and in the escaped text every double
    quote and every backslash of the original has a backslash before it, so
    that no double quote is left bare and no backslash is left alone at the
    end. *)
Theorem escapeDoubleQuotes_faithful (a b : jsstring) :
  (a <> b -> escapeDoubleQuotes a <> escapeDoubleQuotes b) /\
  bare_free backslash_or_dquote (escapeDoubleQuotes a) = true /\
  bare_free is_dquote (escapeDoubleQuotes a) = true.
Proof.
  rewrite !escapeDoubleQuotes_one_pass. fold backslash_or_dquote.
  split.
  { intros H E. apply H.
    now apply (replace_each_escape_inj backslash_or_dquote eq_refl). }
  pose proof (replace_each_bare_free backslash_or_dquote eq_refl a) as H.
  split; [exact H|].
  apply (bare_free_weaken backslash_or_dquote is_dquote); [|exact H].
  intros c Hc. unfold backslash_or_dquote, is_dquote in *. rewrite Hc.
  apply orb_true_r.
Qed.

Lemma escapeDoubleQuotes_faithful_witness :
  escapeDoubleQuotes [BACKSLASH; DQUOTE] <> escapeDoubleQuotes [DQUOTE].
Proof.
  apply (proj1 (escapeDoubleQuotes_faithful [BACKSLASH; DQUOTE] [DQUOTE])).
  discriminate.
Defined.

Lemma bare_free_plain_app (special : N -> bool) (p q : jsstring) :
  forallb (fun c => negb (c =? BACKSLASH) && negb (special c)) p = true ->
  bare_free special (p ++ q) = bare_free special q.
Proof.
  induction p as [|c p IH]; [reflexivity|]. cbn [forallb app bare_free].
  rewrite !andb_true_iff, !negb_true_iff. intros [[H1 H2] H3].
  now rewrite H1, H2, IH.
Qed.

(** X9. The line built for a selected entry puts the script between double
    quotes without escaping the double quotes the script itself is written
    with: read as a double-quoted word, the script ends at its first own
    double quote, whatever the type, id and name are.  Without an id there
    is no line at all. *)
Theorem buildKillAddCommand_inner_quotes (type id name : jsstring) :
  buildKillAddCommand type [] name = [] /\
  (id <> [] ->
   exists script,
     buildKillAddCommand type id name =
       lit "python -c " ++ [DQUOTE] ++ script ++ [DQUOTE] /\
     bare_free is_dquote script = false).
Proof.
  split; [reflexivity|]. intros Hid. unfold buildKillAddCommand.
  destruct id as [|c id]; [congruence|].
  eexists. split; [reflexivity|].
  rewrite bare_free_plain_app by (vm_compute; reflexivity).
  reflexivity.
Qed.

Lemma buildKillAddCommand_inner_quotes_witness :
  exists script,
    buildKillAddCommand (lit "JV_F_P") (lit "17") (lit "Alfa") =
      lit "python -c " ++ [DQUOTE] ++ script ++ [DQUOTE] /\
    bare_free is_dquote script = false.
Proof.
  apply (proj2 (buildKillAddCommand_inner_quotes (lit "JV_F_P") (lit "17")
                  (lit "Alfa"))).
  discriminate.
Defined.

(** *** The selection of the cleanup form *)

Lemma addFactorySelection_fst f selections :
  fst (addFactorySelection (Some f) selections) =
  if nonempty (rec_id f) && nonempty (rec_type f) &&
     negb (isFactorySelected (rec_type f) (rec_id f) selections)
  then selections ++ [entry_of f] else selections.
Proof.
  unfold addFactorySelection.
  destruct (nonempty (rec_id f)), (nonempty (rec_type f)); cbn; try reflexivity.
  now destruct (isFactorySelected _ _ selections).
Qed.

Lemma nonempty_iff_false s : nonempty s = false <-> s = [].
Proof. destruct s; cbn; split; congruence. Qed.

(** X10. What is selected after an add or a remove: after adding a factory
    the selected identities are the ones before, and the factory's own when
    it has an id and a type; after removing an identity from a selection
    without duplicates the selected identities are the ones before except
    that one. *)
Theorem selection_membership (selections : list Selection) :
  (forall f x,
     In x (map identity (fst (addFactorySelection (Some f) selections))) <->
     In x (map identity selections) \/
     (x = (rec_type f, rec_id f) /\ addable f)) /\
  (forall type id x,
     NoDup (map identity selections) ->
     (In x (map identity (fst (removeFactorySelection type id selections))) <->
      In x (map identity selections) /\ x <> (type, id))).
Proof.
  split.
  - intros f x. rewrite addFactorySelection_fst. unfold addable.
    destruct (nonempty (rec_id f)) eqn:Ei; cbn [andb];
      [|apply nonempty_iff_false in Ei; rewrite Ei; intuition congruence].
    destruct (nonempty (rec_type f)) eqn:Et; cbn [andb];
      [|apply nonempty_iff_false in Et; rewrite Et; intuition congruence].
    apply nonempty_iff in Ei, Et.
    destruct (isFactorySelected _ _ selections) eqn:Es; cbn [negb].
    + apply isFactorySelected_iff in Es. split; [auto|].
      intros [H|[-> _]]; auto.
    + rewrite map_app, in_app_iff. cbn. unfold identity at 2. cbn.
      intuition congruence.
  - intros type id x Hn. unfold removeFactorySelection.
    fold (matches type id).
    destruct (remove_first (matches type id) selections) as [rest|] eqn:E;
      cbn [fst].
    + apply remove_first_Some in E as (b & e & a & -> & -> & He & Hb).
      apply matches_iff in He.
      rewrite !map_app in *. cbn [map] in *. rewrite He in *.
      apply NoDup_app in Hn as (_ & Hd & Ha).
      apply NoDup_cons in Ha as [Ha _].
      rewrite !in_app_iff. cbn [In]. split.
      * intros [H|H]; (split; [tauto|]); intros ->.
        -- apply list_elem_of_In in H. apply (Hd _ H). now left.
        -- now apply list_elem_of_In in H.
      * intros [[H|[H|H]] Hx]; auto. congruence.
    + apply remove_first_None, not_matching_iff in E.
      split; [|tauto]. intros H. split; [exact H|]. now intros ->.
Qed.

Lemma selection_membership_witness :
  ~ In (lit "JV_F_P", lit "17")
      (map identity
         (fst (removeFactorySelection (lit "JV_F_P") (lit "17")
                 [{| sel_type := lit "JV_F_P"; sel_id := lit "17";
                     sel_name := lit "Alfa"; sel_count := None |}]))).
Proof.
  intros H.
  apply (proj2 (selection_membership
                  [{| sel_type := lit "JV_F_P"; sel_id := lit "17";
                      sel_name := lit "Alfa"; sel_count := None |}])
           (lit "JV_F_P") (lit "17") (lit "JV_F_P", lit "17")) in H.
  - now destruct H as [_ H].
  - repeat constructor. intros Hin. now apply elem_of_nil in Hin.
Defined.

Lemma remove_first_last p l e :
  Forall (fun x => p x = false) l -> p e = true ->
  remove_first p (l ++ [e]) = Some l.
Proof.
  intros Hl He. induction Hl as [|x l Hx _ IH]; cbn; [now rewrite He|].
  now rewrite Hx, IH.
Qed.

(** X11. Adding a factory that has an id and a type and is not yet
    selected, then removing its identity, gives back the selection as it
    was, and the removal reports success. *)
Theorem add_then_remove (f : FactoryRecord) (selections : list Selection) :
  addable f ->
  ~ In (rec_type f, rec_id f) (map identity selections) ->
  removeFactorySelection (rec_type f) (rec_id f)
    (fst (addFactorySelection (Some f) selections)) = (selections, true).
Proof.
  intros [Hi Ht] Hfresh. rewrite addFactorySelection_fst.
  apply nonempty_iff in Hi, Ht. rewrite Hi, Ht. cbn [andb].
  destruct (isFactorySelected _ _ selections) eqn:Es.
  { apply isFactorySelected_iff in Es. tauto. }
  cbn [negb]. unfold removeFactorySelection.
  fold (matches (rec_type f) (rec_id f)).
  rewrite remove_first_last; [reflexivity | |].
  - now apply not_matching_iff.
  - now apply matches_iff.
Qed.

Lemma add_then_remove_witness :
  removeFactorySelection (lit "XL_F_L") (lit "9")
    (fst (addFactorySelection
            (Some {| rec_type := lit "XL_F_L"; rec_id := lit "9";
                     rec_name := []; rec_itemCount := None |}) [])) =
  ([], true).
Proof.
  apply (add_then_remove
           {| rec_type := lit "XL_F_L"; rec_id := lit "9";
              rec_name := []; rec_itemCount := None |} []).
  - split; discriminate.
  - intros [].
Defined.

Lemma fold_apply_op_origin ops : forall start e,
  In e (fold_left apply_op ops start) ->
  In e start \/ exists f, In (Add (Some f)) ops /\ addable f /\ e = entry_of f.
Proof.
  induction ops as [|op ops IH]; intros start e He; [now left|].
  cbn [fold_left] in He. apply IH in He as [He|(f & Hf & Ha & ->)].
  - destruct op as [[f|]|type id]; cbn [apply_op] in He.
    + rewrite addFactorySelection_fst in He.
      destruct (nonempty (rec_id f)) eqn:Ei; cbn [andb] in He; [|now left].
      destruct (nonempty (rec_type f)) eqn:Et; cbn [andb] in He; [|now left].
      destruct (negb _); [|now left].
      apply in_app_iff in He as [He|[<-|[]]]; [now left|].
      right. exists f. split; [now left|].
      split; [split; now apply nonempty_iff | reflexivity].
    + now left.
    + unfold removeFactorySelection in He. fold (matches type id) in He.
      destruct (remove_first (matches type id) start) as [rest|] eqn:E;
        cbn [fst] in He; [|now left].
      apply remove_first_Some in E as (b & x & a & -> & -> & _).
      left. rewrite in_app_iff in *. cbn [In]. tauto.
  - right. exists f. split; [now right|]. now split.
Qed.

(** X12. Whatever adds and removes were made, no two selected entries share
    an identity, none lacks an id or a type, and each is the snapshot (type,
    id, name, count) of a factory some add was given. *)
Theorem selection_invariant (ops : list SelectionOp) :
  NoDup (map identity (selections_after ops)) /\
  Forall (fun e => sel_id e <> [] /\ sel_type e <> []) (selections_after ops) /\
  Forall (fun e => exists f, In (Add (Some f)) ops /\ e = entry_of f)
    (selections_after ops).
Proof.
  destruct (selections_after_well_formed ops) as [Hf Hn].
  repeat split; auto.
  rewrite Forall_forall. intros e He. apply list_elem_of_In in He.
  apply fold_apply_op_origin in He as [[]|(f & Hf' & _ & ->)]. eauto.
Qed.

(** *** The builders *)

Lemma commandBuilders_cases script build :
  own_property commandBuilders script = Some build ->
  (script = "killFabriks"%string /\ build = killFabriks) \/
  exists parts,
    In (script, parts) assembled_builders /\
    build = fun form _ => joinCommand (map TStr (parts form)).
Proof.
  unfold commandBuilders. cbn [own_property].
  repeat (destruct (String.eqb _ script) eqn:E;
          [apply String.eqb_eq in E; subst script; intros [= <-];
           first [ left; split; reflexivity
                 | right; eexists; split; [|reflexivity]; cbn; tauto ] |];
          clear E).
  discriminate.
Qed.

Lemma assembled_prefix script parts :
  In (script, parts) assembled_builders ->
  exists d,
    own_property DEFAULT_COMMANDS script = Some d /\
    joinCommand (map TStr (parts empty_form)) = d /\
    d <> [] /\
    forall form, exists rest, joinCommand (map TStr (parts form)) = d ++ rest.
Proof.
  assert (Hpre : forall (a : list jsstring) more d,
            joinCommand (map TStr a) = d -> d <> [] ->
            exists rest, joinCommand (map TStr (a ++ more)) = d ++ rest).
  { intros a more d <- Hd. rewrite map_app, joinCommand_app_eq.
    destruct (joinCommand (map TStr a)) as [|c x]; [congruence|].
    destruct (joinCommand (map TStr more)); eexists;
      [symmetry; apply app_nil_r | reflexivity]. }
  cbn [assembled_builders In].
  intros [H|[H|[H|[H|[H|[H|[]]]]]]]; injection H as <- <-;
    (eexists; split; [reflexivity|]; split; [vm_compute; reflexivity|];
     split; [discriminate|]; intros form; apply Hpre;
     [vm_compute; reflexivity | discriminate]).
Qed.

Lemma killFabriks_nonempty form selections : killFabriks form selections <> [].
Proof.
  unfold killFabriks.
  destruct (killFabriks_commands form selections) as [|c l] eqn:E;
    [discriminate|].
  rewrite <- E. intros H. apply join_nil_iff in H; [congruence|].
  unfold killFabriks_commands, when. apply Forall_app. split.
  - destruct (checkbox_checked form "run-cleanup"); repeat constructor.
    discriminate.
  - rewrite Forall_forall. intros x Hx.
    apply list_elem_of_In, in_flat_map in Hx as (e & _ & Hx). cbv zeta in Hx.
    destruct (nonempty (buildKillAddCommand _ _ _)) eqn:En; [|destruct Hx].
    destruct Hx as [<-|[]]. now apply nonempty_iff.
Qed.

(** X13. The preview is never blank and the fallback of [updateCommand] is
    never needed: every builder gives a non-empty text, which is what is
    shown; on a form with nothing filled in and nothing selected it gives
    the default command of its script; and but for the cleanup builder its
    text always begins with that default command. *)
Theorem preview_never_blank (script : string)
    (build : Form -> list Selection -> jsstring) (form : Form)
    (selections : list Selection) :
  own_property commandBuilders script = Some build ->
  exists d,
    own_property DEFAULT_COMMANDS script = Some d /\
    build empty_form [] = d /\
    build form selections <> [] /\
    updateCommand script form selections = Some (build form selections) /\
    (script <> "killFabriks"%string ->
     exists rest, build form selections = d ++ rest).
Proof.
  intros Hb.
  assert (Hshow : build form selections <> [] ->
            updateCommand script form selections =
            Some (build form selections)).
  { intros Hne. unfold updateCommand. rewrite Hb. cbv zeta.
    apply nonempty_iff in Hne. now rewrite Hne. }
  destruct (commandBuilders_cases script build Hb)
    as [[-> ->]|(parts & Hin & ->)].
  - exists DEFAULT_COMMANDS_killFabriks.
    pose proof (killFabriks_nonempty form selections) as Hne.
    repeat split; auto. congruence.
  - destruct (assembled_prefix script parts Hin) as (d & Hd & He & Hne & Hp).
    destruct (Hp form) as (rest & Hr).
    assert (Hn : joinCommand (map TStr (parts form)) <> []).
    { rewrite Hr. destruct d; [congruence | discriminate]. }
    exists d. repeat split; auto; intros _; now exists rest.
Qed.

Lemma preview_never_blank_witness :
  updateCommand "items" (with_limit empty_form (Some (lit "5"))) [] =
  Some (lit "python getItems.py --limit 5").
Proof.
  destruct (preview_never_blank "items" (fun form _ => items form)
              (with_limit empty_form (Some (lit "5"))) [] eq_refl)
    as (d & _ & _ & _ & H & _).
  rewrite H. vm_compute. reflexivity.
Defined.

Lemma getFieldValue_with_field_same form field raw :
  getFieldValue (with_field form field raw) field =
  match raw with Some v => trim v | None => [] end.
Proof. unfold getFieldValue, with_field. cbn. now rewrite String.eqb_refl. Qed.

Lemma getFieldValue_with_field_other form field raw name :
  String.eqb name field = false ->
  getFieldValue (with_field form field raw) name = getFieldValue form name.
Proof. intros H. unfold getFieldValue, with_field. cbn. now rewrite H. Qed.

Lemma when_default_or x d flag :
  x = d \/ x = [] ->
  when (nonempty (or_default x d) && negb (str_eqb (or_default x d) d))
    [flag; or_default x d] = [].
Proof.
  intros Hx.
  assert (E : or_default x d = d).
  { unfold or_default. destruct Hx as [-> | ->]; [|reflexivity].
    now destruct (nonempty d). }
  now rewrite E, str_eqb_refl, andb_false_r.
Qed.

Lemma when_default x d flag :
  x = d \/ x = [] -> when (nonempty x && negb (str_eqb x d)) [flag; x] = [].
Proof.
  intros [-> | ->]; [|reflexivity]. now rewrite str_eqb_refl, andb_false_r.
Qed.

Ltac settle_fields :=
  unfold limit_parts;
  rewrite ?getFieldValue_with_field_same;
  rewrite ?getFieldValue_with_field_other by reflexivity;
  unfold getCheckedValues;
  cbn [with_field with_checkbox checked_values checkbox_checked field_raw].

(** X14. A field left at the default of its script is as good as empty: in
    every builder, a field whose text, once trimmed, is its default gives
    the same tokens as the form without that field. *)
Theorem default_value_omitted (form : Form) :
  Forall
    (fun entry : (Form -> list jsstring) * string * jsstring =>
       let '(builder, field, default) := entry in
       forall raw : jsstring,
         trim raw = default \/ trim raw = [] ->
         builder (with_field form field (Some raw)) =
         builder (with_field form field None))
    defaulted_fields.
Proof.
  unfold defaulted_fields.
  do 12 (constructor;
          [intros raw Hraw;
           cbv beta zeta delta [fabrik_parts items_parts exportProducts_parts
                                  exportLister_parts makeHTML_parts];
           settle_fields;
           rewrite ?(when_default_or (trim raw)) by exact Hraw;
           rewrite ?(when_default (trim raw)) by exact Hraw;
           rewrite ?(when_default_or []) by (right; reflexivity);
           rewrite ?(when_default []) by (right; reflexivity);
           reflexivity |]).
  constructor.
Qed.

Lemma default_value_omitted_witness :
  makeHTML_parts (with_field empty_form "output-base" (Some (lit " readyhtml "))) =
  makeHTML_parts (with_field empty_form "output-base" None).
Proof.
  pose proof (default_value_omitted empty_form) as H.
  do 10 apply Forall_inv_tail in H. apply Forall_inv in H.
  apply (H (lit " readyhtml ")). left. vm_compute. reflexivity.
Defined.

Lemma checkbox_with_checkbox_same form box b :
  checkbox_checked (with_checkbox form box b) box = b.
Proof. unfold with_checkbox. cbn. now rewrite String.eqb_refl. Qed.

Lemma checkbox_with_checkbox_other form box b name :
  String.eqb name box = false ->
  checkbox_checked (with_checkbox form box b) name = checkbox_checked form name.
Proof. intros H. unfold with_checkbox. cbn. now rewrite H. Qed.

Lemma getFieldValue_with_checkbox form box b name :
  getFieldValue (with_checkbox form box b) name = getFieldValue form name.
Proof. reflexivity. Qed.

Section Layout.

Variable x : list jsstring.

Lemma layout_here (r : list jsstring) :
  exists before after,
    when true x ++ r = before ++ x ++ after /\
    when false x ++ r = before ++ after.
Proof. exists [], r. split; reflexivity. Qed.

Lemma layout_end :
  exists before after,
    when true x = before ++ x ++ after /\ when false x = before ++ after.
Proof. exists [], []. split; [symmetry; apply app_nil_r | reflexivity]. Qed.

Lemma layout_skip (s t f : list jsstring) :
  (exists before after, t = before ++ x ++ after /\ f = before ++ after) ->
  exists before after,
    s ++ t = before ++ x ++ after /\ s ++ f = before ++ after.
Proof.
  intros (b & a & -> & ->). exists (s ++ b), a.
  split; now rewrite <- app_assoc.
Qed.

End Layout.

(** X15. A checkbox stands for one bare flag: in every builder, checking a
    box puts exactly its flag at its place among the tokens, and unchecking
    it leaves the other tokens as they are, with nothing in its place. *)
Theorem toggle_flags (form : Form) :
  Forall
    (fun entry : (Form -> list jsstring) * string * jsstring =>
       let '(builder, box, flag) := entry in
       exists before after,
         builder (with_checkbox form box true) = before ++ [flag] ++ after /\
         builder (with_checkbox form box false) = before ++ after)
    toggles.
Proof.
  unfold toggles.
  do 11 (constructor;
         [cbv beta zeta delta [login_parts fabrik_parts items_parts
                                exportProducts_parts exportLister_parts
                                makeHTML_parts limit_parts getCheckedValues];
          rewrite ?getFieldValue_with_checkbox;
          rewrite ?checkbox_with_checkbox_same;
          rewrite ?checkbox_with_checkbox_other by reflexivity;
          cbn [with_checkbox checked_values];
          repeat first [ apply layout_end | apply layout_here
                       | apply layout_skip ] |]).
  constructor.
Qed.

Example toggle_flags_dry_run :
  exportLister (with_checkbox (with_checkbox empty_form "verbose" true)
                  "dry-run" true) =
  lit "python exportLister.py --dry-run --verbose".
Proof. vm_compute. reflexivity. Qed.

Lemma last_rev {A} (l : list A) : last (rev l) = head l.
Proof. destruct l; [reflexivity|]. cbn [rev]. apply last_snoc. Qed.

Lemma trimStart_head s c : head (trimStart s) = Some c -> is_white_space c = false.
Proof.
  induction s as [|x s IH]; [discriminate|]. cbn [trimStart].
  destruct (is_white_space x) eqn:E; [exact IH|]. now intros [= <-].
Qed.

Lemma trim_tidy s : tidy (trim s).
Proof. intros c. unfold trim, trimEnd. rewrite last_rev. apply trimStart_head. Qed.

Lemma String_of_number_tidy n : tidy (String_of_number n).
Proof.
  intros c Hc.
  assert (Hd : forall d, last (uint_units d) = Some c -> is_white_space c = false).
  { intros d Hl. apply safe_not_white_space, is_digit_safe.
    pose proof (uint_units_digits d) as H. rewrite Forall_forall in H.
    apply H, last_Some_elem_of, Hl. }
  unfold String_of_number in Hc. destruct (Z.to_int n) as [d|d] eqn:E.
  - now apply (Hd d).
  - apply (Hd d). destruct (uint_units d) as [|u us] eqn:Eu; [|exact Hc].
    exfalso. destruct n as [|p|p]; cbn in E; try discriminate.
    injection E as <-. now apply uint_units_nonnil in Eu;
      [|apply Unsigned.to_uint_nonnil].
Qed.

Lemma tidy_or_default x d : tidy x -> tidy d -> tidy (or_default x d).
Proof. unfold or_default. now destruct (nonempty x). Qed.

Lemma kept_texts_strings parts s :
  In s (kept_texts (map TStr parts)) -> In s parts.
Proof.
  unfold kept_texts. rewrite in_flat_map. intros (t & Ht & Hs).
  apply in_map_iff in Ht as (x & <- & Hx). cbn in Hs.
  destruct x; [destruct Hs|]. destruct Hs as [<-|[]]. exact Hx.
Qed.

Lemma joinCommand_tidy parts :
  Forall tidy parts -> tidy (joinCommand (map TStr parts)).
Proof.
  intros Hp c Hc. destruct (is_white_space c) eqn:Ew; [|reflexivity].
  rewrite joinCommand_pipeline, last_join, last_map in Hc
    by apply quoted_kept_nonempty.
  destruct (last (kept_texts (map TStr parts))) as [s|] eqn:El; [|discriminate].
  cbn in Hc. apply shellQuote_last in Hc as [_ Hl]; [|exact Ew].
  apply last_Some_elem_of, list_elem_of_In, kept_texts_strings in El.
  rewrite Forall_forall in Hp. apply list_elem_of_In, Hp in El.
  rewrite <- Ew. now apply El.
Qed.

Lemma joinCommand_head parts c :
  head (joinCommand parts) = Some c -> is_white_space c = false.
Proof.
  rewrite joinCommand_pipeline, head_join by apply quoted_kept_nonempty.
  destruct (kept_texts parts) as [|s l]; [discriminate|].
  apply shellQuote_head.
Qed.

Ltac tidy_tokens :=
  repeat first
    [ apply Forall_nil_2
    | apply Forall_cons_2
    | apply Forall_app_2
    | apply trim_tidy
    | apply String_of_number_tidy
    | apply tidy_or_default
    | (unfold tidy; intros ? Hc; vm_compute in Hc;
       first [discriminate Hc | injection Hc as <-; reflexivity]) ].

(** X16. The commands of the fabrik and items builders, which take their
    values from text fields only, never begin or end with white space,
    whatever is typed into the form. *)
Theorem text_builders_tidy (form : Form) (c : N) :
  head (fabrik form) = Some c \/ last (fabrik form) = Some c \/
  head (items form) = Some c \/ last (items form) = Some c ->
  is_white_space c = false.
Proof.
  assert (Hf : Forall tidy (fabrik_parts form)).
  { unfold fabrik_parts, when. cbv zeta. unfold getFieldValue.
    destruct (field_raw form "account"), (field_raw form "target");
      repeat match goal with |- context [if ?b then _ else _] => destruct b end;
      tidy_tokens. }
  assert (Hi : Forall tidy (items_parts form)).
  { unfold items_parts, limit_parts, when. cbv zeta. unfold getFieldValue.
    destruct (field_raw form "account"), (field_raw form "dataset"),
             (parseInteger _);
      repeat match goal with |- context [if ?b then _ else _] => destruct b end;
      tidy_tokens. }
  intros [H|[H|[H|H]]].
  - now apply joinCommand_head in H.
  - now apply (joinCommand_tidy _ Hf).
  - now apply joinCommand_head in H.
  - now apply (joinCommand_tidy _ Hi).
Qed.

Lemma text_builders_tidy_witness :
  last (items (with_limit empty_form (Some (lit " 5 ")))) = Some 53 /\
  is_white_space 53 = false.
Proof.
  split; [vm_compute; reflexivity|].
  apply (text_builders_tidy (with_limit empty_form (Some (lit " 5 "))) 53).
  right. right. right. vm_compute. reflexivity.
Defined.

(** ** Further properties of the catalog loader *)

Section LoaderMore.

Variable cmp : jsstring -> jsstring -> Z.

Lemma loaded_step_same st e :
  loader_ok st -> factoriesLoaded st = true -> step cmp st e = st.
Proof.
  intros Hok Hl.
  assert (Ha : activations st = []).
  { unfold loader_ok in Hok.
    destruct (activations st) as [|sw [|sw' l]]; [reflexivity| |destruct Hok].
    destruct Hok as [Hok _]. congruence. }
  destruct e as [|id o|id]; cbn [step].
  - now rewrite loadAllFactories_loaded.
  - unfold fetch_settled, find_activation. now rewrite Ha.
  - unfold sweep_rejected, find_activation. now rewrite Ha.
Qed.

(** X17. Once the catalog is memoized nothing changes it any more: after
    any run that has ended a sweep successfully, any further calls, late
    fetch completions or rejections leave the whole loader state, the
    catalog, the error list and the list of requests as they are. *)
Theorem catalog_frozen_once_loaded (trace more : list Event) :
  factoriesLoaded (run cmp trace initial_loader) = true ->
  run cmp (trace ++ more) initial_loader = run cmp trace initial_loader.
Proof.
  intros Hl. rewrite run_app.
  pose proof (run_ok cmp trace initial_loader initial_loader_ok) as Hok.
  revert Hl Hok. generalize (run cmp trace initial_loader). intros st Hl Hok.
  induction more as [|e more IH]; [reflexivity|].
  rewrite run_cons, loaded_step_same by assumption. exact IH.
Qed.

Lemma normalized_entries_type type payload r :
  In r (normalized_entries type payload) -> rec_type r = type.
Proof.
  unfold normalized_entries. rewrite in_flat_map. intros (x & _ & Hr).
  destruct (normalizeFactoryRecord type x) as [r'|] eqn:E; [|destruct Hr].
  destruct Hr as [<-|[]]. unfold normalizeFactoryRecord in E.
  destruct (negb (is_object x)); [discriminate|].
  destruct (negb (truthy _)); [discriminate|]. now injection E as <-.
Qed.

Lemma label_or_type_source type source rest passed :
  FACTORY_SOURCES = passed ++ (type, source) :: rest ->
  In type source_type_names /\ In (label_or_type type) source_labels.
Proof.
  intros H.
  assert (Hin : In (type, source) FACTORY_SOURCES).
  { rewrite H. apply in_app_iff. right. now left. }
  clear H. unfold FACTORY_SOURCES in Hin. cbn [In] in Hin.
  destruct Hin as [H|[H|[H|[H|[]]]]]; injection H as <- <-;
    split; vm_compute; tauto.
Qed.

Lemma drop_activation_Forall (P : Sweep -> Prop) id l :
  Forall P l -> Forall P (drop_activation id l).
Proof.
  intros H. unfold drop_activation. rewrite Forall_forall in *.
  intros x Hx. apply list_elem_of_In, filter_In in Hx as [Hx _].
  now apply H, list_elem_of_In.
Qed.

Lemma resume_typed id rest collected st passed :
  loader_typed st -> Forall of_source collected ->
  FACTORY_SOURCES = passed ++ rest ->
  loader_typed (resume cmp id rest collected st).
Proof.
  intros (Hc & Ha & He) Hcol Hp. unfold resume, loader_typed.
  destruct rest as [|[t s] rest];
    cbn [cachedFactories activations factoryLoadErrors].
  - split; [|split; [|exact He]].
    + rewrite Forall_forall in *. intros r Hr. apply Hcol.
      apply list_elem_of_In. apply list_elem_of_In in Hr.
      eapply Permutation_in; [apply Array_sort_permutation | exact Hr].
    + now apply drop_activation_Forall.
  - split; [exact Hc|split; [|exact He]].
    constructor; [|now apply drop_activation_Forall].
    split; [exact Hcol | now exists passed].
Qed.

Lemma with_error_typed st type source rest passed :
  FACTORY_SOURCES = passed ++ (type, source) :: rest ->
  loader_typed st -> loader_typed (with_error st (label_or_type type)).
Proof.
  intros Hp (Hc & Ha & He).
  destruct (label_or_type_source _ _ _ _ Hp) as [_ Hl].
  unfold loader_typed, with_error.
  cbn [cachedFactories activations factoryLoadErrors].
  split; [exact Hc|split; [exact Ha|]].
  apply Forall_app. split; [exact He|].
  constructor; [exact Hl|constructor].
Qed.

Lemma step_typed st e : loader_typed st -> loader_typed (step cmp st e).
Proof.
  intros H. destruct e as [|id o|id]; cbn [step].
  - destruct (factoriesLoaded st) eqn:El;
      [now rewrite loadAllFactories_loaded|].
    destruct (factoriesPromise st) as [id|] eqn:Ep;
      [now rewrite (loadAllFactories_pending cmp st id)|].
    rewrite loadAllFactories_fresh by assumption. cbn [fst].
    destruct H as (Hc & Ha & He). unfold loader_typed, sweep_started.
    cbn [cachedFactories activations factoryLoadErrors].
    split; [exact Hc|split; [|constructor]].
    constructor; [|now apply drop_activation_Forall].
    split; [constructor | now exists []].
  - destruct (find_activation id st) as [sw|] eqn:Ef;
      [|unfold fetch_settled; now rewrite Ef].
    assert (Hsw : sweep_on_track sw).
    { destruct H as (_ & Ha & _). unfold find_activation in Ef.
      apply find_some in Ef as [Ef _]. rewrite Forall_forall in Ha.
      now apply Ha, list_elem_of_In. }
    destruct Hsw as (Hcol & passed & Hp).
    destruct (awaiting sw) as [|[type source] rest] eqn:Ew;
      [unfold fetch_settled; now rewrite Ef, Ew|].
    assert (Hp' : FACTORY_SOURCES = (passed ++ [(type, source)]) ++ rest)
      by now rewrite <- app_assoc.
    rewrite (fetch_settled_active cmp id o st sw type source rest Ef Ew).
    destruct (source_payload o) as [payload|].
    + apply (resume_typed _ _ _ _ (passed ++ [(type, source)]) H); [|exact Hp'].
      apply Forall_app. split; [exact Hcol|].
      rewrite Forall_forall. intros r Hr. apply list_elem_of_In in Hr.
      apply normalized_entries_type in Hr. unfold of_source. rewrite Hr.
      exact (proj1 (label_or_type_source _ _ _ _ Hp)).
    + apply (resume_typed _ _ _ _ (passed ++ [(type, source)]));
        [|exact Hcol|exact Hp'].
      exact (with_error_typed st type source rest passed Hp H).
  - unfold sweep_rejected.
    destruct (find_activation id st); [|exact H].
    destruct H as (Hc & Ha & He). unfold loader_typed.
    cbn [cachedFactories activations factoryLoadErrors].
    split; [exact Hc|split; [|exact He]].
    now apply drop_activation_Forall.
Qed.

(** X18. Whatever happens, every record of the memoized catalog carries one
    of the four configured source types, and every entry of the error list
    is the label of a configured source. *)
Theorem catalog_of_sources (trace : list Event) :
  Forall of_source (cachedFactories (run cmp trace initial_loader)) /\
  Forall (fun l => In l source_labels)
    (factoryLoadErrors (run cmp trace initial_loader)).
Proof.
  assert (H : loader_typed (run cmp trace initial_loader)).
  { assert (H0 : loader_typed initial_loader).
    { unfold loader_typed, initial_loader.
      cbn [cachedFactories activations factoryLoadErrors].
      split; [constructor|split; constructor]. }
    revert H0. generalize initial_loader.
    induction trace as [|e trace IH]; intros st Hst; [exact Hst|].
    rewrite run_cons. now apply IH, step_typed. }
  destruct H as (Hc & _ & He). now split.
Qed.

Lemma compareFactories_total :
  sign_symmetric cmp ->
  forall a b, (0 < compareFactories cmp a b)%Z ->
              (compareFactories cmp b a <= 0)%Z.
Proof.
  intros Hs a b. unfold compareFactories.
  assert (Esym : str_eqb (rec_type b) (rec_type a) =
                 str_eqb (rec_type a) (rec_type b)).
  { destruct (str_eqb (rec_type a) (rec_type b)) eqn:E.
    - apply str_eqb_eq in E. rewrite E. apply str_eqb_refl.
    - apply str_eqb_neq. apply str_eqb_neq in E. congruence. }
  rewrite Esym. destruct (str_eqb (rec_type a) (rec_type b)); cbn [negb].
  - destruct (cmp (rec_name a) (rec_name b) =? 0)%Z eqn:En; cbn [negb].
    + apply Z.eqb_eq in En. apply (Hs _ _) in En. rewrite En. cbn.
      intros H. apply (Hs _ _) in H. lia.
    + intros H. apply (Hs _ _) in H.
      destruct (cmp (rec_name b) (rec_name a) =? 0)%Z eqn:En'; cbn [negb]; [|lia].
      apply Z.eqb_eq in En'. lia.
  - intros H. apply (Hs _ _) in H. lia.
Qed.

Lemma sort_insert_sorted {A} (f : A -> A -> Z) x l :
  (forall a b, (0 < f a b)%Z -> (f b a <= 0)%Z) ->
  Sorted (fun a b => (f a b <= 0)%Z) l ->
  Sorted (fun a b => (f a b <= 0)%Z) (sort_insert f x l).
Proof.
  intros Ht. induction l as [|y l IH]; intros Hl; cbn [sort_insert].
  - repeat constructor.
  - destruct (f x y <=? 0)%Z eqn:E.
    + apply Z.leb_le in E. constructor; [exact Hl | now constructor].
    + apply Z.leb_gt in E. apply Sorted_inv in Hl as [Hl Hh].
      constructor; [now apply IH|].
      destruct l as [|z l]; cbn [sort_insert].
      * constructor. now apply Ht.
      * destruct (f x z <=? 0)%Z; constructor; [now apply Ht|].
        now apply HdRel_inv in Hh.
Qed.

Lemma Array_sort_sorted {A} (f : A -> A -> Z) l :
  (forall a b, (0 < f a b)%Z -> (f b a <= 0)%Z) ->
  Sorted (fun a b => (f a b <= 0)%Z) (Array_sort f l).
Proof.
  intros Ht. induction l as [|x l IH]; [constructor|].
  cbn [Array_sort]. now apply sort_insert_sorted.
Qed.

Lemma step_sorted st e :
  sign_symmetric cmp ->
  Sorted (in_catalog_order cmp) (cachedFactories st) ->
  Sorted (in_catalog_order cmp) (cachedFactories (step cmp st e)).
Proof.
  intros Hs H.
  assert (Hr : forall id rest collected st',
            cachedFactories st' = cachedFactories st ->
            Sorted (in_catalog_order cmp)
              (cachedFactories (resume cmp id rest collected st'))).
  { intros id rest collected st' E. unfold resume.
    destruct rest as [|[t s] rest]; cbn; [|now rewrite E].
    apply Array_sort_sorted, compareFactories_total, Hs. }
  destruct e as [|id o|id]; cbn [step].
  - unfold loadAllFactories.
    destruct (factoriesLoaded st); [exact H|].
    destruct (factoriesPromise st); [exact H|]. exact H.
  - unfold fetch_settled.
    destruct (find_activation id st) as [sw|]; [|exact H].
    destruct (awaiting sw) as [|[type source] rest]; [exact H|].
    destruct (fetched_payload o) as [[| | | |payload|]|]; now apply Hr.
  - unfold sweep_rejected. now destruct (find_activation id st).
Qed.

(** X19. With a comparator that says the opposite when its arguments are
    swapped, as a collator does, the memoized catalog is in order at all
    times: each record stands before the next by source type, then name,
    then id. *)
Theorem catalog_sorted (trace : list Event) :
  sign_symmetric cmp ->
  Sorted (in_catalog_order cmp) (cachedFactories (run cmp trace initial_loader)).
Proof.
  intros Hs.
  assert (H0 : Sorted (in_catalog_order cmp) (cachedFactories initial_loader))
    by constructor.
  revert H0. generalize initial_loader.
  induction trace as [|e trace IH]; intros st Hst; [exact Hst|].
  rewrite run_cons. now apply IH, step_sorted.
Qed.

(** X20. A sweep in which every source fails still ends by memoizing: the
    catalog is empty, the error list holds the four labels, and no later
    call, fetch completion or rejection makes another request. *)
Theorem all_sources_down_is_final (o1 o2 o3 o4 : FetchOutcome)
    (more : list Event) :
  Forall (fun o => source_payload o = None) [o1; o2; o3; o4] ->
  let sweep := CallLoadAll :: map (FetchSettled 0) [o1; o2; o3; o4] in
  let st := run cmp (sweep ++ more) initial_loader in
  factoriesLoaded st = true /\ cachedFactories st = [] /\
  factoryLoadErrors st = source_labels /\ fetch_log st = all_paths /\
  loadAllFactories cmp st = (st, Resolved []).
Proof.
  intros Hall sweep st.
  destruct (run_first_sweep cmp [o1; o2; o3; o4] eq_refl _ eq_refl)
    as (Rc & Rl & _ & Re & _ & Rf).
  fold sweep in Rc, Rl, Re, Rf.
  assert (E : st = run cmp sweep initial_loader).
  { unfold st. rewrite run_app.
    pose proof (run_ok cmp sweep initial_loader initial_loader_ok) as Hok.
    revert Rl Hok. generalize (run cmp sweep initial_loader). intros s Rl Hok.
    induction more as [|e more IH]; [reflexivity|].
    rewrite run_cons, loaded_step_same by assumption. exact IH. }
  apply Forall_cons in Hall as [H1 Hall]. apply Forall_cons in Hall as [H2 Hall].
  apply Forall_cons in Hall as [H3 Hall]. apply Forall_cons in Hall as [H4 _].
  assert (Ec : cachedFactories st = []).
  { rewrite E, Rc. cbn [successful_entries FACTORY_SOURCES].
    now rewrite H1, H2, H3, H4. }
  repeat split.
  - now rewrite E.
  - exact Ec.
  - rewrite E, Re. cbn [failed_labels FACTORY_SOURCES].
    now rewrite H1, H2, H3, H4.
  - now rewrite E.
  - rewrite loadAllFactories_loaded by now rewrite E. now rewrite Ec.
Qed.

End LoaderMore.

Lemma catalog_frozen_once_loaded_witness :
  run codeunit_compare
    ([CallLoadAll; FetchSettled 0 FetchRejected; FetchSettled 0 FetchRejected;
      FetchSettled 0 FetchRejected; FetchSettled 0 FetchRejected] ++
     [CallLoadAll; SweepRejected 0; FetchSettled 0 (Response true (Some (JArr [])))])
    initial_loader =
  run codeunit_compare
    [CallLoadAll; FetchSettled 0 FetchRejected; FetchSettled 0 FetchRejected;
     FetchSettled 0 FetchRejected; FetchSettled 0 FetchRejected]
    initial_loader.
Proof.
  apply (catalog_frozen_once_loaded codeunit_compare). vm_compute. reflexivity.
Defined.

Lemma codeunit_compare_sign_symmetric : sign_symmetric codeunit_compare.
Proof.
  intros a. induction a as [|x a IH]; intros [|y b]; cbn; try (split; lia).
  destruct (x <? y) eqn:E1, (y <? x) eqn:E2;
    rewrite ?N.ltb_lt, ?N.ltb_ge in *; try (split; lia). apply IH.
Qed.

Lemma catalog_sorted_witness :
  Sorted (in_catalog_order codeunit_compare)
    (cachedFactories
       (run codeunit_compare
          [CallLoadAll;
           FetchSettled 0 (Response true (Some (JArr
             [JObj [(lit "id", JNum 7); (lit "name", JStr (lit "b"))];
              JObj [(lit "id", JNum 3); (lit "name", JStr (lit "a"))]])));
           FetchSettled 0 FetchRejected; FetchSettled 0 FetchRejected;
           FetchSettled 0 FetchRejected]
          initial_loader)).
Proof.
  apply (catalog_sorted codeunit_compare). exact codeunit_compare_sign_symmetric.
Defined.

Lemma all_sources_down_is_final_witness :
  fetch_log
    (run codeunit_compare
       ((CallLoadAll ::
         map (FetchSettled 0)
           [FetchRejected; Response false None; Response true None;
            Response true (Some (JObj []))]) ++ [CallLoadAll; CallLoadAll])
       initial_loader) = all_paths.
Proof.
  apply (all_sources_down_is_final codeunit_compare
           FetchRejected (Response false None) (Response true None)
           (Response true (Some (JObj []))) [CallLoadAll; CallLoadAll]).
  repeat constructor.
Defined.

(** *** The ignore page: catalog and ignore lists *)















(** *** The ignore page: selection and apply *)

Lemma filter_sublist {A} (p : A -> bool) l : sublist (List.filter p l) l.
Proof.
  induction l as [|x l IH]; cbn [List.filter]; [constructor|].
  destruct (p x); now constructor.
Qed.

Lemma ignore_step_frame data fetch st :
  let st1 :=
    match prop data (lit "ignore_keys") with
    | Some (JArr (k :: keys)) => with_ignoreSet st (new_Set (k :: keys))
    | _ => loadIgnoreLists fetch st
    end in
  factories st1 = factories st /\ selections st1 = selections st /\
  loadErrors st1 = loadErrors st /\ isPickerOpen st1 = isPickerOpen st /\
  isApplying st1 = isApplying st.
Proof.
  destruct (prop data (lit "ignore_keys")) as [[| | | |[|k keys]|]|];
    repeat split; reflexivity.
Qed.

Lemma applySelections_try_cases response fetch panel st :
  applySelections_try response fetch panel st = st \/
  exists data,
    fetched_payload response = Some data /\
    let st1 :=
      match prop data (lit "ignore_keys") with
      | Some (JArr (k :: keys)) => with_ignoreSet st (new_Set (k :: keys))
      | _ => loadIgnoreLists fetch st
      end in
    applySelections_try response fetch panel st = st1 \/
    exists failed : gset (list N),
      applySelections_try response fetch panel st =
      with_selections st1
        (List.filter
           (fun entry =>
              bool_decide (keyFor (entry_type entry) (entry_id entry) ∈ failed))
           (selections st1)).
Proof.
  unfold applySelections_try.
  destruct (fetched_payload response) as [data|]; [|now left].
  destruct data as [|b|n|s|l|fields]; [now left| | | | |];
    (match goal with
     | |- context [showResults_throws ?p ?r] =>
         destruct (showResults_throws p r); [now left|]
     end;
     right; eexists; split; [reflexivity|];
     match goal with
     | |- context [failedKeys ?r] =>
         destruct (failedKeys r) as [failed|];
           [right; exists failed; reflexivity | left; reflexivity]
     end).
Qed.

Lemma applySelections_try_sublist response fetch panel st :
  sublist (selections (applySelections_response response fetch panel st))
    (selections st).
Proof.
  unfold applySelections_response. cbn [with_isApplying selections].
  destruct (applySelections_try_cases response fetch panel st)
    as [E|(data & Hd & Hcases)]; [now rewrite E|].
  destruct (ignore_step_frame data fetch st) as (_ & Hs & _).
  cbv zeta in Hcases. destruct Hcases as [E|(failed & E)]; rewrite E.
  - now rewrite Hs.
  - cbn [with_selections selections]. rewrite Hs. apply filter_sublist.
Qed.

(** X24. Whatever the apply request comes to, the answer never adds to the
    selection and never reorders it: what is selected afterwards is what was
    selected before with some entries taken out; the catalog and the load
    errors stay as they are and the page is no longer applying.  When the
    request fails, is answered outside 2xx or with a body that is not JSON,
    the selection and the ignore set are left untouched. *)
Theorem applySelections_only_removes (response : FetchOutcome)
    (fetch : jsstring -> FetchOutcome) (panel : bool) (st : State) :
  sublist (selections (applySelections_response response fetch panel st))
    (selections st) /\
  factories (applySelections_response response fetch panel st) = factories st /\
  loadErrors (applySelections_response response fetch panel st) = loadErrors st /\
  isApplying (applySelections_response response fetch panel st) = false /\
  match fetched_payload response with
  | Some _ => True
  | None =>
      selections (applySelections_response response fetch panel st) =
        selections st /\
      ignoreSet (applySelections_response response fetch panel st) =
        ignoreSet st
  end.
Proof.
  unfold applySelections_response.
  cbn [with_isApplying selections factories loadErrors isApplying ignoreSet].
  destruct (applySelections_try_cases response fetch panel st)
    as [E|(data & Hd & Hcases)].
  - rewrite E. repeat split; try reflexivity.
    now destruct (fetched_payload response).
  - rewrite Hd.
    destruct (ignore_step_frame data fetch st) as (Hf & Hs & He & _ & _).
    cbv zeta in Hcases. destruct Hcases as [E|(failed & E)]; rewrite E.
    + rewrite Hf, Hs, He. repeat split; reflexivity.
    + cbn [with_selections selections factories loadErrors].
      rewrite Hf, Hs, He. repeat split; try reflexivity.
      apply filter_sublist.
Qed.

(** X25. The apply button sends nothing when nothing is selected or a
    request is already under way.  Otherwise it sends one entry (type, id,
    name) for each selected entry, in order, together with the overwrite
    flag, and from then on, whatever is picked or taken back meanwhile, a
    further click sends nothing until the answer has come, which unlocks the
    button in every case. *)
Theorem applySelections_one_at_a_time (overwrite : bool) (st : State) :
  match applySelections_request overwrite st with
  | None => selections st = [] \/ isApplying st = true
  | Some (st1, payload) =>
      selections st <> [] /\ isApplying st = false /\
      payload = (overwrite, map sent_entry (selections st)) /\
      selections st1 = selections st /\ ignoreSet st1 = ignoreSet st /\
      (forall events again,
         forallb (fun e => negb (is_answer e)) events = true ->
         applySelections_request again (page_run events st1) = None) /\
      (forall response fetch panel,
         isApplying (applySelections_response response fetch panel st1) = false)
  end.
Proof.
  unfold applySelections_request.
  destruct (selections st) as [|e l] eqn:Es; cbn [nonempty_list negb orb];
    [now left|].
  destruct (isApplying st) eqn:Ea; [now right|].
  split; [discriminate|]. split; [reflexivity|]. split; [reflexivity|].
  cbn [with_isApplying selections ignoreSet]. rewrite Es.
  split; [reflexivity|]. split; [reflexivity|]. split; [|reflexivity].
  intros events again Hev.
  assert (Hrun : forall s, isApplying s = true ->
                           isApplying (page_run events s) = true).
  { clear -Hev. induction events as [|ev events IH]; intros s Hs; [exact Hs|].
    cbn [forallb] in Hev. apply andb_true_iff in Hev as [He Hev].
    unfold page_run. cbn [fold_left]. apply (IH Hev).
    destruct ev as [f|t i|o|r f p]; cbn [page_step]; [| | |discriminate].
    - unfold addSelection. now destruct (isSelected s _ _).
    - unfold removeSelection. now destruct (remove_first_entry _ _).
    - unfold applySelections_request. rewrite Hs, orb_true_r. exact Hs. }
  rewrite Hrun by reflexivity. now rewrite orb_true_r.
Qed.

Lemma page_isSelected_iff st type id :
  isSelected st type id = true <->
  In (type, id) (map entry_identity (selections st)).
Proof.
  unfold isSelected. rewrite existsb_exists, in_map_iff.
  split; intros (e & H1 & H2); exists e.
  - apply andb_true_iff in H2 as [Ht Hi]. apply str_eqb_eq in Ht, Hi.
    split; [unfold entry_identity; congruence | exact H1].
  - split; [exact H2|]. unfold entry_identity in H1. injection H1 as <- <-.
    now rewrite !str_eqb_refl.
Qed.

Lemma remove_first_entry_Some p l rest :
  remove_first_entry p l = Some rest ->
  exists before entry after,
    l = before ++ entry :: after /\ rest = before ++ after /\
    p entry = true /\ Forall (fun e => p e = false) before.
Proof.
  revert rest. induction l as [|e l IH]; cbn; [discriminate|]. intros rest.
  destruct (p e) eqn:E.
  - intros [= <-]. exists [], e, l. repeat split; auto; constructor.
  - destruct (remove_first_entry p l) as [r|]; [|discriminate].
    intros [= <-]. destruct (IH r eq_refl) as (b & x & a & -> & -> & Hx & Hb).
    exists (e :: b), x, a. repeat split; auto; now constructor.
Qed.

Lemma remove_first_entry_sublist p l rest :
  remove_first_entry p l = Some rest -> sublist rest l.
Proof.
  intros H. apply remove_first_entry_Some in H
    as (before & entry & after & -> & -> & _ & _).
  apply sublist_app; [reflexivity|]. now apply sublist_cons.
Qed.

Lemma map_sublist {A B} (f : A -> B) l1 l2 :
  sublist l1 l2 -> sublist (map f l1) (map f l2).
Proof. induction 1; cbn [map]; now constructor. Qed.

Lemma sublist_In {A} (l1 l2 : list A) x : sublist l1 l2 -> In x l1 -> In x l2.
Proof.
  induction 1 as [|y l1 l2 _ IH|y l1 l2 _ IH]; cbn [In]; [tauto| |]; tauto.
Qed.

(** One step of the page changes the selection in one of two ways. *)
Lemma page_step_selections st e :
  sublist (selections (page_step st e)) (selections st) \/
  exists factory,
    e = Pick factory /\
    ~ In (entry_identity factory) (map entry_identity (selections st)) /\
    selections (page_step st e) = selections st ++ [factory].
Proof.
  destruct e as [factory|type id|overwrite|response fetch panel];
    cbn [page_step].
  - unfold addSelection.
    destruct (isSelected st (entry_type factory) (entry_id factory)) eqn:E;
      cbn [fst]; [now left|].
    right. exists factory. split; [reflexivity|]. split; [|reflexivity].
    intros H. apply page_isSelected_iff in H. congruence.
  - left. unfold removeSelection.
    destruct (remove_first_entry _ (selections st)) as [rest|] eqn:E;
      cbn [fst]; [|reflexivity].
    cbn [with_selections selections].
    now apply remove_first_entry_sublist in E.
  - left. unfold applySelections_request.
    now destruct (negb (nonempty_list (selections st)) || isApplying st).
  - left. destruct (isApplying st); [|reflexivity].
    apply applySelections_try_sublist.
Qed.

(** X26. Through any sequence of picks, take-backs, clicks on apply and
    answers to the apply request, a selection without two entries of the
    same identity stays so, and every selected entry is one that was
    selected at the start or the factory some pick was given. *)
Theorem page_selection_invariant (events : list PageEvent) (st : State) :
  NoDup (map entry_identity (selections st)) ->
  NoDup (map entry_identity (selections (page_run events st))) /\
  Forall (fun entry => In entry (selections st) \/ In (Pick entry) events)
    (selections (page_run events st)).
Proof.
  revert st. induction events as [|e events IH]; intros st Hnd.
  - split; [exact Hnd|]. apply Forall_forall. intros x Hx.
    left. now apply list_elem_of_In.
  - unfold page_run. cbn [fold_left]. fold (page_run events (page_step st e)).
    assert (Hstep : NoDup (map entry_identity (selections (page_step st e))) /\
                    forall x, In x (selections (page_step st e)) ->
                              In x (selections st) \/ Pick x = e).
    { destruct (page_step_selections st e) as [Hs|(f & -> & Hf & ->)].
      - split.
        + eapply sublist_NoDup; [exact Hnd | now apply map_sublist].
        + intros x Hx. left. eapply sublist_In; eassumption.
      - split.
        + rewrite map_app. apply NoDup_app. split; [exact Hnd|]. split.
          * intros x Hx Hk. apply list_elem_of_In in Hx, Hk.
            cbn [map In] in Hk. destruct Hk as [<-|[]]. exact (Hf Hx).
          * cbn. apply NoDup_singleton.
        + intros x [Hx|[<-|[]]]%in_app_iff; auto. }
    destruct Hstep as [Hnd' Horigin].
    destruct (IH _ Hnd') as [H1 H2]. split; [exact H1|].
    rewrite Forall_forall in *. intros x Hx.
    destruct (H2 x Hx) as [H|H].
    + destruct (Horigin x H) as [H'|H']; [now left|]. right. now left.
    + right. now right.
Qed.

(** X27. Taking back what was just picked undoes the pick: picking a
    factory whose identity is not selected and then taking that identity
    back leaves the page exactly as it was, and the removal reports
    success. *)
Theorem pick_then_unpick (factory : Entry) (st : State) :
  isSelected st (entry_type factory) (entry_id factory) = false ->
  removeSelection (entry_type factory) (entry_id factory)
    (fst (addSelection factory st)) = (st, true).
Proof.
  intros Hsel. unfold addSelection. rewrite Hsel. cbn [fst].
  unfold removeSelection. cbn [with_selections selections].
  assert (E : remove_first_entry
                (fun entry =>
                   str_eqb (entry_type entry) (entry_type factory) &&
                   str_eqb (entry_id entry) (entry_id factory))
                (selections st ++ [factory]) = Some (selections st)).
  { unfold isSelected in Hsel.
    induction (selections st) as [|x l IH]; cbn [app remove_first_entry].
    - now rewrite !str_eqb_refl.
    - cbn [existsb] in Hsel. apply orb_false_iff in Hsel as [Hx Hl].
      rewrite Hx, (IH Hl). reflexivity. }
  rewrite E. destruct st. reflexivity.
Qed.

(** X28. The ignore filter of the picker splits the list in two: whatever
    is searched for and whichever type is chosen, the filter new shows the
    entries shown without a filter that are not in the ignore set, the
    filter ignored shows those that are, each in catalog order, and any
    other value of the filter shows them all; nothing is ever shown that is
    not in the catalog. *)
Theorem picker_ignore_partition (toLowerCase : jsstring -> jsstring)
    (search selectedType : option jsstring) (st : State) :
  picker_filter toLowerCase search selectedType (Some (lit "new")) st =
    List.filter
      (fun f => negb (alreadyIgnored st (entry_type f) (entry_id f)))
      (picker_filter toLowerCase search selectedType None st) /\
  picker_filter toLowerCase search selectedType (Some (lit "ignored")) st =
    List.filter
      (fun f => alreadyIgnored st (entry_type f) (entry_id f))
      (picker_filter toLowerCase search selectedType None st) /\
  (forall mode,
     mode <> lit "new" -> mode <> lit "ignored" ->
     picker_filter toLowerCase search selectedType (Some mode) st =
     picker_filter toLowerCase search selectedType None st) /\
  (forall mode,
     sublist (picker_filter toLowerCase search selectedType mode st)
       (factories st)).
Proof.
  assert (Hff : forall (p q : Entry -> bool) l,
            List.filter p (List.filter q l) =
            List.filter (fun x => q x && p x) l).
  { intros p q l. induction l as [|x l IH]; [reflexivity|]. cbn [List.filter].
    destruct (q x); cbn [List.filter andb]; [|exact IH].
    destruct (p x); now rewrite IH. }
  assert (Hnew : str_eqb (lit "new") (lit "new") = true) by apply str_eqb_refl.
  assert (Hign : str_eqb (lit "ignored") (lit "ignored") = true)
    by apply str_eqb_refl.
  assert (Hni : str_eqb (lit "new") (lit "ignored") = false)
    by (vm_compute; reflexivity).
  assert (Han : str_eqb (lit "all") (lit "new") = false)
    by (vm_compute; reflexivity).
  assert (Hai : str_eqb (lit "all") (lit "ignored") = false)
    by (vm_compute; reflexivity).
  unfold picker_filter, alreadyIgnored. cbv zeta. cbn [default from_option id].
  repeat split.
  - rewrite Hff. apply filter_ext. intros f. rewrite Hnew, Hni, Han, Hai.
    cbn [andb].
    destruct (negb (str_eqb (default (lit "all") selectedType) (lit "all")) &&
              negb (str_eqb (entry_type f) (default (lit "all") selectedType)));
      [reflexivity|].
    destruct (bool_decide (keyFor (entry_type f) (entry_id f) ∈ ignoreSet st));
      cbn [negb andb]; [now rewrite andb_false_r | now rewrite andb_true_r].
  - rewrite Hff. apply filter_ext. intros f.
    assert (Hin : str_eqb (lit "ignored") (lit "new") = false)
      by (vm_compute; reflexivity).
    rewrite Hign, Hin, Han, Hai. cbn [andb].
    destruct (negb (str_eqb (default (lit "all") selectedType) (lit "all")) &&
              negb (str_eqb (entry_type f) (default (lit "all") selectedType)));
      [reflexivity|].
    destruct (bool_decide (keyFor (entry_type f) (entry_id f) ∈ ignoreSet st));
      cbn [negb andb]; [now rewrite andb_true_r | now rewrite andb_false_r].
  - intros mode H1 H2. apply filter_ext. intros f.
    apply str_eqb_neq in H1, H2. rewrite H1, H2, Han, Hai. reflexivity.
  - intros mode. apply filter_sublist.
Qed.

Lemma page_selection_invariant_witness :
  NoDup
    (map entry_identity
       (selections
          (page_run
             [Pick entry_a; Pick entry_a; Pick entry_b;
              Unpick (lit "XL_F_P") (lit "2"); ApplyClicked false;
              ApplyAnswered (Response true (Some body_one_error)) one_ignored
                false]
             (idle_page [] ∅)))) /\
  Forall
    (fun entry =>
       In entry (selections (idle_page [] ∅)) \/
       In (Pick entry)
         [Pick entry_a; Pick entry_a; Pick entry_b;
          Unpick (lit "XL_F_P") (lit "2"); ApplyClicked false;
          ApplyAnswered (Response true (Some body_one_error)) one_ignored
            false])
    (selections
       (page_run
          [Pick entry_a; Pick entry_a; Pick entry_b;
           Unpick (lit "XL_F_P") (lit "2"); ApplyClicked false;
           ApplyAnswered (Response true (Some body_one_error)) one_ignored
             false]
          (idle_page [] ∅))).
Proof.
  apply (page_selection_invariant
           [Pick entry_a; Pick entry_a; Pick entry_b;
            Unpick (lit "XL_F_P") (lit "2"); ApplyClicked false;
            ApplyAnswered (Response true (Some body_one_error)) one_ignored
              false]
           (idle_page [] ∅)).
  vm_compute. constructor.
Defined.

Lemma pick_then_unpick_witness :
  removeSelection (lit "JV_F_P") (lit "1")
    (fst (addSelection entry_a (idle_page [entry_a] ∅))) =
  (idle_page [entry_a] ∅, true).
Proof.
  apply (pick_then_unpick entry_a (idle_page [entry_a] ∅)).
  vm_compute. reflexivity.
Defined.

Example page_run_sample :
  map entry_identity
    (selections
       (page_run
          [Pick entry_a; Pick entry_a; Pick entry_b;
           Unpick (lit "XL_F_P") (lit "2"); ApplyClicked false;
           ApplyAnswered (Response true (Some body_one_error)) one_ignored
             false]
          (idle_page [] ∅))) = [(lit "JV_F_P", lit "1")].
Proof. vm_compute. reflexivity. Qed.

Example picker_filter_sample :
  map entry_id
    (picker_filter ascii_lower (Some (lit " ALF ")) None (Some (lit "new"))
       (idle_page [entry_a; entry_b; entry_c] ∅)) = [lit "1"].
Proof. vm_compute. reflexivity. Qed.

(** *** The console: picker button and modals *)

Lemma String_of_number_nonempty n : nonempty (String_of_number n) = true.
Proof.
  unfold String_of_number. destruct n as [|p|p]; cbn [Z.to_int];
    [reflexivity| |reflexivity].
  pose proof (uint_units_nonnil _ (Unsigned.to_uint_nonnil p)) as H.
  now destruct (uint_units (Pos.to_uint p)).
Qed.

(** X29. The add button of the picker carries a factory through the page
    without loss when its item count, if it has one, is an integer of
    magnitude up to 2^53 - 1: the click handler reads back, from what the
    picker wrote on the button, the very type, id, name and item count of
    the factory (the count through its decimal text), so that the click does
    what adding the catalog record itself does. *)
Theorem picker_button_round_trip (factory : FactoryRecord)
    (selections : list Selection) :
  exact_count factory ->
  pickerList_click (addButton_dataset factory) selections =
  addFactorySelection (Some factory) selections.
Proof.
  intros _. unfold pickerList_click, addButton_dataset.
  destruct factory as [type id name [n|]];
    cbn [rec_type rec_id rec_name rec_itemCount
         dataset_type dataset_id dataset_name dataset_count or_empty];
    cbv zeta.
  - now rewrite String_of_number_nonempty, parseInt10_String_of_number.
  - reflexivity.
Qed.

Lemma picker_button_round_trip_witness :
  pickerList_click
    (addButton_dataset
       {| rec_type := lit "JV_F_P"; rec_id := lit "7"; rec_name := lit "Alfa";
          rec_itemCount := Some 120%Z |})
    [] =
  ([{| sel_type := lit "JV_F_P"; sel_id := lit "7"; sel_name := lit "Alfa";
       sel_count := Some 120%Z |}], true).
Proof.
  rewrite (picker_button_round_trip
             {| rec_type := lit "JV_F_P"; rec_id := lit "7";
                rec_name := lit "Alfa"; rec_itemCount := Some 120%Z |} []);
    [reflexivity | now vm_compute].
Defined.

Lemma closeModal_in_step getElementById backdrop page :
  modals_in_step getElementById backdrop page ->
  modals_in_step getElementById backdrop (closeModal backdrop page).
Proof.
  intros (Ho & Ha & Hb & Hm). unfold closeModal.
  destruct (activeModal page) as [modal|] eqn:Ea;
    [|unfold modals_in_step; now rewrite Ea].
  unfold modals_in_step.
  cbn [open_elements backdrop_open activeModal isFactoryPickerOpen].
  split; [|split; [discriminate|split; [now destruct backdrop|exact I]]].
  intros x Hx. apply elem_of_difference in Hx as [Hx Hne].
  destruct (Ho x Hx) as [[= ->]|H]; [|now right].
  exfalso. apply Hne. now apply elem_of_singleton.
Qed.

Lemma openPicker_in_step getElementById backdrop page :
  modals_in_step getElementById backdrop page ->
  modals_in_step getElementById backdrop (openPicker page).
Proof.
  intros (Ho & Ha & Hb & Hm). unfold modals_in_step, openPicker.
  cbn [open_elements backdrop_open activeModal isFactoryPickerOpen].
  split; [|split; [|split; [exact Hb|exact Hm]]].
  - intros x Hx. apply elem_of_union in Hx as [Hx|Hx].
    + destruct (Ho x Hx) as [H|[H _]]; [now left | now right].
    + apply elem_of_singleton in Hx. now right.
  - intros modal H1 H2. apply elem_of_union. left. now apply Ha.
Qed.

Lemma closePicker_in_step getElementById backdrop page :
  modals_in_step getElementById backdrop page ->
  modals_in_step getElementById backdrop (closePicker page).
Proof.
  intros H. unfold closePicker.
  destruct (isFactoryPickerOpen page) eqn:Ep; cbn [negb]; [|exact H].
  destruct H as (Ho & Ha & Hb & Hm). unfold modals_in_step.
  cbn [open_elements backdrop_open activeModal isFactoryPickerOpen].
  split; [|split; [|split; [exact Hb|exact Hm]]].
  - intros x Hx. apply elem_of_difference in Hx as [Hx Hne].
    destruct (Ho x Hx) as [H|[H _]]; [now left|].
    exfalso. apply Hne. now apply elem_of_singleton.
  - intros modal H1 H2. apply elem_of_difference. split; [now apply Ha|].
    intros H. apply elem_of_singleton in H. contradiction.
Qed.

Lemma modal_step_in_step getElementById backdrop page e :
  modals_in_step getElementById backdrop page ->
  modals_in_step getElementById backdrop
    (modal_step getElementById backdrop page e).
Proof.
  intros H. destruct e as [id| |escape| |]; cbn [modal_step].
  - unfold openModal. destruct (getElementById id) eqn:Eid; cbn [negb]; [|exact H].
    apply (closeModal_in_step getElementById backdrop) in H.
    destruct H as (Ho & _ & Hb & _). revert Ho Hb.
    assert (Ea : activeModal (closeModal backdrop page) = None).
    { unfold closeModal. now destruct (activeModal page) eqn:E. }
    rewrite Ea. intros Ho Hb.
    unfold modals_in_step.
    cbn [open_elements backdrop_open activeModal isFactoryPickerOpen].
    rewrite Hb.
    split; [|split; [|split; [now destruct backdrop|exact Eid]]].
    + intros x Hx. apply elem_of_union in Hx as [Hx|Hx].
      * destruct (Ho x Hx) as [H|H]; [discriminate H | now right].
      * apply elem_of_singleton in Hx. left. now subst.
    + intros modal [= <-] _. apply elem_of_union. right.
      now apply elem_of_singleton.
  - now apply closeModal_in_step.
  - unfold keydown. destruct escape; cbn [negb]; [|exact H].
    destruct (isFactoryPickerOpen page) eqn:Ep.
    + now apply closePicker_in_step.
    + destruct (activeModal page) eqn:Ea; [|exact H].
      now apply closeModal_in_step.
  - now apply openPicker_in_step.
  - now apply closePicker_in_step.
Qed.

(** X30. From a page with nothing open, whatever is clicked or pressed, the
    only elements that can carry the open class are the active modal and
    the factory picker, so that no two modals are open together; the
    active modal carries the class (unless it is the picker element itself)
    and is an element of the page, and the backdrop, when there is one, is
    open exactly while a modal is active.  And while the factory picker is
    open the Escape key closes the picker: it takes the class from the
    picker and from no other element, and leaves the active modal and the
    backdrop as they are. *)
Theorem one_modal_at_a_time (getElementById : jsstring -> bool)
    (backdrop : bool) (events : list ModalEvent) :
  modals_in_step getElementById backdrop
    (modal_run getElementById backdrop events closed_page) /\
  (forall page,
     activeModal (keydown backdrop true (openPicker page)) = activeModal page /\
     backdrop_open (keydown backdrop true (openPicker page)) =
       backdrop_open page /\
     isFactoryPickerOpen (keydown backdrop true (openPicker page)) = false /\
     (PICKER_ID ∉ open_elements (keydown backdrop true (openPicker page))) /\
     (forall x, x <> PICKER_ID ->
        (x ∈ open_elements (keydown backdrop true (openPicker page)) <->
         x ∈ open_elements page))).
Proof.
  split.
  - assert (H0 : modals_in_step getElementById backdrop closed_page).
    { unfold modals_in_step, closed_page.
      cbn [open_elements backdrop_open activeModal isFactoryPickerOpen].
      split; [|split; [discriminate|split; [reflexivity|exact I]]].
      intros x Hx. now apply elem_of_empty in Hx. }
    revert H0. generalize closed_page.
    induction events as [|e events IH]; intros page Hp; [exact Hp|].
    unfold modal_run. cbn [fold_left]. apply IH.
    now apply modal_step_in_step.
  - intros page. unfold keydown, closePicker, openPicker.
    cbn [negb open_elements backdrop_open activeModal isFactoryPickerOpen].
    split; [reflexivity|]. split; [reflexivity|]. split; [reflexivity|].
    split.
    + intros H. apply elem_of_difference in H as [_ H]. apply H.
      now apply elem_of_singleton.
    + intros x Hx. rewrite elem_of_difference, elem_of_union, elem_of_singleton.
      tauto.
Qed.

Example modal_run_sample :
  let page :=
    modal_run (fun _ => true) true
      [OpenClicked (lit "login"); OpenClicked (lit "items"); PickerOpened;
       KeyDown true]
      closed_page in
  activeModal page = Some (lit "items") /\
  elements (open_elements page) = [lit "items"].
Proof. vm_compute. split; reflexivity. Qed.
